(** * Genetic feature selection (gscv.py): a shallow embedding and its properties

    The development follows [src/genetic_selection_mod/gscv.py]:
    - [Py]    : the Python values, exceptions and interpreter state the module relies on;
    - [Deap]  : the operators of the DEAP library that the module registers in its toolbox
                (fitness comparison, hall of fame, tournament selection, uniform crossover,
                bit-flip mutation, [varAnd]);
    - [Gscv]  : the module itself ([_createIndividual], [_evalFunction], [_eaFunction],
                [GeneticSelectionCV_mod.__init__] and [_fit]).

    Modelling conventions.
    - A chromosome is a Python list of the ints 0 and 1; it is a [list bool].
    - Python floats are idealised as exact rationals kept in lowest terms ([Q] with [Qred]).
    - Objects that the code mutates in place and shares between calls (the estimator whose
      attributes are assigned, the [scores_cache] dictionary) live in a store and are
      passed around as references.
    - Randomness ([random], [numpy.random]) is read from a tape of raw draws held in the
      interpreter state; every statement quantifies over all tapes.
    - [toolbox.map] is the builtin [map]: the evaluations run one after the other, in the
      order of the individuals.  This is the run with [n_jobs = 1]; with a process pool
      the evaluations are made in worker processes, on copies of the estimator and of
      the cache, and what they write is not seen by the calling process.
    - The scores of the folds, their mean and their standard deviation are numbers: a
      fold whose fit fails, that scikit-learn reports as NaN by default, is not
      modelled, and the statements about the order of the fitness values are for
      scores that are numbers.
    - The fit of [estimator_] on the selected columns, at the end of [_fit], is a call
      to scikit-learn that is not modelled; it is given at least one column whenever
      the best individual is feasible. *)

From Stdlib Require Import ZArith QArith Qround Qabs Lqa Lia.
From stdpp Require Import base option list gmap strings.

Local Open Scope Z_scope.

(* ===================================================================== *)
(** ** Python values, exceptions, store *)
(* ===================================================================== *)

Module Py.

(** An attribute value assigned on an estimator: a Python int or a float. *)
Inductive pyval :=
| PInt (z : Z)
| PFloat (q : Q).

(** The exceptions that the modelled code can raise. *)
Inductive exn :=
| ValueError
| IndexError
| ZeroDivisionError.

(** The source of randomness: raw draws and the position of the next one. *)
Record rng := mkRng { tape : nat -> N; cursor : nat }.

(** Interpreter state.  [ests] holds the attribute dictionaries of the estimator objects,
    [dicts] the [scores_cache] dictionaries (feature tuple -> [mean, std]), [next_loc] is
    the allocation pointer, [cv_calls] counts the calls made to [cross_val_score]. *)
Record world := mkWorld {
  ests : gmap nat (gmap string pyval);
  dicts : gmap nat (gmap (list bool) (Q * Q));
  next_loc : nat;
  cv_calls : nat;
  rand : rng
}.

(** Computations that read and write the interpreter state and may raise. *)
Definition M (A : Type) : Type := world -> exn + (A * world).

Definition ret {A} (a : A) : M A := fun w => inr (a, w).
Definition bind {A B} (m : M A) (k : A -> M B) : M B :=
  fun w => match m w with
           | inl e => inl e
           | inr (a, w') => k a w'
           end.
Definition raise {A} (e : exn) : M A := fun _ => inl e.
Definition get_world : M world := fun w => inr (w, w).

End Py.
Export Py.

Declare Scope py_scope.
Delimit Scope py_scope with py.
Notation "'let*' x ':=' m 'in' k" := (bind m (fun x => k))
  (at level 10, x pattern, m at level 100, k at level 200) : py_scope.
Notation "m1 ';;' m2" := (bind m1 (fun _ => m2))
  (at level 100, m2 at level 200, right associativity) : py_scope.
Local Open Scope py_scope.

Module PyOps.

(** [for x in l: acc = f acc x], with effects. *)
Fixpoint foldM {A B} (f : B -> A -> M B) (acc : B) (l : list A) : M B :=
  match l with
  | [] => ret acc
  | x :: l' => let* acc' := f acc x in foldM f acc' l'
  end.

(** [l[i:j]] for [0 <= i <= j]. *)
Definition slice {A} (l : list A) (i j : nat) : list A := take (j - i) (drop i l).

(** [int(''.join(str(b) for b in bin_str), 2)]: the big-endian value of a bit string;
    the empty string is not a number literal. *)
Definition bits_value (bin_str : list bool) : Z :=
  fold_left (fun acc (b : bool) => 2 * acc + (if b then 1 else 0)) bin_str 0.

Definition int_base2 (bin_str : list bool) : M Z :=
  match bin_str with
  | [] => raise ValueError
  | _ => ret (bits_value bin_str)
  end.

(** Float arithmetic, on rationals in lowest terms. *)
Definition fadd (x y : Q) : Q := Qred (x + y).
Definition fsub (x y : Q) : Q := Qred (x - y).
Definition fmul (x y : Q) : Q := Qred (x * y).
Definition fdiv (x y : Q) : M Q :=
  if Qeq_bool y 0 then raise ZeroDivisionError else ret (Qred (x / y)).
Definition Qltb (x y : Q) : bool := negb (Qle_bool y x).

(** [int(round(p, 0))]: rounding to the nearest integer, ties to the even one. *)
Definition round_half_even (p : Q) : Z :=
  let f := Qfloor p in
  let r := (p - inject_Z f)%Q in
  match (r ?= 1 # 2)%Q with
  | Lt => f
  | Gt => f + 1
  | Eq => if Z.even f then f else f + 1
  end.

(** [np.sum(individual, axis=0)]: the number of ones of a 0/1 list. *)
Fixpoint np_sum (individual : list bool) : Z :=
  match individual with
  | [] => 0
  | b :: rest => (if b then 1 else 0) + np_sum rest
  end.

(** Store accesses. *)
Definition setattr (estimator : nat) (name : string) (v : pyval) : M unit :=
  fun w => inr (tt, mkWorld (<[estimator := <[name := v]> (ests w !!! estimator)]> (ests w))
                            (dicts w) (next_loc w) (cv_calls w) (rand w)).

Definition get_params (estimator : nat) : M (gmap string pyval) :=
  fun w => inr (ests w !!! estimator, w).

Definition dict_get (d : nat) (key : list bool) : M (option (Q * Q)) :=
  fun w => inr ((dicts w !!! d) !! key, w).

Definition dict_set (d : nat) (key : list bool) (v : Q * Q) : M unit :=
  fun w => inr (tt, mkWorld (ests w) (<[d := <[key := v]> (dicts w !!! d)]> (dicts w))
                            (next_loc w) (cv_calls w) (rand w)).

(** A fresh empty dictionary [{}]. *)
Definition new_dict : M nat :=
  fun w => let l := next_loc w in
           inr (l, mkWorld (ests w) (<[l := ∅]> (dicts w)) (S l) (cv_calls w) (rand w)).

(** [sklearn.base.clone]: a new estimator object carrying the same parameters. *)
Definition clone (estimator : nat) : M nat :=
  fun w => let l := next_loc w in
           inr (l, mkWorld (<[l := ests w !!! estimator]> (ests w)) (dicts w) (S l)
                           (cv_calls w) (rand w)).

(** One raw draw from the tape. *)
Definition draw : M N :=
  fun w => let g := rand w in
           inr (tape g (cursor g),
                mkWorld (ests w) (dicts w) (next_loc w) (cv_calls w)
                        (mkRng (tape g) (S (cursor g)))).

(** [random.random()]: a float in [0, 1) with 53 bits. *)
Definition random_random : M Q :=
  let* r := draw in
  ret (Qred (Z.of_N (r mod 2 ^ 53)%N # 2 ^ 53)).

(** [random.choice(seq)]. *)
Definition random_choice {A} (seq : list A) : M A :=
  match seq with
  | [] => raise IndexError
  | _ =>
      let* r := draw in
      match seq !! N.to_nat (r mod N.of_nat (length seq)) with
      | Some x => ret x
      | None => raise IndexError
      end
  end.

(** [np.random.randint(low, high)]: an int in [low, high); [low >= high] is an error. *)
Definition randint (low high : Z) : M Z :=
  if high <=? low then raise ValueError
  else let* r := draw in ret (low + Z.of_N r mod (high - low)).

(** [np.random.shuffle(x)]: Fisher-Yates, from the last position down to position 1;
    position [i] is exchanged with a position drawn in [0, i]. *)
Definition swap {A} (l : list A) (i j : nat) : list A :=
  match l !! i, l !! j with
  | Some a, Some b => <[i := b]> (<[j := a]> l)
  | _, _ => l
  end.

Fixpoint shuffle_from {A} (i : nat) (x : list A) : M (list A) :=
  match i with
  | O => ret x
  | S i' => let* r := draw in
            shuffle_from i' (swap x i (N.to_nat (r mod N.of_nat (S i))))
  end.

Definition shuffle {A} (x : list A) : M (list A) := shuffle_from (length x - 1) x.

End PyOps.
Export PyOps.

(* ===================================================================== *)
(** ** The DEAP operators used by the module *)
(* ===================================================================== *)

(** DEAP is a library the module imports.  Its operators are embedded from the library
    (version 1.3: [base.Fitness], [tools.HallOfFame], [tools.selTournament],
    [tools.cxUniform], [tools.mutFlipBit], [algorithms.varAnd]), with the arguments that
    [_fit] registers. *)
Module Deap.

(** [creator.Individual_new]: a list of bits with a fitness attribute.  The fitness values
    are the triple returned by the evaluation, or absent while the fitness is invalid. *)
Record individual := mkInd {
  genes : list bool;
  fitness : option (Q * Z * Q)
}.

(** [creator.Individual_new(bits)]: a new individual, not evaluated yet. *)
Definition Individual_new (bits : list bool) : individual := mkInd bits None.

(** [creator.create("Fitness_new", base.Fitness, weights=(1.0, -0.1, -0.5))]. *)
Definition weights : list Q := [1; - (1 # 10); - (1 # 2)]%Q.

(** [Fitness.wvalues]: the values multiplied by the weights, the empty tuple when invalid. *)
Definition wvalues (fit : option (Q * Z * Q)) : list Q :=
  match fit with
  | None => []
  | Some (m, c, s) => zip_with fmul [m; inject_Z c; s] weights
  end.

(** [Fitness.valid]. *)
Definition valid (fit : option (Q * Z * Q)) : bool :=
  match wvalues fit with [] => false | _ => true end.

(** Python's order on tuples: decided at the first position where they differ. *)
Fixpoint tuple_le (a b : list Q) : bool :=
  match a, b with
  | [], _ => true
  | _ :: _, [] => false
  | x :: a', y :: b' => if Qeq_bool x y then tuple_le a' b' else Qle_bool x y
  end.

Fixpoint tuple_lt (a b : list Q) : bool :=
  match a, b with
  | _, [] => false
  | [], _ :: _ => true
  | x :: a', y :: b' => if Qeq_bool x y then tuple_lt a' b' else Qltb x y
  end.

(** [Fitness.__le__], [__lt__], [__gt__]. *)
Definition fitness_le (f g : option (Q * Z * Q)) : bool := tuple_le (wvalues f) (wvalues g).
Definition fitness_lt (f g : option (Q * Z * Q)) : bool := tuple_lt (wvalues f) (wvalues g).
Definition fitness_gt (f g : option (Q * Z * Q)) : bool := negb (fitness_le f g).

(** *** tools.HallOfFame *)

Record HallOfFame := mkHof {
  maxsize : nat;
  items : list individual   (* best first *)
}.

(** [similar=np.array_equal], on the bit lists. *)
Definition similar (a b : individual) : bool := bool_decide (genes a = genes b).

(** [HallOfFame.insert]: the item goes after the items of strictly greater fitness
    ([bisect_right] on the ascending keys, which mirror [items]). *)
Fixpoint insert_sorted (item : individual) (its : list individual) : list individual :=
  match its with
  | [] => [item]
  | it :: rest =>
      if fitness_lt (fitness item) (fitness it) then it :: insert_sorted item rest
      else item :: its
  end.

Definition hof_insert (hof : HallOfFame) (item : individual) : HallOfFame :=
  mkHof (maxsize hof) (insert_sorted item (items hof)).

(** [HallOfFame.remove(-1)]. *)
Definition hof_remove_last (hof : HallOfFame) : HallOfFame :=
  mkHof (maxsize hof) (removelast (items hof)).

(** The body of the loop of [HallOfFame.update] for one individual. *)
Definition hof_update_ind (hof : HallOfFame) (ind : individual) : M HallOfFame :=
  match last (items hof) with
  | None => raise IndexError                      (* self[-1] on an empty hall *)
  | Some worst =>
      if fitness_gt (fitness ind) (fitness worst) || (length (items hof) <? maxsize hof)%nat
      then
        if existsb (similar ind) (items hof) then ret hof
        else
          let hof1 := if (maxsize hof <=? length (items hof))%nat
                      then hof_remove_last hof else hof in
          ret (hof_insert hof1 ind)
      else ret hof
  end.

(** [HallOfFame.update(population)]. *)
Definition hof_update (hof : HallOfFame) (population : list individual) : M HallOfFame :=
  let hof0 :=
    match items hof, maxsize hof, population with
    | [], S _, first :: _ => hof_insert hof first
    | _, _, _ => hof
    end in
  foldM hof_update_ind hof0 population.

(** [halloffame[0]]. *)
Definition hof_head (hof : HallOfFame) : M individual :=
  match items hof with
  | [] => raise IndexError
  | best :: _ => ret best
  end.

(** *** tools.selTournament *)

(** [selRandom(individuals, k)]. *)
Fixpoint selRandom (individuals : list individual) (k : nat) : M (list individual) :=
  match k with
  | O => ret []
  | S k' => let* c := random_choice individuals in
            let* cs := selRandom individuals k' in
            ret (c :: cs)
  end.

(** [max(aspirants, key=attrgetter("fitness"))]: the first of the maximal elements. *)
Definition max_by_fitness (aspirants : list individual) : M individual :=
  match aspirants with
  | [] => raise ValueError
  | a :: rest =>
      ret (fold_left (fun best x => if fitness_gt (fitness x) (fitness best) then x else best)
                     rest a)
  end.

Fixpoint selTournament (individuals : list individual) (k : nat) (tournsize : nat)
  : M (list individual) :=
  match k with
  | O => ret []
  | S k' => let* aspirants := selRandom individuals tournsize in
            let* best := max_by_fitness aspirants in
            let* chosen := selTournament individuals k' tournsize in
            ret (best :: chosen)
  end.

(** *** tools.cxUniform, tools.mutFlipBit *)

(** [cxUniform(ind1, ind2, indpb)]: each of the first [min(len)] positions is exchanged
    with probability [indpb]. *)
Fixpoint cxUniform_bits (l1 l2 : list bool) (indpb : Q) : M (list bool * list bool) :=
  match l1, l2 with
  | a :: l1', b :: l2' =>
      let* r := random_random in
      let* p := cxUniform_bits l1' l2' indpb in
      ret (if Qltb r indpb then (b :: p.1, a :: p.2) else (a :: p.1, b :: p.2))
  | _, _ => ret (l1, l2)
  end.

Definition cxUniform (indpb : Q) (ind1 ind2 : individual) : M (individual * individual) :=
  let* p := cxUniform_bits (genes ind1) (genes ind2) indpb in
  ret (mkInd p.1 (fitness ind1), mkInd p.2 (fitness ind2)).

(** [mutFlipBit(individual, indpb)]: each bit is negated with probability [indpb]. *)
Fixpoint mutFlipBit_bits (l : list bool) (indpb : Q) : M (list bool) :=
  match l with
  | [] => ret []
  | b :: l' =>
      let* r := random_random in
      let* rest := mutFlipBit_bits l' indpb in
      ret ((if Qltb r indpb then negb b else b) :: rest)
  end.

Definition mutFlipBit (indpb : Q) (ind : individual) : M individual :=
  let* g := mutFlipBit_bits (genes ind) indpb in
  ret (mkInd g (fitness ind)).

(** *** base.Toolbox *)

Record Toolbox := mkToolbox {
  tb_individual : M individual;
  tb_evaluate : individual -> M (Q * Z * Q);
  tb_mate : individual -> individual -> M (individual * individual);
  tb_mutate : individual -> M individual;
  tb_select : list individual -> nat -> M (list individual)
}.

(** [toolbox.population(n)], i.e. [tools.initRepeat(list, toolbox.individual, n)]. *)
Fixpoint initRepeat (func : M individual) (n : nat) : M (list individual) :=
  match n with
  | O => ret []
  | S n' => let* x := func in let* xs := initRepeat func n' in ret (x :: xs)
  end.

(** [del ind.fitness.values]. *)
Definition del_fitness (ind : individual) : individual := mkInd (genes ind) None.

(** *** algorithms.varAnd *)

(** First loop: consecutive pairs are mated with probability [cxpb]. *)
Fixpoint varAnd_mate (toolbox : Toolbox) (cxpb : Q) (offspring : list individual)
  : M (list individual) :=
  match offspring with
  | a :: b :: rest =>
      let* r := random_random in
      if Qltb r cxpb then
        let* ab := tb_mate toolbox a b in
        let* rest' := varAnd_mate toolbox cxpb rest in
        ret (del_fitness ab.1 :: del_fitness ab.2 :: rest')
      else
        let* rest' := varAnd_mate toolbox cxpb rest in
        ret (a :: b :: rest')
  | _ => ret offspring
  end.

(** Second loop: each individual is mutated with probability [mutpb]. *)
Fixpoint varAnd_mutate (toolbox : Toolbox) (mutpb : Q) (offspring : list individual)
  : M (list individual) :=
  match offspring with
  | [] => ret []
  | a :: rest =>
      let* r := random_random in
      if Qltb r mutpb then
        let* a' := tb_mutate toolbox a in
        let* rest' := varAnd_mutate toolbox mutpb rest in
        ret (del_fitness a' :: rest')
      else
        let* rest' := varAnd_mutate toolbox mutpb rest in
        ret (a :: rest')
  end.

(** [varAnd(population, toolbox, cxpb, mutpb)]; the clones it starts from are the values. *)
Definition varAnd (population : list individual) (toolbox : Toolbox) (cxpb mutpb : Q)
  : M (list individual) :=
  let* offspring := varAnd_mate toolbox cxpb population in
  varAnd_mutate toolbox mutpb offspring.

End Deap.
Export Deap.

(* ===================================================================== *)
(** ** gscv.py *)
(* ===================================================================== *)

Module Gscv.

(** The [hparams] dictionary: [{'names': [...], 'bitwidth': n, 'range': [[min, max], ...]}].
    A bit width is a number of bits, hence a natural number. *)
Record hparams_t := mkHparams {
  names : list string;
  bitwidth : nat;
  range : list (Q * Q)
}.

(** What the module asks of scikit-learn and numpy for one data set [X, y, groups, cv,
    scorer, fit_params]: the per-fold scores of an estimator with given parameters on the
    columns selected by a mask, and the mean and standard deviation of a list of scores. *)
Record scoring := mkScoring {
  cv_scores : gmap string pyval -> list bool -> list Q;
  np_mean : list Q -> Q;
  np_std : list Q -> Q
}.

Section WithScoring.

Context (sk : scoring).

(** [cross_val_score(estimator=estimator, X=X[:, mask], ...)] on the current parameters
    of the estimator; the call is counted. *)
Definition cross_val_score (estimator : nat) (mask : list bool) : M (list Q) :=
  fun w => inr (cv_scores sk (ests w !!! estimator) mask,
                mkWorld (ests w) (dicts w) (next_loc w) (S (cv_calls w)) (rand w)).

(** *** _createIndividual (lines 127-137) *)

Definition _createIndividual (n : Z) (max_features : Z) (hparams : option hparams_t)
    (hparam_bits : Z) : M individual :=
  let* n_features := randint 1 (max_features + 1) in
  let f_genome := replicate (Z.to_nat n_features) true
                  ++ replicate (Z.to_nat (n - n_features)) false in
  let* f_genome := shuffle f_genome in
  match hparams with
  | Some _ =>
      let* n_1 := randint 0 (hparam_bits + 1) in
      let h_genome := replicate (Z.to_nat n_1) true
                      ++ replicate (Z.to_nat (hparam_bits - n_1)) false in
      let* h_genome := shuffle h_genome in
      ret (Individual_new (h_genome ++ f_genome))
  | None => ret (Individual_new f_genome)
  end.

(** *** _evalFunction (lines 142-170) *)

(** [p_min + dec_val*((p_max-p_min)/(2**n_pbits-1))]. *)
Definition phenotype (p_min p_max : Q) (dec_val : Z) (n_pbits : nat) : M Q :=
  let* step := fdiv (fsub p_max p_min) (inject_Z (2 ^ Z.of_nat n_pbits - 1)) in
  ret (fadd p_min (fmul (inject_Z dec_val) step)).

(** [hparams['range'][j]]. *)
Definition range_at (hp : hparams_t) (j : nat) : M (Q * Q) :=
  match range hp !! j with
  | Some pr => ret pr
  | None => raise IndexError
  end.

(** The loop of lines 148-155, from parameter number [j] and bit offset [i]; it returns
    the offset reached. *)
Fixpoint eval_hparams (hp : hparams_t) (estimator : nat) (individual : list bool)
    (j i : nat) (hnames : list string) : M nat :=
  match hnames with
  | [] => ret i
  | hparam :: rest =>
      let n_pbits := bitwidth hp in
      let bin_str := slice individual i (i + n_pbits) in
      let* dec_val := int_base2 bin_str in
      let* pr := range_at hp j in
      let* p := phenotype pr.1 pr.2 dec_val n_pbits in
      let v := if bool_decide (hparam ∈ ["max_depth"%string])
               then PInt (round_half_even p) else PFloat p in
      setattr estimator hparam v ;;
      eval_hparams hp estimator individual (S j) (i + n_pbits)%nat rest
  end.

Definition _evalFunction (individual : list bool) (estimator : nat) (max_features : Z)
    (hparams : option hparams_t) (caching : bool) (scores_cache : nat) : M (Q * Z * Q) :=
  let* individual :=
    match hparams with
    | Some hp =>
        let* i := eval_hparams hp estimator individual 0 0 (names hp) in
        ret (drop i individual)
    | None => ret individual
    end in
  let individual_sum := np_sum individual in
  if (individual_sum =? 0) || (max_features <? individual_sum) then
    ret (inject_Z (-10000), individual_sum, inject_Z 10000)
  else
    let* hit := if caching then dict_get scores_cache individual else ret None in
    match hit with
    | Some cached => ret (cached.1, individual_sum, cached.2)
    | None =>
        let* scores := cross_val_score estimator individual in
        let scores_mean := np_mean sk scores in
        let scores_std := np_std sk scores in
        (if caching then dict_set scores_cache individual (scores_mean, scores_std)
         else ret tt) ;;
        ret (scores_mean, individual_sum, scores_std)
    end.

(** *** _eaFunction (lines 46-124) *)

(** What the loop owns: the population, the hall of fame, the stagnation counter and the
    logbook (generation number and number of evaluations; the statistics are left out). *)
Record ea_state := mkEa {
  population : list individual;
  halloffame : HallOfFame;
  wait : Z;
  logbook : list (nat * nat)
}.

(** Lines 52-55 and 90-93: the individuals with an invalid fitness are evaluated, in
    order, and receive their fitness; the number of evaluations is returned too. *)
Fixpoint evaluate_invalid (toolbox : Toolbox) (pop : list individual)
  : M (list individual * nat) :=
  match pop with
  | [] => ret ([], O)
  | ind :: rest =>
      if valid (fitness ind) then
        let* r := evaluate_invalid toolbox rest in
        ret (ind :: r.1, r.2)
      else
        let* fit := tb_evaluate toolbox ind in
        let* r := evaluate_invalid toolbox rest in
        ret (mkInd (genes ind) (Some fit) :: r.1, S r.2)
  end.

(** [zip] applied to the unpacked list [genes]: the tuples of the i-th elements, up to the
    shortest list. *)
Fixpoint zip_star {A} (ls : list (list A)) : list (list A) :=
  match ls with
  | [] => []
  | [l] => map (fun x => [x]) l
  | l :: rest => zip_with cons l (zip_star rest)
  end.

(** Lines 79-82: one [varAnd] per hyperparameter segment, from bit offset [i]; the varied
    segments and the offset reached. *)
Fixpoint vary_hparam_segments (toolbox : Toolbox) (cxpb mutpb : Q) (n_pbits : nat)
    (offspring : list individual) (i : nat) (hnames : list string)
  : M (list (list individual) * nat) :=
  match hnames with
  | [] => ret ([], i)
  | _ :: rest =>
      let offspring_h :=
        map (fun ind => Individual_new (slice (genes ind) i (i + n_pbits))) offspring in
      let* g := varAnd offspring_h toolbox cxpb mutpb in
      let* r := vary_hparam_segments toolbox cxpb mutpb n_pbits offspring
                  (i + n_pbits)%nat rest in
      ret (g :: r.1, r.2)
  end.

(** Lines 75-87: the variation of the selected offspring. *)
Definition vary (toolbox : Toolbox) (cxpb mutpb : Q) (hparams : option hparams_t)
    (offspring : list individual) : M (list individual) :=
  match hparams with
  | Some hp =>
      let n_pbits := bitwidth hp in
      let* r := vary_hparam_segments toolbox cxpb mutpb n_pbits offspring 0 (names hp) in
      let offspring_f := map (fun ind => Individual_new (drop r.2 (genes ind))) offspring in
      let* gf := varAnd offspring_f toolbox cxpb mutpb in
      let genes_ := r.1 ++ [gf] in
      ret (map (fun ind => Individual_new (concat (map genes ind))) (zip_star genes_))
  | None => varAnd offspring toolbox cxpb mutpb
  end.

(** Lines 71-122: the body of the generational loop.  The boolean tells whether the
    [break] of line 122 is taken. *)
Definition generation (toolbox : Toolbox) (cxpb mutpb : Q) (ngen_no_change : option Z)
    (hparams : option hparams_t) (hof_size : nat) (gen : nat) (st : ea_state)
  : M (ea_state * bool) :=
  let* offspring :=
    tb_select toolbox (population st) (length (population st) - hof_size)%nat in
  let* offspring := vary toolbox cxpb mutpb hparams offspring in
  let* ev := evaluate_invalid toolbox offspring in
  let offspring := ev.1 ++ items (halloffame st) in
  let* prev_best := hof_head (halloffame st) in
  let* hof := hof_update (halloffame st) offspring in
  let* best := hof_head hof in
  let wait' := if bool_decide (genes best = genes prev_best) then wait st + 1 else 0 in
  let stop := match ngen_no_change with
              | Some k => k <=? wait'
              | None => false
              end in
  ret (mkEa offspring hof wait' (logbook st ++ [(gen, ev.2)]), stop).

(** [for gen in range(1, ngen + 1)]: the states reached at the end of each generation that
    was run, in order. *)
Fixpoint ea_loop (toolbox : Toolbox) (cxpb mutpb : Q) (ngen_no_change : option Z)
    (hparams : option hparams_t) (hof_size : nat) (remaining gen : nat) (st : ea_state)
  : M (list ea_state) :=
  match remaining with
  | O => ret []
  | S remaining' =>
      let* r := generation toolbox cxpb mutpb ngen_no_change hparams hof_size gen st in
      if r.2 then ret [r.1]
      else
        let* rest := ea_loop toolbox cxpb mutpb ngen_no_change hparams hof_size
                       remaining' (S gen) r.1 in
        ret (r.1 :: rest)
  end.

(** Lines 48-66: the evaluation of the initial population and the first update of the hall
    of fame; the state before generation 1 and [hof_size]. *)
Definition ea_init (population : list individual) (toolbox : Toolbox)
    (halloffame : option HallOfFame) : M (ea_state * nat) :=
  let* ev := evaluate_invalid toolbox population in
  match halloffame with
  | None => raise ValueError
  | Some hof =>
      let* hof := hof_update hof ev.1 in
      ret (mkEa ev.1 hof 0 [(O, ev.2)], length (items hof))
  end.

(** The run as the list of its states: the state before generation 1, then the state at
    the end of every generation that was run. *)
Definition ea_trace (population : list individual) (toolbox : Toolbox) (cxpb mutpb : Q)
    (ngen : Z) (ngen_no_change : option Z) (halloffame : option HallOfFame)
    (hparams : option hparams_t) : M (list ea_state) :=
  let* s0 := ea_init population toolbox halloffame in
  let* sts := ea_loop toolbox cxpb mutpb ngen_no_change hparams s0.2 (Z.to_nat ngen) 1 s0.1 in
  ret (s0.1 :: sts).

(** [_eaFunction]: the state the run ends in (the population and the logbook it returns,
    and the hall of fame it has updated in place). *)
Definition _eaFunction (population : list individual) (toolbox : Toolbox) (cxpb mutpb : Q)
    (ngen : Z) (ngen_no_change : option Z) (halloffame : option HallOfFame)
    (hparams : option hparams_t) : M ea_state :=
  let* tr := ea_trace population toolbox cxpb mutpb ngen ngen_no_change halloffame hparams in
  match last tr with
  | Some st => ret st
  | None => raise IndexError
  end.


(** *** GeneticSelectionCV_mod (lines 273-415) *)

(** The attributes set by [__init__] that the search reads.  [estimator] and
    [scores_cache] are references to the objects held by the selector. *)
Record GeneticSelectionCV_mod := mkSelector {
  estimator : nat;
  max_features : option Z;
  n_jobs : Z;
  n_population : Z;
  crossover_proba : Q;
  mutation_proba : Q;
  n_generations : Z;
  crossover_independent_proba : Q;
  mutation_independent_proba : Q;
  tournament_size : Z;
  n_gen_no_change : option Z;
  hparams : option hparams_t;
  hparam_bits : nat;
  caching : bool;
  scores_cache : nat
}.

(** [__init__] (lines 273-296): line 294 computes [hparam_bits], line 296 creates the
    dictionary of the cache. *)
Definition __init__ (estimator : nat) (max_features : option Z) (n_jobs n_population : Z)
    (crossover_proba mutation_proba : Q) (n_generations : Z)
    (crossover_independent_proba mutation_independent_proba : Q) (tournament_size : Z)
    (n_gen_no_change : option Z) (hparams : option hparams_t) (caching : bool)
  : M GeneticSelectionCV_mod :=
  let hparam_bits := match hparams with
                     | Some hp => (length (names hp) * bitwidth hp)%nat
                     | None => O
                     end in
  let* scores_cache := new_dict in
  ret (mkSelector estimator max_features n_jobs n_population crossover_proba mutation_proba
         n_generations crossover_independent_proba mutation_independent_proba
         tournament_size n_gen_no_change hparams hparam_bits caching scores_cache).

(** The attributes set at the end of [_fit]. *)
Record fitted := mkFitted {
  support_ : list bool;
  best_params_ : gmap string pyval;
  n_features_ : Z;
  estimator_ : nat
}.

(** Lines 397-403: the decoding of the hyperparameter bits of the best chromosome. *)
Fixpoint decode_best_params (hp : hparams_t) (best_params_binstr : list bool)
    (j i : nat) (hnames : list string) (best_params_ : gmap string pyval)
  : M (gmap string pyval) :=
  match hnames with
  | [] => ret best_params_
  | hparam :: rest =>
      let n_pbits := bitwidth hp in
      let bin_str := slice best_params_binstr i (i + n_pbits) in
      let* dec_val := int_base2 bin_str in
      let* pr := range_at hp j in
      let* p := phenotype pr.1 pr.2 dec_val n_pbits in
      decode_best_params hp best_params_binstr (S j) (i + n_pbits)%nat rest
        (<[hparam := PFloat p]> best_params_)
  end.

(** Lines 350-359: the toolbox of one run. *)
Definition make_toolbox (self : GeneticSelectionCV_mod) (n_features : nat)
    (max_features_ : Z) (estimator_clone : nat) : Toolbox :=
  mkToolbox
    (_createIndividual (Z.of_nat n_features) max_features_ (hparams self)
       (Z.of_nat (hparam_bits self)))
    (fun ind => _evalFunction (genes ind) estimator_clone max_features_ (hparams self)
                  (caching self) (scores_cache self))
    (cxUniform (crossover_independent_proba self))
    (mutFlipBit (mutation_independent_proba self))
    (fun individuals k => selTournament individuals k (Z.to_nat (tournament_size self))).

(** Lines 327-338: the bound on the number of features.  [max_features] and
    [n_gen_no_change] are integers or [None] by their types, so that the type checks of
    lines 328 and 340 pass. *)
Definition check_max_features (self : GeneticSelectionCV_mod) (n_features : nat) : M Z :=
  match max_features self with
  | Some mf =>
      if (mf <? 1) || (Z.of_nat n_features <? mf) then raise ValueError else ret mf
  | None => ret (Z.of_nat n_features)
  end.

(** Lines 390-407: the mask and the hyperparameter values of the best chromosome. *)
Definition final_attributes (self : GeneticSelectionCV_mod) (hof : HallOfFame)
  : M (list bool * gmap string pyval) :=
  let* best := hof_head hof in
  match hparams self with
  | Some hp =>
      let support := drop (hparam_bits self) (genes best) in
      let best_params_binstr := take (hparam_bits self) (genes best) in
      let* bp := decode_best_params hp best_params_binstr 0 0 (names hp) ∅ in
      ret (support, bp)
  | None =>
      let* bp := get_params (estimator self) in
      ret (genes best, bp)
  end.

(** [_fit] (lines 320-415) on data with [n_features] columns, for [n_jobs = 1]; with
    another non-zero value the evaluations are dispatched to a process pool, of which
    only the order-preserving result is kept here.  The fit of [estimator_] on the
    selected columns (line 409) is a call to scikit-learn that is not modelled. *)
Definition _fit (self : GeneticSelectionCV_mod) (n_features : nat) : M fitted :=
  let* max_features_ := check_max_features self n_features in
  let* estimator_clone := clone (estimator self) in
  let toolbox := make_toolbox self n_features max_features_ estimator_clone in
  if n_jobs self =? 0 then raise ValueError
  else
    let* pop := initRepeat (tb_individual toolbox) (Z.to_nat (n_population self)) in
    let hof := mkHof 1 [] in
    let* st := _eaFunction pop toolbox (crossover_proba self) (mutation_proba self)
                 (n_generations self) (n_gen_no_change self) (Some hof) (hparams self) in
    let* fin := final_attributes self (halloffame st) in
    let* est := clone (estimator self) in
    ret (mkFitted fin.1 fin.2 (np_sum fin.1) est).

(** [fit] (line 318). *)
Definition fit (self : GeneticSelectionCV_mod) (n_features : nat) : M fitted :=
  _fit self n_features.

End WithScoring.

End Gscv.
Export Gscv.

(* ===================================================================== *)
(** ** Vocabulary of the statements *)
(* ===================================================================== *)

Module Props.

(** [m] never raises; it takes every state [w] to a state related to [w] by [R] and
    returns a value satisfying [Q]. *)
Definition total (R : world -> world -> Prop) {A} (m : M A) (Q : A -> Prop) : Prop :=
  forall w, exists a w', m w = inr (a, w') /\ R w w' /\ Q a.

(** The number of hyperparameter bits at the head of a chromosome. *)
Definition n_hparam_bits (hparams : option hparams_t) : nat :=
  match hparams with
  | Some hp => (length (names hp) * bitwidth hp)%nat
  | None => O
  end.

(** The feature segment: what is left once the hyperparameter segment is stripped. *)
Definition feature_segment (hparams : option hparams_t) (chromosome : list bool)
  : list bool :=
  drop (n_hparam_bits hparams) chromosome.

(** A usable hyperparameter dictionary: segments have at least one bit and every name has
    its [min, max] range. *)
Definition hparams_ok (hparams : option hparams_t) : Prop :=
  match hparams with
  | Some hp => (0 < bitwidth hp)%nat /\ (length (names hp) <= length (range hp))%nat
  | None => True
  end.

(** A chromosome carries its hyperparameter segment in full. *)
Definition chromosome_ok (hparams : option hparams_t) (chromosome : list bool) : Prop :=
  (n_hparam_bits hparams <= length chromosome)%nat.

(** The value of line 152 when the division is defined. *)
Definition phenotype_value (p_min p_max : Q) (dec_val : Z) (n_pbits : nat) : Q :=
  fadd p_min
    (fmul (inject_Z dec_val)
       (Qred (fsub p_max p_min / inject_Z (2 ^ Z.of_nat n_pbits - 1)))).

(** The value that line 154 assigns for the hyperparameter [hparam] of phenotype [p]. *)
Definition assigned_value (hparam : string) (p : Q) : pyval :=
  if bool_decide (hparam ∈ ["max_depth"%string]) then PInt (round_half_even p)
  else PFloat p.

(** The attributes of the estimator once lines 148-155 have run on a chromosome, from
    parameter number [j] and bit offset [i]. *)
Fixpoint assign_hparams (hp : hparams_t) (individual : list bool) (j i : nat)
    (hnames : list string) (attrs : gmap string pyval) : gmap string pyval :=
  match hnames with
  | [] => attrs
  | hparam :: rest =>
      let pr := default (0%Q, 0%Q) (range hp !! j) in
      let dec_val := bits_value (slice individual i (i + bitwidth hp)) in
      let p := phenotype_value pr.1 pr.2 dec_val (bitwidth hp) in
      assign_hparams hp individual (S j) (i + bitwidth hp) rest
        (<[hparam := assigned_value hparam p]> attrs)
  end.

Definition assigned_attrs (hparams : option hparams_t) (individual : list bool)
    (attrs : gmap string pyval) : gmap string pyval :=
  match hparams with
  | Some hp => assign_hparams hp individual 0 0 (names hp) attrs
  | None => attrs
  end.

(** What the decoding of the hyperparameters changes in the store: the attributes of the
    estimator it is given, and nothing else. *)
Definition hparams_frame (est : nat) (attrs' : gmap string pyval) (w w' : world) : Prop :=
  dicts w' = dicts w /\ cv_calls w' = cv_calls w /\ rand w' = rand w
  /\ next_loc w' = next_loc w
  /\ (forall l, l <> est -> ests w' !! l = ests w !! l)
  /\ ests w' !!! est = attrs'.

(** What an evaluation may change in the store: the attributes of the estimator it is
    given, new entries in the dictionary it is given, the call counter and the tape. *)
Definition eval_frame (est c : nat) (w w' : world) : Prop :=
  (forall l, l <> est -> ests w' !! l = ests w !! l)
  /\ (forall d, d <> c -> dicts w' !! d = dicts w !! d)
  /\ (forall key v, (dicts w !!! c) !! key = Some v -> (dicts w' !!! c) !! key = Some v)
  /\ next_loc w' = next_loc w.

(** The store after a call of [cross_val_score] whose result is cached or not. *)
Definition scored_world (caching : bool) (c : nat) (key : list bool) (v : Q * Q)
    (w : world) : world :=
  mkWorld (ests w)
    (if caching then <[c := <[key := v]> (dicts w !!! c)]> (dicts w) else dicts w)
    (next_loc w) (S (cv_calls w)) (rand w).

(** The fitness of an infeasible individual (line 159). *)
Definition sentinel (count : Z) : Q * Z * Q := (inject_Z (-10000), count, inject_Z 10000).

(** The bits of the best-ever individual of a state of the loop. *)
Definition best_genes (st : ea_state) : option (list bool) :=
  genes <$> head (items (halloffame st)).

(** The fitness of the best-ever individual of a state of the loop. *)
Definition best_fitness (st : ea_state) : option (Q * Z * Q) :=
  head (items (halloffame st)) ≫= fitness.

(** The two worlds agree on everything but the random tape position. *)
Definition same_store (w w' : world) : Prop :=
  ests w' = ests w /\ dicts w' = dicts w /\ next_loc w' = next_loc w
  /\ cv_calls w' = cv_calls w.

(** A bit as a number. *)
Definition bit (b : bool) : Z := if b then 1 else 0.

(** What [_createIndividual] returns for [1 <= max_features <= n]. *)
Definition fresh_chromosome (n max_features : Z) (hparams : option hparams_t)
    (ind : individual) : Prop :=
  fitness ind = None
  /\ Z.of_nat (length (genes ind)) = Z.of_nat (n_hparam_bits hparams) + n
  /\ Z.of_nat (length (feature_segment hparams (genes ind))) = n
  /\ 1 <= np_sum (feature_segment hparams (genes ind)) <= max_features.

(** What the loop asks of the registered operators, for chromosomes of [L] bits: the
    evaluation does not raise on such a chromosome; crossover and mutation do not raise
    and keep the number of bits; selection does not raise on a non-empty population and
    returns [k] of its members. *)
Definition mate_ok (R : world -> world -> Prop) (tb : Toolbox) : Prop :=
  forall a b, total R (tb_mate tb a b)
    (fun p => length (genes p.1) = length (genes a)
              /\ length (genes p.2) = length (genes b)).
Definition mutate_ok (R : world -> world -> Prop) (tb : Toolbox) : Prop :=
  forall a, total R (tb_mutate tb a) (fun a' => length (genes a') = length (genes a)).
Definition select_ok (R : world -> world -> Prop) (tb : Toolbox) : Prop :=
  forall pop k (P : individual -> Prop), pop <> [] -> Forall P pop ->
    total R (tb_select tb pop k) (fun l => length l = k /\ Forall P l).
Definition evaluate_ok (R : world -> world -> Prop) (L : nat) (tb : Toolbox) : Prop :=
  forall ind, length (genes ind) = L -> total R (tb_evaluate tb ind) (fun _ => True).

(** Variation keeps the number of individuals and the number of bits of each. *)
Definition same_shape (old new : list individual) : Prop :=
  Forall2 (fun a b => length (genes b) = length (genes a)) old new.

(** With a hall of fame of size 1: an individual replaces the best-ever one when its
    fitness is strictly greater and its bits differ. *)
Definition improves (ind best : individual) : bool :=
  fitness_gt (fitness ind) (fitness best) && negb (similar ind best).

(** The comparison of two fitness values as section 3 of the specification words it:
    by the sum of the three values multiplied by the weights (1.0, -0.1, -0.5). *)
Definition spec_weighted_sum (fit : Q * Z * Q) : Q :=
  Qred (1 * fit.1.1 + - (1 # 10) * inject_Z fit.1.2 + - (1 # 2) * fit.2).

(** The best-ever individual after the update of a hall of fame of size 1 holding [best]
    with a population. *)
Definition best_of (best : individual) (population : list individual) : individual :=
  fold_left (fun b ind => if improves ind b then ind else b) population best.

(** The individuals of an evaluated population: same bits, valid fitness, and untouched
    when the fitness was valid already. *)
Definition evaluated (old new : list individual) : Prop :=
  Forall2 (fun a b => genes b = genes a /\ valid (fitness b) = true
                      /\ (valid (fitness a) = true -> b = a)) old new.

(** The populations that lines 80 and 83 hand to [varAnd]: the segment of [bw] bits at
    offset [i] of every offspring, and what follows offset [i]. *)
Definition segment_pop (i bw : nat) (offspring : list individual) : list individual :=
  map (fun ind => Individual_new (slice (genes ind) i (i + bw))) offspring.
Definition feature_pop (i : nat) (offspring : list individual) : list individual :=
  map (fun ind => Individual_new (drop i (genes ind))) offspring.

(** [output] is a result of [varAnd] on [input]. *)
Definition varied (tb : Toolbox) (cxpb mutpb : Q) (input output : list individual)
  : Prop :=
  same_shape input output
  /\ exists w0 w1, varAnd input tb cxpb mutpb w0 = inr (output, w1).

(** The [j]-th hyperparameter segment of a chromosome, for segments of [bw] bits. *)
Definition hparam_segment (bw j : nat) (chromosome : list bool) : list bool :=
  slice chromosome (j * bw) (j * bw + bw).

(** The offspring rebuilt by line 85: there is one varied population per hyperparameter
    segment and one for the feature segment, and the [i]-th new chromosome is the
    concatenation of their [i]-th members, in this order. *)
Definition rebuilt (tb : Toolbox) (cxpb mutpb : Q) (hp : hparams_t)
    (offspring result : list individual) : Prop :=
  exists (segs : list (list individual)) (gf : list individual),
    length segs = length (names hp)
    /\ (forall j seg, segs !! j = Some seg ->
          varied tb cxpb mutpb (segment_pop (j * bitwidth hp) (bitwidth hp) offspring) seg)
    /\ varied tb cxpb mutpb (feature_pop (length (names hp) * bitwidth hp) offspring) gf
    /\ length result = length offspring
    /\ forall i new, result !! i = Some new ->
         fitness new = None
         /\ exists hs f,
              Forall2 (fun seg h => seg !! i = Some h) segs hs
              /\ gf !! i = Some f
              /\ genes new = concat (map genes hs) ++ genes f.

(** The best-ever individual has the same bits in the two states. *)
Definition stagnant (st st' : ea_state) : Prop := best_genes st' = best_genes st.

(** What the loop maintains, for chromosomes of [L] bits: the population is not empty,
    its chromosomes have [L] bits, and the hall of fame of size 1 holds one of them. *)
Definition loop_inv (L : nat) (st : ea_state) : Prop :=
  population st <> []
  /\ Forall (fun ind => length (genes ind) = L) (population st)
  /\ exists b, halloffame st = mkHof 1 [b] /\ length (genes b) = L.

(** One generation, from the state [st] to the state [st']; [stop] tells whether the loop
    is left at the end of it.  The new population is made of the evaluated offspring and
    of the previous best; the hall of fame is updated with it; the stagnation counter is
    incremented when the bits of the best-ever individual are unchanged and reset
    otherwise. *)
Definition gen_step (ngen_no_change : option Z) (st st' : ea_state) (stop : bool) : Prop :=
  exists b,
    halloffame st = mkHof 1 [b]
    /\ halloffame st' = mkHof 1 [best_of b (population st')]
    /\ length (population st') = length (population st)
    /\ last (population st') = Some b
    /\ Forall (fun ind => valid (fitness ind) = true) (removelast (population st'))
    /\ wait st' = (if bool_decide (genes (best_of b (population st')) = genes b)
                   then wait st + 1 else 0)
    /\ stop = match ngen_no_change with
              | Some k => k <=? wait st'
              | None => false
              end.

(** The states [sts] reached at the end of the generations run from the state [st] with
    a budget of [remaining] generations. *)
Fixpoint trace_ok (ngen_no_change : option Z) (remaining : nat) (st : ea_state)
    (sts : list ea_state) : Prop :=
  match sts with
  | [] => remaining = O
  | st' :: rest =>
      exists r stop,
        remaining = S r
        /\ gen_step ngen_no_change st st' stop
        /\ if stop then rest = [] else trace_ok ngen_no_change r st' rest
  end.

(** A configuration on which [_fit] runs, for data with [n_features] columns. *)
Definition fit_ok (self : GeneticSelectionCV_mod) (n_features : nat) : Prop :=
  match max_features self with
  | Some mf => 1 <= mf <= Z.of_nat n_features
  | None => (1 <= n_features)%nat
  end
  /\ n_jobs self <> 0
  /\ hparams_ok (hparams self)
  /\ hparam_bits self = n_hparam_bits (hparams self)
  /\ 0 < n_population self
  /\ 0 < tournament_size self.

(** What a call of [_fit] may change in the store: it allocates two objects (the clone
    of the estimator that the evaluations of the run use, and [estimator_]), and it adds
    entries to the cache of the selector.  The estimator objects that exist before the
    call are left as they are, the other dictionaries too, and the entries of the cache
    are kept. *)
Definition fit_frame (self : GeneticSelectionCV_mod) (w w' : world) : Prop :=
  (forall l, (l < next_loc w)%nat -> ests w' !! l = ests w !! l)
  /\ (forall d, d <> scores_cache self -> dicts w' !! d = dicts w !! d)
  /\ (forall key v, (dicts w !!! scores_cache self) !! key = Some v ->
        (dicts w' !!! scores_cache self) !! key = Some v)
  /\ next_loc w' = (next_loc w + 2)%nat.

End Props.
Export Props.

(* ===================================================================== *)
(** ** Concrete configurations *)
(* ===================================================================== *)

Module Examples.

(** The value a computation returns from a state, if it does not raise. *)
Definition value {A} (m : M A) (w : world) : option A :=
  match m w with
  | inr (a, _) => Some a
  | inl _ => None
  end.

(** A tape of draws and a store holding one estimator object, at reference 0, without
    attributes. *)
Definition tape0 (i : nat) : N :=
  ((N.of_nat i * 2654435761 + 12345) * 6364136223846793005 / 65536 mod 2 ^ 32)%N.
Definition w0 : world := mkWorld {[ O := ∅ ]} ∅ 1 0 (mkRng tape0 0).

(** One fold whose score is a third of the number of selected features. *)
Definition mean (l : list Q) : Q :=
  Qred (fold_right Qplus 0%Q l / inject_Z (Z.of_nat (length l))).
Definition sk0 : scoring :=
  mkScoring (fun _ mask => [Qred (inject_Z (np_sum mask) / 3)]) mean (fun _ => 0%Q).

(** One fold whose score is the value of the attribute [C] of the estimator. *)
Definition sk_C : scoring :=
  mkScoring (fun params _ => [match params !! "C"%string with
                              | Some (PFloat q) => q
                              | _ => 0%Q
                              end]) mean (fun _ => 0%Q).

(** A selector without hyperparameters, with caching, on data with one feature. *)
Definition plain_selector (cache : nat) : GeneticSelectionCV_mod :=
  mkSelector 0 (Some 1) 1 2 (1 # 2) (1 # 5) 1 (1 # 10) (1 # 20) 2 None None O true cache.

(** A selector tuning [C] in [0, 3] on 2 bits, with caching and a stagnation limit. *)
Definition hp_C : hparams_t := mkHparams ["C"%string] 2 [(0, 3)%Q].
Definition C_selector (cache : nat) : GeneticSelectionCV_mod :=
  mkSelector 0 (Some 2) 1 3 (1 # 2) (1 # 5) 3 (1 # 10) (1 # 20) 2 (Some 2) (Some hp_C)
             2 true cache.

(** A selector tuning [max_depth] in [1, 10] on 4 bits. *)
Definition hp_depth : hparams_t := mkHparams ["max_depth"%string] 4 [(1, 10)%Q].
Definition depth_selector (cache : nat) : GeneticSelectionCV_mod :=
  mkSelector 0 (Some 1) 1 2 (1 # 2) (1 # 5) 1 (1 # 10) (1 # 20) 2 None (Some hp_depth)
             4 false cache.

(** Two fits in a row on one selector: the entries of its cache when the second fit
    starts, and the number of calls of [cross_val_score] before and after the second
    fit. *)
Definition two_fits : M (list (list bool * (Q * Q)) * nat * nat) :=
  let* self := __init__ 0 (Some 1) 1 2 (1 # 2) (1 # 5) 1 (1 # 10) (1 # 20) 2 None None true in
  let* f1 := fit sk0 self 1 in
  let* w1 := get_world in
  let* f2 := fit sk0 self 1 in
  let* w2 := get_world in
  ret (map_to_list (dicts w1 !!! scores_cache self), cv_calls w1, cv_calls w2).


(** The best chromosome [0001 1] with [max_depth] on 4 bits: the attribute assigned by
    its evaluation, and the value reported by the final decoding. *)
Definition depth_bits : list bool := [false; false; false; true; true].
Definition depth_evaluated : M (option pyval) :=
  let* fit := _evalFunction sk0 depth_bits 0 1 (Some hp_depth) false 1 in
  let* w := get_world in
  ret ((ests w !!! O) !! "max_depth"%string).
Definition depth_reported : M (list bool * option pyval) :=
  let* fin := final_attributes (depth_selector 1)
                (mkHof 1 [mkInd depth_bits (Some ((1 # 3)%Q, 1, 0%Q))]) in
  ret (fin.1, fin.2 !! "max_depth"%string).

(** A whole run with [max_depth] on 4 bits, on data with one feature: the mask and the
    hyperparameter values that [fit] reports. *)
Definition fit_depth : M (list bool * list (string * pyval)) :=
  let* self := __init__ 0 (Some 1) 1 4 (1 # 2) (1 # 5) 2 (1 # 10) (1 # 20) 2 None
                 (Some hp_depth) false in
  let* f := fit sk0 self 1 in
  ret (support_ f, map_to_list (best_params_ f)).

(** Three chromosomes of 2 hyperparameter bits and 1 feature bit. *)
Definition pop_C : list individual :=
  [Individual_new [true; true; true]; Individual_new [false; true; true];
   Individual_new [true; false; true]].

(** One fold whose score is 0.5 for at most one selected feature and 0.6 for more. *)
Definition sk_w : scoring :=
  mkScoring (fun _ mask => [if np_sum mask <=? 1 then 1 # 2 else 3 # 5]%Q) mean
            (fun _ => 0%Q).

(** A selector without hyperparameters nor caching, on data with four features, whose
    mutation is certain and negates every bit; and three copies of the chromosome
    selecting the first feature. *)
Definition flip_selector (cache : nat) : GeneticSelectionCV_mod :=
  mkSelector 0 (Some 4) 1 3 (1 # 2) 1 1 (1 # 10) 1 2 None None O false cache.
Definition pop_one : list individual :=
  [Individual_new [true; false; false; false]; Individual_new [true; false; false; false];
   Individual_new [true; false; false; false]].

(** One generation from [pop_one]: the bits and the fitness of the best-ever individual,
    and the weighted sum of this fitness, before the generation and after it. *)
Definition flip_run
  : M (list (option (list bool) * option (Q * Z * Q) * option Q)) :=
  let* tr := ea_trace pop_one (make_toolbox sk_w (flip_selector 1) 4 4 0)
               (crossover_proba (flip_selector 1)) (mutation_proba (flip_selector 1))
               (n_generations (flip_selector 1)) (n_gen_no_change (flip_selector 1))
               (Some (mkHof 1 [])) (hparams (flip_selector 1)) in
  ret (map (fun st => (best_genes st, best_fitness st,
                       spec_weighted_sum <$> best_fitness st)) tr).

(** The store that a first fit of [plain_selector 1] leaves: the cache of the selector,
    at reference 1, holds the scores of the mask [[1]]. *)
Definition w_cached : world :=
  mkWorld {[ O := ∅ ]} {[ 1%nat := {[ [true] := ((1 # 3)%Q, 0%Q) ]} ]} 2 1
          (mkRng tape0 0).

End Examples.
Export Examples.

(* ===================================================================== *)
(** ** Vocabulary of the invariants of a run *)
(* ===================================================================== *)

Module Invariants.

(** From a state satisfying [I], [m] does not raise, ends in a state satisfying [I] and
    returns a value satisfying [Q]. *)
Definition triple (I : world -> Prop) {A} (m : M A) (Q : A -> Prop) : Prop :=
  forall w, I w -> exists a w', m w = inr (a, w') /\ I w' /\ Q a.

(** The step from [w] to [w'] keeps [I]. *)
Definition keeps (I : world -> Prop) (w w' : world) : Prop := I w -> I w'.

(** When [m] returns from a state satisfying [I], the state it ends in satisfies [I] and
    the value satisfies [Q]. *)
Definition post (I : world -> Prop) {A} (m : M A) (Q : A -> Prop) : Prop :=
  forall w a w', I w -> m w = inr (a, w') -> I w' /\ Q a.

(** A feature mask that line 158 lets through. *)
Definition feasible (max_features : Z) (feats : list bool) : Prop :=
  np_sum feats <> 0 /\ np_sum feats <= max_features.

(** After a variation, an individual with a fitness is one of the individuals that were
    given to it. *)
Definition kept (input output : list individual) : Prop :=
  Forall (fun b => fitness b = None \/ b ∈ input) output.

(** Every individual of the population and of the hall of fame satisfies [J]. *)
Definition state_inv (J : individual -> Prop) (st : ea_state) : Prop :=
  Forall J (population st) /\ Forall J (items (halloffame st)).

(** The number of individuals whose fitness is not valid. *)
Definition invalid_count (pop : list individual) : nat :=
  length (filter (fun ind => valid (fitness ind) = false) pop).

(** The record that generation [gen] appends to the logbook: the number of evaluations
    is at most the number of offspring, and is that number when hyperparameters are
    configured. *)
Definition gen_log (hparams : option hparams_t) (gen : nat) (st st' : ea_state) : Prop :=
  exists n,
    logbook st' = logbook st ++ [(gen, n)]
    /\ (n <= length (population st) - 1)%nat
    /\ (is_Some hparams -> n = (length (population st) - 1)%nat).

Fixpoint trace_log (hparams : option hparams_t) (gen : nat) (st : ea_state)
    (sts : list ea_state) : Prop :=
  match sts with
  | [] => True
  | st' :: rest => gen_log hparams gen st st' /\ trace_log hparams (S gen) st' rest
  end.

(** The state before generation 1: the population is the evaluated initial population,
    the hall of fame holds the best of it, the logbook has the record of generation 0. *)
Definition init_state (pop : list individual) (s0 : ea_state) : Prop :=
  evaluated pop (population s0)
  /\ wait s0 = 0
  /\ logbook s0 = [(O, invalid_count pop)]
  /\ exists first rest,
       population s0 = first :: rest /\ halloffame s0 = mkHof 1 [best_of first rest].

(** The individuals of the population are evaluated and the best-ever individual is one
    of them. *)
Definition elitist (st : ea_state) : Prop :=
  Forall (fun ind => valid (fitness ind) = true) (population st)
  /\ exists b, halloffame st = mkHof 1 [b] /\ b ∈ population st.

(** The logbook at the end of generation [g], for a population of [n] individuals of
    which [c0] were evaluated at the start: the record of generation 0, then one record
    per generation, numbered from 1, whose number of evaluations is at most [n - 1], and
    is [n - 1] when hyperparameters are configured. *)
Definition log_ok (hparams : option hparams_t) (n c0 g : nat) (st : ea_state) : Prop :=
  exists later,
    logbook st = (O, c0) :: later
    /\ map fst later = seq 1 g
    /\ Forall (fun rec => (rec.2 <= n - 1)%nat
                          /\ (is_Some hparams -> rec.2 = (n - 1)%nat)) later.


(** A run of [_fit] that returns [f]: the bound [mf] on the number of features, the
    initial population, the states of the loop, whose individuals satisfy [J], and the
    best-ever individual [b] of the last state, from which the attributes are read. *)
Definition fit_run (self : GeneticSelectionCV_mod) (n_features : nat)
    (J : individual -> Prop) (f : fitted) (mf : Z) (pop : list individual)
    (s0 : ea_state) (sts : list ea_state) (b : individual) : Prop :=
  mf = default (Z.of_nat n_features) (max_features self)
  /\ length pop = Z.to_nat (n_population self)
  /\ Forall (fresh_chromosome (Z.of_nat n_features) mf (hparams self)) pop
  /\ init_state pop s0
  /\ trace_ok (n_gen_no_change self) (Z.to_nat (n_generations self)) s0 sts
  /\ Forall (state_inv J) (s0 :: sts)
  /\ (exists st, last (s0 :: sts) = Some st /\ halloffame st = mkHof 1 [b])
  /\ length (genes b) = (n_hparam_bits (hparams self) + n_features)%nat
  /\ support_ f = feature_segment (hparams self) (genes b)
  /\ n_features_ f = np_sum (support_ f)
  /\ exists wf, final_attributes self (mkHof 1 [b]) wf
                = inr ((support_ f, best_params_ f), wf).

(** When [m] returns, it has made at most [n] calls of [cross_val_score]. *)
Definition calls_le {A} (m : M A) (n : nat) : Prop :=
  forall w a w', m w = inr (a, w') -> (cv_calls w' <= cv_calls w + n)%nat.

(** The two worlds have the same count of calls of [cross_val_score]. *)
Definition same_calls (w w' : world) : Prop := cv_calls w' = cv_calls w.

(** The names of the configured hyperparameters. *)
Definition hparam_names (hparams : option hparams_t) : list string :=
  match hparams with
  | Some hp => names hp
  | None => []
  end.

(** Two attribute dictionaries that agree on every attribute that is not a configured
    hyperparameter. *)
Definition agree_outside (hnames : list string) (a1 a2 : gmap string pyval) : Prop :=
  forall k, k ∉ hnames -> a1 !! k = a2 !! k.

(** The fitness of a chromosome computed from its bits alone, for an estimator whose
    other attributes are [attrs]: the sentinel for an infeasible feature mask, and
    otherwise the mean and the dispersion of the scores of the mask with the
    hyperparameter values of the chromosome. *)
Definition pure_fitness (sk : scoring) (attrs : gmap string pyval) (max_features : Z)
    (hparams : option hparams_t) (chromosome : list bool) : Q * Z * Q :=
  let feats := feature_segment hparams chromosome in
  let count := np_sum feats in
  if (count =? 0) || (max_features <? count) then sentinel count
  else
    let scores := cv_scores sk (assigned_attrs hparams chromosome attrs) feats in
    (np_mean sk scores, count, np_std sk scores).

(** The store of a run whose fitness values are pure: the estimator of the run has the
    attributes [attrs] but for the hyperparameters, and with caching every entry of the
    cache is the mean and the dispersion of the scores of its key. *)
Definition pure_store (sk : scoring) (attrs : gmap string pyval)
    (hparams : option hparams_t) (caching : bool) (est c : nat) (w : world) : Prop :=
  agree_outside (hparam_names hparams) (ests w !!! est) attrs
  /\ (caching = true ->
      forall key v, (dicts w !!! c) !! key = Some v ->
        v = (np_mean sk (cv_scores sk attrs key), np_std sk (cv_scores sk attrs key))).

(** An individual whose fitness, when it has one, is the pure fitness of its bits. *)
Definition pure_individual (sk : scoring) (attrs : gmap string pyval) (max_features : Z)
    (hparams : option hparams_t) (ind : individual) : Prop :=
  forall f, fitness ind = Some f ->
    f = pure_fitness sk attrs max_features hparams (genes ind).

(** A scorer whose mean is always above the score of the sentinel. *)
Definition scores_above_sentinel (sk : scoring) : Prop :=
  forall attrs mask, (inject_Z (-10000) < np_mean sk (cv_scores sk attrs mask))%Q.

(** A cache whose means are above the score of the sentinel. *)
Definition cache_above_sentinel (c : nat) (w : world) : Prop :=
  forall key v, (dicts w !!! c) !! key = Some v -> (inject_Z (-10000) < v.1)%Q.

(** An individual whose fitness, when it has one, counts its selected features, has the
    score of the sentinel when its mask is infeasible and a greater one otherwise. *)
Definition sound_individual (max_features : Z) (hparams : option hparams_t)
    (ind : individual) : Prop :=
  forall m cnt s, fitness ind = Some (m, cnt, s) ->
    cnt = np_sum (feature_segment hparams (genes ind))
    /\ (feasible max_features (feature_segment hparams (genes ind)) ->
        (inject_Z (-10000) < m)%Q)
    /\ (~ feasible max_features (feature_segment hparams (genes ind)) ->
        m = inject_Z (-10000)).

(** Whether the evaluation of a chromosome calls [cross_val_score]: its mask passes the
    test of line 158 and, with caching, is not a key of the cache. *)
Definition needs_scoring (max_features : Z) (hparams : option hparams_t) (caching : bool)
    (c : nat) (w : world) (individual : list bool) : bool :=
  let feats := feature_segment hparams individual in
  negb ((np_sum feats =? 0) || (max_features <? np_sum feats))
  && (negb caching || bool_decide ((dicts w !!! c) !! feats = None)).

End Invariants.
Export Invariants.

(* ===================================================================== *)
(** ** Reasoning about computations *)
(* ===================================================================== *)

Section Totality.

Lemma bind_inr {A B} (m : M A) (k : A -> M B) w b w2 :
  bind m k w = inr (b, w2) <-> exists a w1, m w = inr (a, w1) /\ k a w1 = inr (b, w2).
Proof.
  unfold bind. destruct (m w) as [e | [a w1]]; split.
  - discriminate.
  - intros (a & w1 & H & _). discriminate.
  - intros H. eauto.
  - intros (a' & w1' & H & Hk). congruence.
Qed.

Lemma bind_eq {A B} (m : M A) (k : A -> M B) w a w1 :
  m w = inr (a, w1) -> bind m k w = k a w1.
Proof. unfold bind. intros ->. reflexivity. Qed.

Context (R : world -> world -> Prop) `{!PreOrder R}.

Lemma total_ret {A} (a : A) (Q : A -> Prop) : Q a -> total R (ret a) Q.
Proof. intros HQ w. exists a, w. split; [reflexivity | split; [reflexivity | exact HQ]]. Qed.

Lemma total_bind {A B} (m : M A) (k : A -> M B) (P : A -> Prop) (Q : B -> Prop) :
  total R m P -> (forall a, P a -> total R (k a) Q) -> total R (bind m k) Q.
Proof.
  intros Hm Hk w.
  destruct (Hm w) as (a & w1 & E1 & R1 & Pa).
  destruct (Hk a Pa w1) as (b & w2 & E2 & R2 & Qb).
  exists b, w2. rewrite (bind_eq _ _ _ _ _ E1).
  split; [exact E2 | split; [ etransitivity; eassumption | exact Qb]].
Qed.

Lemma total_weaken {A} (m : M A) (P Q : A -> Prop) :
  total R m P -> (forall a, P a -> Q a) -> total R m Q.
Proof.
  intros Hm HPQ w. destruct (Hm w) as (a & w1 & E & Rw & Pa). eauto 6.
Qed.

(** The random tape may be read. *)
Hypothesis R_same_store : forall w w', same_store w w' -> R w w'.

Lemma total_draw : total R draw (fun _ => True).
Proof.
  intros w. eexists _, _. split; [reflexivity |]. split; [| exact I].
  apply R_same_store. repeat split.
Qed.

Lemma total_random_random : total R random_random (fun _ => True).
Proof.
  unfold random_random. eapply total_bind; [apply total_draw |].
  intros r _. by apply total_ret.
Qed.

Lemma total_randint low high :
  low < high -> total R (randint low high) (fun r => low <= r < high).
Proof.
  intros Hlt. unfold randint.
  destruct (Z.leb_spec high low) as [Hle | _]; [lia |].
  eapply total_bind; [apply total_draw |].
  intros r _. apply total_ret.
  pose proof (Z.mod_pos_bound (Z.of_N r) (high - low)). lia.
Qed.

Lemma total_random_choice {A} (seq : list A) (P : A -> Prop) :
  seq <> [] -> Forall P seq -> total R (random_choice seq) P.
Proof.
  intros Hne HP. unfold random_choice.
  destruct seq as [| x seq']; [done |].
  set (s := x :: seq') in *.
  eapply total_bind; [apply total_draw |].
  intros r _.
  assert (Hlt : (N.to_nat (r mod N.of_nat (length s)) < length s)%nat).
  { assert (N.of_nat (length s) <> 0%N) by (subst s; simpl; lia).
    pose proof (N.mod_lt r (N.of_nat (length s)) H). lia. }
  destruct (lookup_lt_is_Some_2 s _ Hlt) as [y Hy]. rewrite Hy.
  apply total_ret. rewrite Forall_forall in HP. apply HP.
  eapply list_elem_of_lookup_2. exact Hy.
Qed.

(** *** The population initializer *)

Lemma np_sum_app l1 l2 : np_sum (l1 ++ l2) = np_sum l1 + np_sum l2.
Proof. induction l1 as [| b l1 IH]; simpl; [reflexivity | rewrite IH; lia]. Qed.

Lemma np_sum_ones n : np_sum (replicate n true) = Z.of_nat n.
Proof. induction n as [| n IH]; simpl replicate; simpl np_sum; [reflexivity | lia]. Qed.

Lemma np_sum_zeros n : np_sum (replicate n false) = 0.
Proof. induction n as [| n IH]; simpl; [reflexivity | exact IH]. Qed.

Lemma np_sum_insert (l : list bool) i a b :
  l !! i = Some a -> np_sum (<[i := b]> l) = np_sum l - bit a + bit b.
Proof.
  revert i. induction l as [| x l IH]; intros [| i] H; simpl in *; try discriminate.
  - injection H as ->. unfold bit. lia.
  - rewrite (IH i H). lia.
Qed.

Lemma swap_length {A} (l : list A) i j : length (swap l i j) = length l.
Proof.
  unfold swap. destruct (l !! i), (l !! j); try reflexivity.
  by rewrite !length_insert.
Qed.

Lemma swap_np_sum (l : list bool) i j : np_sum (swap l i j) = np_sum l.
Proof.
  unfold swap.
  destruct (l !! i) as [a |] eqn:Hi; [| reflexivity].
  destruct (l !! j) as [b |] eqn:Hj; [| reflexivity].
  assert (Hi' : <[j := a]> l !! i = Some a).
  { destruct (decide (j = i)) as [-> | Hne].
    - apply list_lookup_insert_eq. eapply lookup_lt_Some; eassumption.
    - rewrite list_lookup_insert_ne; assumption. }
  rewrite (np_sum_insert _ _ _ _ Hi'), (np_sum_insert _ _ _ _ Hj). lia.
Qed.

Lemma total_shuffle_from i (x : list bool) :
  total R (shuffle_from i x) (fun y => length y = length x /\ np_sum y = np_sum x).
Proof.
  revert x. induction i as [| i IH]; intros x; simpl.
  - by apply total_ret.
  - eapply total_bind; [apply total_draw |].
    intros r _. eapply total_weaken; [apply IH |].
    intros y [Hl Hs]. rewrite swap_length in Hl. rewrite swap_np_sum in Hs. done.
Qed.

Lemma total_shuffle (x : list bool) :
  total R (shuffle x) (fun y => length y = length x /\ np_sum y = np_sum x).
Proof. apply total_shuffle_from. Qed.

Lemma total_createIndividual n max_features hparams :
  1 <= max_features <= n ->
  total R (_createIndividual n max_features hparams (Z.of_nat (n_hparam_bits hparams)))
        (fresh_chromosome n max_features hparams).
Proof.
  intros Hmf. unfold _createIndividual.
  eapply total_bind; [apply total_randint; lia |].
  intros k Hk. cbv beta in Hk.
  eapply total_bind; [apply total_shuffle |].
  intros f [Hlen Hsum].
  rewrite length_app, !length_replicate in Hlen.
  rewrite np_sum_app, np_sum_ones, np_sum_zeros in Hsum.
  unfold fresh_chromosome, feature_segment.
  destruct hparams as [hp |].
  - set (hb := n_hparam_bits (Some hp)).
    eapply total_bind; [apply total_randint; lia |].
    intros m Hm. cbv beta in Hm.
    eapply total_bind; [apply total_shuffle |].
    intros h [Hhl _].
    rewrite length_app, !length_replicate in Hhl.
    apply total_ret. cbn [genes fitness Individual_new].
    assert (Hh : hb = length h) by lia.
    rewrite drop_app_length'; [| exact Hh].
    rewrite length_app. repeat split; lia.
  - apply total_ret. cbn [genes fitness Individual_new n_hparam_bits].
    rewrite drop_0. repeat split; lia.
Qed.

Lemma total_initRepeat (func : M individual) (P : individual -> Prop) k :
  total R func P ->
  total R (initRepeat func k) (fun pop => length pop = k /\ Forall P pop).
Proof.
  intros Hf. induction k as [| k IH]; simpl.
  - apply total_ret. split; [reflexivity | constructor].
  - eapply total_bind; [exact Hf |]. intros x Px.
    eapply total_bind; [exact IH |]. intros xs [Hl Hxs].
    apply total_ret. split; [simpl; congruence | by constructor].
Qed.


(** *** The DEAP operators *)

Lemma total_selRandom (individuals : list individual) (P : individual -> Prop) k :
  individuals <> [] -> Forall P individuals ->
  total R (selRandom individuals k) (fun l => length l = k /\ Forall P l).
Proof.
  intros Hne HP. induction k as [| k IH]; simpl.
  - apply total_ret. split; [reflexivity | constructor].
  - eapply total_bind; [by apply total_random_choice |]. intros c Pc.
    eapply total_bind; [exact IH |]. intros cs [Hl Hcs].
    apply total_ret. split; [simpl; congruence | by constructor].
Qed.

Lemma fold_left_pick {A} (better : A -> A -> bool) (P : A -> Prop) l a :
  P a -> Forall P l ->
  P (fold_left (fun best x => if better x best then x else best) l a).
Proof.
  revert a. induction l as [| x l IH]; intros a Pa Hl; simpl; [exact Pa |].
  inversion Hl; subst. apply IH; [| assumption]. by destruct (better x a).
Qed.

Lemma total_max_by_fitness (aspirants : list individual) (P : individual -> Prop) :
  aspirants <> [] -> Forall P aspirants -> total R (max_by_fitness aspirants) P.
Proof.
  intros Hne HP. destruct aspirants as [| a rest]; [done |].
  inversion HP; subst. apply total_ret. by apply fold_left_pick.
Qed.

Lemma total_selTournament (individuals : list individual) (P : individual -> Prop)
    k tournsize :
  (0 < tournsize)%nat -> individuals <> [] -> Forall P individuals ->
  total R (selTournament individuals k tournsize) (fun l => length l = k /\ Forall P l).
Proof.
  intros Hts Hne HP. induction k as [| k IH]; simpl.
  - apply total_ret. split; [reflexivity | constructor].
  - eapply total_bind; [by apply total_selRandom |]. intros asp [Hl Hasp].
    eapply total_bind.
    { apply total_max_by_fitness; [| exact Hasp].
      intros ->. simpl in Hl. lia. }
    intros best Pbest.
    eapply total_bind; [exact IH |]. intros chosen [Hc HPc].
    apply total_ret. split; [simpl; congruence | by constructor].
Qed.

Lemma total_cxUniform_bits l1 l2 indpb :
  total R (cxUniform_bits l1 l2 indpb)
        (fun p => length p.1 = length l1 /\ length p.2 = length l2).
Proof.
  revert l2. induction l1 as [| a l1 IH]; intros [| b l2]; simpl;
    try (by apply total_ret).
  eapply total_bind; [apply total_random_random |]. intros r _.
  eapply total_bind; [apply IH |]. intros p [H1 H2].
  apply total_ret. destruct (Qltb r indpb); simpl; by rewrite H1, H2.
Qed.

Lemma total_cxUniform indpb ind1 ind2 :
  total R (cxUniform indpb ind1 ind2)
        (fun p => length (genes p.1) = length (genes ind1)
                  /\ length (genes p.2) = length (genes ind2)).
Proof.
  unfold cxUniform. eapply total_bind; [apply total_cxUniform_bits |].
  intros p Hp. by apply total_ret.
Qed.

Lemma total_mutFlipBit_bits l indpb :
  total R (mutFlipBit_bits l indpb) (fun l' => length l' = length l).
Proof.
  induction l as [| b l IH]; simpl; [by apply total_ret |].
  eapply total_bind; [apply total_random_random |]. intros r _.
  eapply total_bind; [apply IH |]. intros rest Hl.
  apply total_ret. simpl. by rewrite Hl.
Qed.

Lemma total_mutFlipBit indpb ind :
  total R (mutFlipBit indpb ind) (fun ind' => length (genes ind') = length (genes ind)).
Proof.
  unfold mutFlipBit. eapply total_bind; [apply total_mutFlipBit_bits |].
  intros g Hg. by apply total_ret.
Qed.

Section VarAnd.

Context (toolbox : Toolbox).
Hypothesis Hmate : mate_ok R toolbox.
Hypothesis Hmutate : mutate_ok R toolbox.

Lemma total_varAnd_mate cxpb (n : nat) : forall offspring,
  (length offspring <= n)%nat ->
  total R (varAnd_mate toolbox cxpb offspring) (same_shape offspring).
Proof.
  induction n as [| n IH]; intros offspring Hn.
  - destruct offspring; [| simpl in Hn; lia]. apply total_ret. constructor.
  - destruct offspring as [| a [| b rest]]; simpl.
    + apply total_ret. constructor.
    + apply total_ret. by repeat constructor.
    + simpl in Hn.
      eapply total_bind; [apply total_random_random |]. intros r _.
      destruct (Qltb r cxpb).
      * eapply total_bind; [apply Hmate |]. intros ab [Ha Hb].
        eapply total_bind; [apply IH; lia |]. intros rest' Hrest.
        apply total_ret. by repeat constructor.
      * eapply total_bind; [apply IH; lia |]. intros rest' Hrest.
        apply total_ret. by repeat constructor.
Qed.

Lemma total_varAnd_mutate mutpb offspring :
  total R (varAnd_mutate toolbox mutpb offspring) (same_shape offspring).
Proof.
  induction offspring as [| a rest IH]; simpl.
  - apply total_ret. constructor.
  - eapply total_bind; [apply total_random_random |]. intros r _.
    destruct (Qltb r mutpb).
    + eapply total_bind; [apply Hmutate |]. intros a' Ha.
      eapply total_bind; [apply IH |]. intros rest' Hrest.
      apply total_ret. by constructor.
    + eapply total_bind; [apply IH |]. intros rest' Hrest.
      apply total_ret. by constructor.
Qed.

Lemma same_shape_trans l1 l2 l3 : same_shape l1 l2 -> same_shape l2 l3 -> same_shape l1 l3.
Proof.
  unfold same_shape. intros H12. revert l3.
  induction H12 as [| a b l1 l2 Hab _ IH]; intros l3 H23; inversion H23; subst.
  - constructor.
  - constructor; [congruence | by apply IH].
Qed.

Lemma total_varAnd population cxpb mutpb :
  total R (varAnd population toolbox cxpb mutpb) (same_shape population).
Proof.
  unfold varAnd.
  eapply total_bind; [by apply (total_varAnd_mate cxpb (length population)) |].
  intros off H1. eapply total_weaken; [apply total_varAnd_mutate |].
  intros off' H2. by eapply same_shape_trans.
Qed.

End VarAnd.


(** [round_half_even] returns a nearest integer, and the even one of the two when the
    value is half-way. *)
Lemma round_half_even_nearest p :
  (Qabs (p - inject_Z (round_half_even p)) <= 1 # 2)%Q
  /\ ((Qabs (p - inject_Z (round_half_even p)) == 1 # 2)%Q ->
      Z.even (round_half_even p) = true).
Proof.
  pose proof (Qfloor_le p) as Hlo. pose proof (Qlt_floor p) as Hhi.
  rewrite inject_Z_plus in Hhi. change (inject_Z 1) with 1%Q in Hhi.
  unfold round_half_even.
  destruct (p - inject_Z (Qfloor p) ?= 1 # 2)%Q eqn:E.
  - apply Qeq_alt in E. destruct (Z.even (Qfloor p)) eqn:Ev.
    + split; [| intros _; exact Ev]. apply Qabs_Qle_condition. split; lra.
    + split.
      * rewrite inject_Z_plus; change (inject_Z 1) with 1%Q.
        apply Qabs_Qle_condition. split; lra.
      * intros _. rewrite Z.even_add, Ev. reflexivity.
  - apply Qlt_alt in E. split.
    + apply Qabs_Qle_condition. split; lra.
    + intros H. rewrite Qabs_pos in H by lra. lra.
  - apply Qgt_alt in E. rewrite inject_Z_plus; change (inject_Z 1) with 1%Q. split.
    + apply Qabs_Qle_condition. split; lra.
    + intros H. rewrite Qabs_neg in H by lra. lra.
Qed.

(** *** The evaluation *)

Lemma int_base2_nonempty (bin_str : list bool) w :
  bin_str <> [] -> int_base2 bin_str w = inr (bits_value bin_str, w).
Proof. destruct bin_str; [done | reflexivity]. Qed.

Lemma slice_nonempty {A} (l : list A) i n :
  (0 < n)%nat -> (i < length l)%nat -> slice l i (i + n) <> [].
Proof.
  intros Hn Hi Hnil. apply (f_equal length) in Hnil.
  unfold slice in Hnil. rewrite length_take, length_drop in Hnil. simpl in Hnil. lia.
Qed.

Lemma phenotype_defined p_min p_max dec_val n_pbits w :
  (0 < n_pbits)%nat ->
  phenotype p_min p_max dec_val n_pbits w
  = inr (phenotype_value p_min p_max dec_val n_pbits, w).
Proof.
  intros Hn. unfold phenotype, fdiv.
  destruct (Qeq_bool (inject_Z (2 ^ Z.of_nat n_pbits - 1)) 0) eqn:E.
  - apply Qeq_bool_iff in E. unfold Qeq in E. simpl in E.
    assert (2 ^ 1 <= 2 ^ Z.of_nat n_pbits) by (apply Z.pow_le_mono_r; lia).
    change (2 ^ 1) with 2 in H. lia.
  - reflexivity.
Qed.

Lemma hparams_frame_trans est a1 a2 w w1 w2 :
  hparams_frame est a1 w w1 -> hparams_frame est a2 w1 w2 -> hparams_frame est a2 w w2.
Proof.
  intros (D1 & C1 & G1 & N1 & E1 & _) (D2 & C2 & G2 & N2 & E2 & A2).
  repeat split; try congruence.
  intros l Hl. rewrite (E2 l Hl). by apply E1.
Qed.

Lemma eval_hparams_spec hp est individual hnames : forall j i w,
  (0 < bitwidth hp)%nat ->
  (j + length hnames <= length (range hp))%nat ->
  (i + length hnames * bitwidth hp <= length individual)%nat ->
  exists w',
    eval_hparams hp est individual j i hnames w
    = inr ((i + length hnames * bitwidth hp)%nat, w')
    /\ hparams_frame est (assign_hparams hp individual j i hnames (ests w !!! est)) w w'.
Proof.
  induction hnames as [| hparam rest IH]; intros j i w Hbw Hr Hlen.
  - exists w. simpl. rewrite Nat.add_0_r. split; [reflexivity |].
    by repeat split.
  - simpl in Hr, Hlen. cbn [eval_hparams assign_hparams].
    assert (Hs : slice individual i (i + bitwidth hp) <> [])
      by (apply slice_nonempty; lia).
    rewrite (bind_eq _ _ _ _ _ (int_base2_nonempty _ w Hs)).
    assert (Hj : (j < length (range hp))%nat) by lia.
    destruct (lookup_lt_is_Some_2 (range hp) j Hj) as [pr Hpr].
    assert (Hra : range_at hp j w = inr (pr, w)) by (unfold range_at; by rewrite Hpr).
    rewrite (bind_eq _ _ _ _ _ Hra).
    rewrite (bind_eq _ _ _ _ _ (phenotype_defined _ _ _ _ w Hbw)).
    rewrite Hpr. cbn [default].
    set (p := phenotype_value _ _ _ _).
    fold (assigned_value hparam p).
    set (w1 := mkWorld (<[est := <[hparam := assigned_value hparam p]> (ests w !!! est)]>
                          (ests w)) (dicts w) (next_loc w) (cv_calls w) (rand w)).
    assert (Hset : setattr est hparam (assigned_value hparam p) w = inr (tt, w1))
      by reflexivity.
    rewrite (bind_eq _ _ _ _ _ Hset).
    assert (Hr' : (S j + length rest <= length (range hp))%nat) by lia.
    assert (Hlen' : (i + bitwidth hp + length rest * bitwidth hp <= length individual)%nat)
      by lia.
    destruct (IH (S j) (i + bitwidth hp)%nat w1 Hbw Hr' Hlen') as (w' & E & F).
    exists w'. split.
    + rewrite E. do 2 f_equal. simpl. lia.
    + assert (A1 : ests w1 !!! est = <[hparam := assigned_value hparam p]> (ests w !!! est))
        by (subst w1; cbn [ests]; apply lookup_total_insert_eq).
      rewrite A1 in F.
      eapply hparams_frame_trans; [| exact F].
      subst w1. repeat split; cbn [ests dicts cv_calls rand next_loc].
      intros l Hl. by rewrite lookup_insert_ne.
Qed.

(** The evaluation of a chromosome is the evaluation of its feature segment, in the store
    where the estimator carries the hyperparameter values of the chromosome. *)
Lemma evalFunction_strip sk individual est max_features hparams caching c w :
  hparams_ok hparams -> chromosome_ok hparams individual ->
  exists w1,
    hparams_frame est (assigned_attrs hparams individual (ests w !!! est)) w w1
    /\ _evalFunction sk individual est max_features hparams caching c w
       = _evalFunction sk (feature_segment hparams individual) est max_features None
           caching c w1.
Proof.
  intros Hok Hch. destruct hparams as [hp |].
  - destruct Hok as [Hbw Hr]. unfold chromosome_ok in Hch. cbn [n_hparam_bits] in Hch.
    destruct (eval_hparams_spec hp est individual (names hp) 0 0 w Hbw Hr Hch)
      as (w1 & E & F).
    exists w1. split; [exact F |].
    unfold _evalFunction at 1.
    rewrite (bind_eq _ _ _ _ _ (bind_eq _ _ _ _ _ E)).
    reflexivity.
  - exists w. split; [by repeat split |].
    unfold feature_segment. cbn [n_hparam_bits]. by rewrite drop_0.
Qed.

(** Line 159: the infeasible chromosome. *)
Lemma evalFunction_infeasible sk feats est max_features caching c w :
  np_sum feats = 0 \/ max_features < np_sum feats ->
  _evalFunction sk feats est max_features None caching c w
  = inr (sentinel (np_sum feats), w).
Proof.
  intros H. unfold _evalFunction, sentinel.
  rewrite (bind_eq _ _ _ _ _ (eq_refl : ret feats w = inr (feats, w))).
  destruct (Z.eqb_spec (np_sum feats) 0), (Z.ltb_spec max_features (np_sum feats));
    simpl; try reflexivity. lia.
Qed.

(** Lines 161-162: the feasible chromosome whose features are a key of the cache. *)
Lemma evalFunction_hit sk feats est max_features c w cached :
  np_sum feats <> 0 -> np_sum feats <= max_features ->
  (dicts w !!! c) !! feats = Some cached ->
  _evalFunction sk feats est max_features None true c w
  = inr ((cached.1, np_sum feats, cached.2), w).
Proof.
  intros H0 Hmf Hc. unfold _evalFunction.
  rewrite (bind_eq _ _ _ _ _ (eq_refl : ret feats w = inr (feats, w))).
  destruct (Z.eqb_spec (np_sum feats) 0), (Z.ltb_spec max_features (np_sum feats));
    simpl; try lia.
  assert (Hg : dict_get c feats w = inr (Some cached, w))
    by (unfold dict_get; by rewrite Hc).
  by rewrite (bind_eq _ _ _ _ _ Hg).
Qed.

(** Lines 163-170: the feasible chromosome that is scored. *)
Lemma evalFunction_miss sk feats est max_features caching c w :
  np_sum feats <> 0 -> np_sum feats <= max_features ->
  (caching = true -> (dicts w !!! c) !! feats = None) ->
  let scores := cv_scores sk (ests w !!! est) feats in
  _evalFunction sk feats est max_features None caching c w
  = inr ((np_mean sk scores, np_sum feats, np_std sk scores),
         scored_world caching c feats (np_mean sk scores, np_std sk scores) w).
Proof.
  intros H0 Hmf Hc scores. unfold _evalFunction.
  rewrite (bind_eq _ _ _ _ _ (eq_refl : ret feats w = inr (feats, w))).
  destruct (Z.eqb_spec (np_sum feats) 0), (Z.ltb_spec max_features (np_sum feats));
    simpl; try lia.
  destruct caching.
  - assert (Hg : dict_get c feats w = inr (None, w))
      by (unfold dict_get; by rewrite Hc).
    rewrite (bind_eq _ _ _ _ _ Hg). reflexivity.
  - reflexivity.
Qed.


(** *** The order on fitness values *)

Lemma tuple_le_refl a : tuple_le a a = true.
Proof. induction a as [| x a IH]; simpl; [reflexivity |]. by rewrite Qeq_bool_refl. Qed.

Lemma Qeq_bool_comm x y : Qeq_bool x y = Qeq_bool y x.
Proof.
  destruct (Qeq_bool x y) eqn:E1, (Qeq_bool y x) eqn:E2; try reflexivity.
  - apply Qeq_bool_sym in E1. congruence.
  - apply Qeq_bool_sym in E2. congruence.
Qed.

Lemma tuple_le_total a b : tuple_le a b = false -> tuple_le b a = true.
Proof.
  revert b. induction a as [| x a IH]; intros [| y b]; simpl; try done.
  rewrite (Qeq_bool_comm y x). destruct (Qeq_bool x y) eqn:E; [apply IH |].
  intros Hle. apply Qle_bool_iff.
  destruct (Qle_bool x y) eqn:E'; [discriminate |].
  destruct (Qlt_le_dec y x) as [Hlt | Hge]; [by apply Qlt_le_weak |].
  apply Qle_bool_iff in Hge. congruence.
Qed.

Lemma tuple_le_trans a b c :
  tuple_le a b = true -> tuple_le b c = true -> tuple_le a c = true.
Proof.
  revert b c. induction a as [| x a IH]; intros [| y b] [| z c]; simpl; try done.
  destruct (Qeq_bool x y) eqn:Exy, (Qeq_bool y z) eqn:Eyz, (Qeq_bool x z) eqn:Exz;
    intros H1 H2;
    repeat match goal with
           | H : Qeq_bool _ _ = true |- _ => apply Qeq_bool_iff in H
           | H : Qeq_bool _ _ = false |- _ => apply Qeq_bool_neq in H
           | H : Qle_bool _ _ = true |- _ => apply Qle_bool_iff in H
           end;
    try (by eapply IH);
    try (apply Qle_bool_iff).
  - exfalso. apply Exz. by rewrite Exy.
  - exfalso. apply Eyz. by rewrite <- Exy.
  - by rewrite Exy.
  - exfalso. apply Exy. by rewrite Exz.
  - by rewrite <- Eyz.
  - exfalso. apply Exy. apply Qle_antisym; [assumption |]. by rewrite Exz.
  - by eapply Qle_trans.
Qed.

Lemma fitness_gt_le f g : fitness_gt f g = true -> fitness_le g f = true.
Proof.
  unfold fitness_gt, fitness_le. intros H. apply tuple_le_total.
  by destruct (tuple_le (wvalues f) (wvalues g)).
Qed.

(** The order is lexicographic on the weighted values, not the order of their sum: a
    better score wins whatever the number of features. *)
Example fitness_order_lexicographic :
  fitness_gt (Some ((6 # 10)%Q, 10, 0%Q)) (Some ((5 # 10)%Q, 1, 0%Q)) = true.
Proof. vm_compute. reflexivity. Qed.

Lemma valid_Some fit : valid (Some fit) = true.
Proof. destruct fit as [[m c] s]. reflexivity. Qed.

(** *** The hall of fame of size 1 *)

Lemma similar_refl a : similar a a = true.
Proof. unfold similar. by apply bool_decide_eq_true. Qed.

Lemma improves_self a : improves a a = false.
Proof. unfold improves. rewrite similar_refl. apply andb_false_r. Qed.

Lemma hof_update_ind_one b ind :
  hof_update_ind (mkHof 1 [b]) ind = ret (mkHof 1 [if improves ind b then ind else b]).
Proof.
  unfold hof_update_ind, improves. cbn.
  destruct (fitness_gt (fitness ind) (fitness b)); cbn; [| reflexivity].
  rewrite orb_false_r. by destruct (similar ind b).
Qed.

Lemma foldM_hof_one population : forall b,
  foldM hof_update_ind (mkHof 1 [b]) population = ret (mkHof 1 [best_of b population]).
Proof.
  induction population as [| ind rest IH]; intros b; [reflexivity |].
  cbn [foldM]. rewrite hof_update_ind_one. unfold best_of. cbn [fold_left].
  exact (IH _).
Qed.

(** Updating a hall of fame of size 1 that holds [b]. *)
Lemma hof_update_one b population :
  hof_update (mkHof 1 [b]) population = ret (mkHof 1 [best_of b population]).
Proof.
  change (hof_update (mkHof 1 [b]) population)
    with (foldM hof_update_ind (mkHof 1 [b]) population).
  apply foldM_hof_one.
Qed.

(** Updating an empty hall of fame of size 1 with a non-empty population. *)
Lemma hof_update_empty first rest :
  hof_update (mkHof 1 []) (first :: rest) = ret (mkHof 1 [best_of first rest]).
Proof.
  change (hof_update (mkHof 1 []) (first :: rest))
    with (foldM hof_update_ind (mkHof 1 [first]) (first :: rest)).
  rewrite foldM_hof_one.
  unfold best_of. cbn [fold_left]. by rewrite improves_self.
Qed.

Lemma best_of_pick (P : individual -> Prop) b population :
  P b -> Forall P population -> P (best_of b population).
Proof. intros. unfold best_of. by apply (fold_left_pick improves). Qed.

Lemma best_of_le population : forall b,
  fitness_le (fitness b) (fitness (best_of b population)) = true.
Proof.
  induction population as [| ind rest IH]; intros b; unfold best_of; cbn [fold_left].
  - apply tuple_le_refl.
  - destruct (improves ind b) eqn:E; [| apply IH].
    unfold improves in E. apply andb_true_iff in E as [E _].
    eapply tuple_le_trans; [apply fitness_gt_le; exact E | apply IH].
Qed.

Lemma best_of_unchanged population : forall b,
  Forall (fun ind => fitness_gt (fitness ind) (fitness b) = false) population ->
  best_of b population = b.
Proof.
  induction population as [| ind rest IH]; intros b H; [reflexivity |].
  inversion H; subst. unfold best_of. cbn [fold_left].
  unfold improves. rewrite H2. cbn. by apply IH.
Qed.


(** *** Variation *)

Lemma total_run {A} (m : M A) (Q : A -> Prop) :
  total R m Q -> total R m (fun a => Q a /\ exists w0 w1, m w0 = inr (a, w1)).
Proof.
  intros Hm w. destruct (Hm w) as (a & w' & E & Rw & Qa).
  exists a, w'. eauto 8.
Qed.

Lemma zip_star_spec {A} (ls : list (list A)) k :
  ls <> [] -> Forall (fun l => length l = k) ls ->
  length (zip_star ls) = k
  /\ forall i tup, zip_star ls !! i = Some tup -> Forall2 (fun l x => l !! i = Some x) ls tup.
Proof.
  induction ls as [| l rest IH]; intros Hne Hlen; [done |].
  inversion Hlen as [| ? ? Hl Hrest]; subst.
  destruct rest as [| l2 rest].
  - cbn [zip_star]. split; [by rewrite length_map |].
    intros i tup Hi. rewrite list_lookup_fmap in Hi.
    destruct (l !! i) as [x |] eqn:E; [| discriminate].
    cbn in Hi. injection Hi as <-. by repeat constructor.
  - destruct (IH ltac:(done) Hrest) as [IHl IHi].
    change (zip_star (l :: l2 :: rest)) with (zip_with cons l (zip_star (l2 :: rest))).
    split; [rewrite length_zip_with; lia |].
    intros i tup Hi. rewrite lookup_zip_with in Hi.
    destruct (l !! i) as [x |] eqn:E; [| discriminate].
    destruct (zip_star (l2 :: rest) !! i) as [t |] eqn:E2; [| discriminate].
    cbn in Hi. injection Hi as <-. constructor; [exact E | by apply IHi].
Qed.

Lemma same_shape_length old new : same_shape old new -> length new = length old.
Proof. intros H. symmetry. by eapply Forall2_length. Qed.

Lemma same_shape_lookup old new i b :
  same_shape old new -> new !! i = Some b ->
  exists a, old !! i = Some a /\ length (genes b) = length (genes a).
Proof.
  intros H Hb. destruct (Forall2_lookup_r _ _ _ _ _ H Hb) as (a & Ha & Hab). eauto.
Qed.

Section SegmentVariation.

Context (toolbox : Toolbox) (cxpb mutpb : Q).
Hypothesis Hmate : mate_ok R toolbox.
Hypothesis Hmutate : mutate_ok R toolbox.

Lemma total_varied input :
  total R (varAnd input toolbox cxpb mutpb) (varied toolbox cxpb mutpb input).
Proof. unfold varied. apply total_run. by apply total_varAnd. Qed.

Lemma total_vary_hparam_segments n_pbits offspring hnames : forall i,
  total R (vary_hparam_segments toolbox cxpb mutpb n_pbits offspring i hnames)
    (fun r => r.2 = (i + length hnames * n_pbits)%nat
              /\ length r.1 = length hnames
              /\ forall j seg, r.1 !! j = Some seg ->
                   varied toolbox cxpb mutpb
                     (segment_pop (i + j * n_pbits) n_pbits offspring) seg).
Proof.
  induction hnames as [| h rest IH]; intros i; cbn [vary_hparam_segments].
  - apply total_ret. cbn. split; [lia |]. split; [reflexivity |]. intros j seg Hj.
    discriminate.
  - eapply total_bind; [apply (total_varied (segment_pop i n_pbits offspring)) |].
    intros g Hg.
    eapply total_bind; [apply IH |]. intros [segs i'] (Hi' & Hlen & Hsegs).
    cbn [fst snd] in *. apply total_ret. cbn [fst snd length].
    split; [lia |]. split; [congruence |].
    intros [| j] seg Hj; cbn in Hj.
    + injection Hj as <-. by rewrite Nat.add_0_r.
    + specialize (Hsegs j seg Hj).
      replace (i + S j * n_pbits)%nat with (i + n_pbits + j * n_pbits)%nat by lia.
      exact Hsegs.
Qed.


Lemma varied_length input output :
  varied toolbox cxpb mutpb input output -> length output = length input.
Proof. intros [H _]. by apply same_shape_length. Qed.

Lemma total_vary_hparams hp offspring :
  total R (vary toolbox cxpb mutpb (Some hp) offspring)
        (rebuilt toolbox cxpb mutpb hp offspring).
Proof.
  unfold vary.
  eapply total_bind; [by apply total_vary_hparam_segments |].
  intros [segs i'] (Hi' & Hlen & Hsegs). cbn [fst snd] in *.
  rewrite Nat.add_0_l in Hi'. subst i'.
  eapply total_bind; [by apply total_varied |].
  intros gf Hgf. apply total_ret.
  assert (Hk : Forall (fun l => length l = length offspring) (segs ++ [gf])).
  { apply Forall_app. split.
    - apply Forall_lookup. intros j seg Hj.
      rewrite (varied_length _ _ (Hsegs j seg Hj)). apply length_map.
    - constructor; [| constructor]. rewrite (varied_length _ _ Hgf). apply length_map. }
  destruct (zip_star_spec (segs ++ [gf]) (length offspring)
              ltac:(by destruct segs) Hk) as [Hzl Hzi].
  exists segs, gf. split; [exact Hlen |]. split; [exact Hsegs |]. split; [exact Hgf |].
  split; [by rewrite length_map |].
  intros i new Hnew. rewrite list_lookup_fmap in Hnew.
  destruct (zip_star (segs ++ [gf]) !! i) as [tup |] eqn:E; [| discriminate].
  cbn in Hnew. injection Hnew as <-. split; [reflexivity |].
  apply Hzi in E. apply Forall2_app_inv_l in E as (hs & fs & Hhs & Hfs & ->).
  inversion Hfs as [| ? f ? fs' Hf Hnil]; subst. inversion Hnil; subst.
  exists hs, f. split; [exact Hhs |]. split; [exact Hf |].
  cbn [genes Individual_new]. rewrite map_app, concat_app. cbn. by rewrite app_nil_r.
Qed.

(** The shape of a rebuilt offspring. *)
Lemma concat_uniform_length (hs : list individual) bw :
  Forall (fun h => length (genes h) = bw) hs ->
  length (concat (map genes hs)) = (length hs * bw)%nat.
Proof.
  induction 1 as [| h hs Hh _ IH]; [reflexivity |].
  cbn. rewrite length_app, IH, Hh. reflexivity.
Qed.

Lemma hparam_segment_eq bw j (l : list bool) :
  hparam_segment bw j l = take bw (drop (j * bw) l).
Proof. unfold hparam_segment, slice. f_equal. lia. Qed.

Lemma concat_uniform_segment (hs : list individual) bw (tail : list bool) :
  Forall (fun h => length (genes h) = bw) hs ->
  forall j h, hs !! j = Some h ->
    hparam_segment bw j (concat (map genes hs) ++ tail) = genes h.
Proof.
  intros Hhs j h. rewrite hparam_segment_eq. revert j h.
  induction Hhs as [| h0 hs Hh0 Hhs IH]; intros j h Hj; [discriminate |].
  destruct j as [| j]; cbn in Hj.
  - injection Hj as ->. cbn [map concat Nat.mul drop]. rewrite <- app_assoc.
    by apply take_app_length'.
  - specialize (IH j h Hj). cbn [map concat]. rewrite <- app_assoc.
    rewrite drop_app_ge by (rewrite Hh0; lia).
    rewrite Hh0. replace (S j * bw - bw)%nat with (j * bw)%nat by lia. exact IH.
Qed.

Lemma rebuilt_shape hp n offspring result :
  Forall (fun ind => length (genes ind)
                     = (length (names hp) * bitwidth hp + n)%nat) offspring ->
  rebuilt toolbox cxpb mutpb hp offspring result ->
  exists (segs : list (list individual)) (gf : list individual),
    length segs = length (names hp)
    /\ (forall j seg, segs !! j = Some seg ->
          varied toolbox cxpb mutpb
            (segment_pop (j * bitwidth hp) (bitwidth hp) offspring) seg)
    /\ varied toolbox cxpb mutpb
         (feature_pop (length (names hp) * bitwidth hp) offspring) gf
    /\ length result = length offspring
    /\ forall i new, result !! i = Some new ->
         fitness new = None
         /\ length (genes new) = (length (names hp) * bitwidth hp + n)%nat
         /\ (forall j seg, segs !! j = Some seg ->
               exists h, seg !! i = Some h
                         /\ length (genes h) = bitwidth hp
                         /\ hparam_segment (bitwidth hp) j (genes new) = genes h)
         /\ (exists f, gf !! i = Some f
                       /\ length (genes f) = n
                       /\ feature_segment (Some hp) (genes new) = genes f)
         /\ genes new
            = concat (map (fun seg => from_option genes [] (seg !! i)) segs)
              ++ from_option genes [] (gf !! i).
Proof.
  intros Hoff (segs & gf & Hlen & Hsegs & Hgf & Hrl & Hres).
  exists segs, gf. repeat (split; [assumption |]).
  intros i new Hnew. destruct (Hres i new Hnew) as (Hfit & hs & f & Hhs & Hf & Hg).
  (* the i-th offspring *)
  assert (Hi : (i < length offspring)%nat)
    by (rewrite <- Hrl; eapply lookup_lt_Some; eassumption).
  destruct (lookup_lt_is_Some_2 offspring i Hi) as [old Hold].
  assert (HoldL : length (genes old) = (length (names hp) * bitwidth hp + n)%nat)
    by (rewrite Forall_lookup in Hoff; eapply Hoff; eassumption).
  (* every hyperparameter segment has [bitwidth] bits *)
  assert (Hbw : Forall (fun h => length (genes h) = bitwidth hp) hs).
  { apply Forall_lookup. intros j h Hj.
    destruct (Forall2_lookup_r _ _ _ _ _ Hhs Hj) as (seg & Hseg & Hsegi).
    destruct (Hsegs j seg Hseg) as [Hshape _].
    destruct (same_shape_lookup _ _ _ _ Hshape Hsegi) as (a & Ha & ->).
    unfold segment_pop in Ha. rewrite list_lookup_fmap, Hold in Ha.
    cbn [fmap option_fmap option_map] in Ha. injection Ha as <-.
    cbn [genes Individual_new].
    unfold slice. rewrite length_take, length_drop.
    assert (j < length (names hp))%nat
      by (rewrite <- Hlen; eapply lookup_lt_Some; eassumption).
    rewrite HoldL. nia. }
  assert (HfL : length (genes f) = n).
  { destruct Hgf as [Hshape _].
    destruct (same_shape_lookup _ _ _ _ Hshape Hf) as (a & Ha & ->).
    unfold feature_pop in Ha. rewrite list_lookup_fmap, Hold in Ha.
    cbn [fmap option_fmap option_map] in Ha. injection Ha as <-.
    cbn [genes Individual_new]. rewrite length_drop. lia. }
  assert (Hhl : length hs = length (names hp))
    by (rewrite <- Hlen; symmetry; eapply Forall2_length; eassumption).
  split; [exact Hfit |]. split.
  { rewrite Hg, length_app, (concat_uniform_length hs (bitwidth hp) Hbw). lia. }
  split.
  { intros j seg Hseg.
    destruct (Forall2_lookup_l _ _ _ _ _ Hhs Hseg) as (h & Hh & Hsegi).
    exists h. split; [exact Hsegi |]. split.
    - rewrite Forall_lookup in Hbw. eapply Hbw; eassumption.
    - rewrite Hg. by apply concat_uniform_segment. }
  split.
  { exists f. split; [exact Hf |]. split; [exact HfL |].
    unfold feature_segment. cbn [n_hparam_bits]. rewrite Hg.
    apply drop_app_length'.
    rewrite (concat_uniform_length hs (bitwidth hp) Hbw). by rewrite Hhl. }
  rewrite Hg, Hf. cbn [from_option]. f_equal. f_equal.
  clear -Hhs. induction Hhs as [| seg h segs hs Hh _ IH]; [reflexivity |].
  cbn [map]. rewrite Hh. cbn [from_option]. by rewrite IH.
Qed.

Lemma total_vary hparams L offspring :
  (n_hparam_bits hparams <= L)%nat ->
  Forall (fun ind => length (genes ind) = L) offspring ->
  total R (vary toolbox cxpb mutpb hparams offspring)
    (fun result => length result = length offspring
                   /\ Forall (fun ind => length (genes ind) = L) result).
Proof.
  intros HL Hoff. destruct hparams as [hp |].
  - cbn [n_hparam_bits] in HL.
    eapply total_weaken; [apply total_vary_hparams |].
    intros result Hre.
    assert (Hoff' : Forall (fun ind => length (genes ind)
              = (length (names hp) * bitwidth hp
                 + (L - length (names hp) * bitwidth hp))%nat) offspring).
    { eapply Forall_impl; [exact Hoff |]. intros ind Hind. cbn in Hind. lia. }
    destruct (rebuilt_shape hp _ offspring result Hoff' Hre)
      as (segs & gf & _ & _ & _ & Hrl & Hres).
    split; [exact Hrl |]. apply Forall_lookup. intros i new Hnew.
    destruct (Hres i new Hnew) as (_ & Hl & _). lia.
  - cbn [vary]. eapply total_weaken; [by apply total_varAnd |].
    intros result Hshape. split; [by apply same_shape_length |].
    apply Forall_lookup. intros i new Hnew.
    destruct (same_shape_lookup _ _ _ _ Hshape Hnew) as (a & Ha & ->).
    rewrite Forall_lookup in Hoff. eapply Hoff; eassumption.
Qed.

End SegmentVariation.


(** *** The generational loop *)

Section EvaluationFrame.

Context (sk : scoring) (est c : nat).
Hypothesis R_eval : forall w w', eval_frame est c w w' -> R w w'.

Lemma hparams_frame_eval_frame attrs w w1 :
  hparams_frame est attrs w w1 -> eval_frame est c w w1.
Proof.
  intros (D & _ & _ & N & E & _). repeat split; try assumption.
  - intros d _. by rewrite D.
  - intros key v. by rewrite D.
Qed.

Lemma eval_frame_trans w1 w2 w3 :
  eval_frame est c w1 w2 -> eval_frame est c w2 w3 -> eval_frame est c w1 w3.
Proof.
  intros (E1 & D1 & C1 & N1) (E2 & D2 & C2 & N2). repeat split.
  - intros l Hl. rewrite (E2 l Hl). by apply E1.
  - intros d Hd. rewrite (D2 d Hd). by apply D1.
  - intros key v Hk. by apply C2, C1.
  - congruence.
Qed.

Lemma scored_world_frame caching feats v w :
  (caching = true -> (dicts w !!! c) !! feats = None) ->
  eval_frame est c w (scored_world caching c feats v w).
Proof.
  intros Hmiss. unfold scored_world. repeat split; cbn [ests dicts next_loc].
  - intros d Hd. destruct caching; [| reflexivity]. by rewrite lookup_insert_ne.
  - intros key v0 Hk. destruct caching; [| exact Hk].
    rewrite lookup_total_insert_eq.
    destruct (decide (feats = key)) as [<- | Hne].
    + rewrite (Hmiss eq_refl) in Hk. discriminate.
    + by rewrite lookup_insert_ne.
Qed.

(** An evaluation never raises on a chromosome that carries its hyperparameter segment;
    in the store it changes nothing but the attributes of its estimator and the entries
    it adds to its dictionary. *)
Lemma evalFunction_frame individual max_features hparams caching w :
  hparams_ok hparams -> chromosome_ok hparams individual ->
  exists fit w',
    _evalFunction sk individual est max_features hparams caching c w = inr (fit, w')
    /\ eval_frame est c w w'.
Proof.
  intros Hok Hch.
  destruct (evalFunction_strip sk individual est max_features hparams caching c w
              Hok Hch) as (w1 & F & ->).
  apply hparams_frame_eval_frame in F.
  set (feats := feature_segment hparams individual).
  destruct (decide (np_sum feats = 0 \/ max_features < np_sum feats)) as [Hinf | Hfeas].
  - rewrite evalFunction_infeasible by exact Hinf. eauto.
  - assert (np_sum feats <> 0 /\ np_sum feats <= max_features) as [H0 Hmf] by lia.
    destruct caching.
    + destruct ((dicts w1 !!! c) !! feats) as [cached |] eqn:Hc.
      * rewrite (evalFunction_hit _ _ _ _ _ _ cached H0 Hmf Hc). eauto.
      * rewrite (evalFunction_miss _ _ _ _ true _ _ H0 Hmf (fun _ => Hc)).
        eexists _, _. split; [reflexivity |].
        eapply eval_frame_trans; [exact F |]. by apply scored_world_frame.
    + rewrite (evalFunction_miss _ _ _ _ false _ _ H0 Hmf) by discriminate.
      eexists _, _. split; [reflexivity |].
      eapply eval_frame_trans; [exact F |]. by apply scored_world_frame.
Qed.

Lemma total_evalFunction individual max_features hparams caching :
  hparams_ok hparams -> chromosome_ok hparams individual ->
  total R (_evalFunction sk individual est max_features hparams caching c)
        (fun _ => True).
Proof.
  intros Hok Hch w.
  destruct (evalFunction_frame individual max_features hparams caching w Hok Hch)
    as (fit & w' & E & F).
  exists fit, w'. split; [exact E |]. split; [by apply R_eval | exact I].
Qed.

End EvaluationFrame.

Section Loop.

Context (toolbox : Toolbox) (cxpb mutpb : Q) (L : nat).
Hypothesis Hmate : mate_ok R toolbox.
Hypothesis Hmutate : mutate_ok R toolbox.
Hypothesis Hselect : select_ok R toolbox.
Hypothesis Hevaluate : evaluate_ok R L toolbox.

Lemma total_evaluate_invalid pop :
  Forall (fun ind => length (genes ind) = L) pop ->
  total R (evaluate_invalid toolbox pop) (fun r => evaluated pop r.1).
Proof.
  induction 1 as [| ind rest Hind _ IH]; cbn [evaluate_invalid].
  - apply total_ret. constructor.
  - destruct (valid (fitness ind)) eqn:V.
    + eapply total_bind; [exact IH |]. intros r Hr.
      apply total_ret. cbn [fst]. constructor; [| exact Hr]. by repeat split.
    + eapply total_bind; [by apply Hevaluate |]. intros fit _.
      eapply total_bind; [exact IH |]. intros r Hr.
      apply total_ret. cbn [fst]. constructor; [| exact Hr].
      cbn [genes fitness]. split; [reflexivity |]. split; [apply valid_Some |].
      intros ?. congruence.
Qed.

Lemma evaluated_length old new : evaluated old new -> length new = length old.
Proof. intros H. symmetry. by eapply Forall2_length. Qed.

Lemma evaluated_shape old new (P : list bool -> Prop) :
  evaluated old new -> Forall (fun ind => P (genes ind)) old ->
  Forall (fun ind => P (genes ind)) new.
Proof.
  induction 1 as [| a b old new (Hg & _) _ IH]; intros Ho; [constructor |].
  inversion Ho; subst. constructor; [by rewrite Hg | by apply IH].
Qed.

Lemma evaluated_valid old new :
  evaluated old new -> Forall (fun ind => valid (fitness ind) = true) new.
Proof. induction 1 as [| a b old new (_ & Hv & _) _ IH]; by constructor. Qed.

Lemma total_generation ngen_no_change hparams gen st :
  (n_hparam_bits hparams <= L)%nat ->
  loop_inv L st ->
  total R (generation toolbox cxpb mutpb ngen_no_change hparams 1 gen st)
        (fun r => gen_step ngen_no_change st r.1 r.2 /\ loop_inv L r.1).
Proof.
  intros HL (Hne & Hpop & b & Hhof & Hb). unfold generation.
  eapply total_bind; [by apply (Hselect _ _ (fun ind => length (genes ind) = L)) |].
  intros sel [Hsl Hsel].
  eapply total_bind; [by apply (total_vary toolbox cxpb mutpb Hmate Hmutate hparams L) |].
  intros off [Hol Hoff].
  eapply total_bind; [by apply total_evaluate_invalid |].
  intros ev Hev.
  rewrite Hhof. cbn [items hof_head].
  change (bind (ret b) ?k) with (k b). cbn beta.
  rewrite hof_update_one.
  change (bind (ret ?x) ?k) with (k x). cbn beta. cbn [items hof_head].
  change (bind (ret ?x) ?k) with (k x). cbn beta.
  apply total_ret. cbn [fst snd].
  assert (HevL : length ev.1 = (length (population st) - 1)%nat)
    by (rewrite (evaluated_length _ _ Hev); congruence).
  assert (Hpos : (0 < length (population st))%nat)
    by (destruct (population st); [done | simpl; lia]).
  split.
  - exists b. cbn [halloffame population wait].
    split; [exact Hhof |]. split; [reflexivity |].
    split; [rewrite length_app; simpl; lia |].
    split; [by rewrite last_snoc |].
    split; [rewrite removelast_last; exact (evaluated_valid _ _ Hev) |].
    split; reflexivity.
  - split; [| split]; cbn [halloffame population].
    + by destruct ev.1.
    + apply Forall_app. split; [| by repeat constructor].
      by apply (evaluated_shape off ev.1 (fun g => length g = L)).
    + eexists. split; [reflexivity |].
      apply (best_of_pick (fun ind => length (genes ind) = L)); [exact Hb |].
      apply Forall_app. split; [| by repeat constructor].
      by apply (evaluated_shape off ev.1 (fun g => length g = L)).
Qed.

Lemma total_ea_loop ngen_no_change hparams remaining : forall gen st,
  (n_hparam_bits hparams <= L)%nat ->
  loop_inv L st ->
  total R (ea_loop toolbox cxpb mutpb ngen_no_change hparams 1 remaining gen st)
        (fun sts => trace_ok ngen_no_change remaining st sts
                    /\ Forall (loop_inv L) sts).
Proof.
  induction remaining as [| r IH]; intros gen st HL Hinv; cbn [ea_loop].
  - apply total_ret. split; [reflexivity | constructor].
  - eapply total_bind; [by apply total_generation |].
    intros [st' stop] [Hstep Hinv']. cbn [fst snd] in *.
    destruct stop.
    + apply total_ret. split; [| constructor; [exact Hinv' | constructor]].
      exists r, true. by repeat split.
    + eapply total_bind; [by apply IH |]. intros rest [Htr Hall].
      apply total_ret. split; [| by constructor].
      exists r, false. by repeat split.
Qed.

Lemma total_ea_init pop :
  pop <> [] -> Forall (fun ind => length (genes ind) = L) pop ->
  total R (ea_init pop toolbox (Some (mkHof 1 [])))
        (fun r => r.2 = 1%nat /\ loop_inv L r.1 /\ wait r.1 = 0
                  /\ evaluated pop (population r.1)).
Proof.
  intros Hne Hpop. unfold ea_init.
  eapply total_bind; [by apply total_evaluate_invalid |].
  intros ev Hev.
  assert (HevL : Forall (fun ind => length (genes ind) = L) ev.1)
    by (by apply (evaluated_shape pop ev.1 (fun g => length g = L))).
  destruct ev as [[| first rest] nev]; cbn [fst snd] in *.
  { apply evaluated_length in Hev. destruct pop; [done | simpl in Hev; lia]. }
  rewrite hof_update_empty.
  change (bind (ret ?x) ?k) with (k x). cbn beta.
  apply total_ret. cbn [fst snd items length population wait].
  split; [reflexivity |]. split; [| split; [reflexivity | exact Hev]].
  split; [done |]. split; [exact HevL |].
  eexists. split; [reflexivity |].
  pose proof HevL as HevL'. apply Forall_cons in HevL' as [Hf Hr].
  by apply (best_of_pick (fun ind => length (genes ind) = L)).
Qed.

Lemma total_ea_trace pop ngen ngen_no_change hparams :
  (n_hparam_bits hparams <= L)%nat ->
  pop <> [] -> Forall (fun ind => length (genes ind) = L) pop ->
  total R (ea_trace pop toolbox cxpb mutpb ngen ngen_no_change (Some (mkHof 1 [])) hparams)
        (fun tr => exists s0 sts,
                     tr = s0 :: sts
                     /\ loop_inv L s0 /\ wait s0 = 0
                     /\ evaluated pop (population s0)
                     /\ trace_ok ngen_no_change (Z.to_nat ngen) s0 sts
                     /\ Forall (loop_inv L) sts).
Proof.
  intros HL Hne Hpop. unfold ea_trace.
  eapply total_bind; [by apply total_ea_init |].
  intros [s0 hs] (Hhs & Hinv & Hw & Hev). cbn [fst snd] in *. subst hs.
  eapply total_bind; [by apply total_ea_loop |].
  intros sts [Htr Hall]. apply total_ret. exists s0, sts.
  repeat (split; [first [reflexivity | assumption] |]). assumption.
Qed.

End Loop.


(** *** The toolbox of [_fit] *)

Section FitToolbox.

Context (sk : scoring) (self : GeneticSelectionCV_mod) (n_features : nat)
        (max_features_ : Z) (est : nat).
Hypothesis R_eval : forall w w', eval_frame est (scores_cache self) w w' -> R w w'.

Let toolbox := make_toolbox sk self n_features max_features_ est.

Lemma make_toolbox_mate : mate_ok R toolbox.
Proof. intros a b. apply total_cxUniform. Qed.

Lemma make_toolbox_mutate : mutate_ok R toolbox.
Proof. intros a. apply total_mutFlipBit. Qed.

Lemma make_toolbox_select : 0 < tournament_size self -> select_ok R toolbox.
Proof.
  intros Hts pop k P Hne HP. apply total_selTournament; [lia | assumption..].
Qed.

Lemma make_toolbox_evaluate L :
  hparams_ok (hparams self) -> (n_hparam_bits (hparams self) <= L)%nat ->
  evaluate_ok R L toolbox.
Proof.
  intros Hok HL ind Hind. apply (total_evalFunction sk est (scores_cache self) R_eval);
    [exact Hok | unfold chromosome_ok; lia].
Qed.

End FitToolbox.

End Totality.

(* ===================================================================== *)
(** ** The frame of a run *)
(* ===================================================================== *)

#[export] Instance eval_frame_preorder est c : PreOrder (eval_frame est c).
Proof.
  split.
  - intros w. by repeat split.
  - intros w1 w2 w3. apply eval_frame_trans.
Qed.

Lemma same_store_eval_frame est c w w' : same_store w w' -> eval_frame est c w w'.
Proof.
  intros (E & D & N & _). repeat split; try assumption.
  - intros l _. by rewrite E.
  - intros d _. by rewrite D.
  - intros key v. by rewrite D.
Qed.

(* ===================================================================== *)
(** ** Traces of the generational loop *)
(* ===================================================================== *)

Section Traces.

Context (ngen_no_change : option Z).

Lemma trace_ok_length sts : forall remaining st,
  trace_ok ngen_no_change remaining st sts -> (length sts <= remaining)%nat.
Proof.
  induction sts as [| s' rest IH]; intros remaining st H; cbn in *; [lia |].
  destruct H as (r & stop & -> & _ & Hrest).
  destruct stop; [subst rest; simpl; lia |].
  specialize (IH _ _ Hrest). lia.
Qed.

Lemma trace_ok_step sts : forall remaining st,
  trace_ok ngen_no_change remaining st sts ->
  forall g a b, (st :: sts) !! g = Some a -> (st :: sts) !! S g = Some b ->
    exists stop, gen_step ngen_no_change a b stop
                 /\ (stop = true -> S g = length sts)
                 /\ (stop = false -> S g = length sts -> length sts = remaining).
Proof.
  induction sts as [| s' rest IH]; intros remaining st H g a b Ha Hb.
  - destruct g; discriminate.
  - cbn in H. destruct H as (r & stop & -> & Hstep & Hrest).
    destruct g as [| g].
    + cbn in Ha, Hb. injection Ha as <-. injection Hb as <-.
      exists stop. split; [exact Hstep |]. split.
      * intros ->. by subst rest.
      * intros -> Hl. destruct rest; [| discriminate].
        cbn in Hrest. by subst r.
    + cbn in Ha, Hb. destruct stop; [subst rest; destruct g; discriminate |].
      destruct (IH _ _ Hrest g a b Ha Hb) as (stop' & Hs & Ht & Hf).
      exists stop'. split; [exact Hs |]. split.
      * intros E. cbn. f_equal. by apply Ht.
      * intros E Hl. cbn in *. f_equal. apply Hf; [exact E | lia].
Qed.

Lemma gen_step_best a b stop :
  gen_step ngen_no_change a b stop ->
  exists x y, halloffame a = mkHof 1 [x] /\ halloffame b = mkHof 1 [y]
              /\ y = best_of x (population b)
              /\ wait b = (if bool_decide (genes y = genes x) then wait a + 1 else 0).
Proof. intros (x & Hx & Hy & _ & _ & _ & Hw & _). eauto 10. Qed.

Lemma gen_step_stagnant a b stop :
  gen_step ngen_no_change a b stop -> stagnant a b -> wait b = wait a + 1.
Proof.
  intros H Hs. destruct (gen_step_best _ _ _ H) as (x & y & Hx & Hy & _ & Hw).
  unfold stagnant, best_genes in Hs. rewrite Hx, Hy in Hs. cbn in Hs.
  injection Hs as Hs. rewrite Hw. by rewrite bool_decide_eq_true_2.
Qed.

Lemma gen_step_changed a b stop :
  gen_step ngen_no_change a b stop -> ~ stagnant a b -> wait b = 0.
Proof.
  intros H Hs. destruct (gen_step_best _ _ _ H) as (x & y & Hx & Hy & _ & Hw).
  rewrite Hw. rewrite bool_decide_eq_false_2; [reflexivity |].
  intros E. apply Hs. unfold stagnant, best_genes. rewrite Hx, Hy. cbn. by rewrite E.
Qed.

Lemma stagnant_dec a b : Decision (stagnant a b).
Proof. unfold stagnant. apply _. Qed.

Section OneTrace.

Context (remaining : nat) (s0 : ea_state) (sts : list ea_state).
Hypothesis Htrace : trace_ok ngen_no_change remaining s0 sts.
Hypothesis Hwait0 : wait s0 = 0.

Lemma trace_prev g s : (s0 :: sts) !! S g = Some s -> exists a, (s0 :: sts) !! g = Some a.
Proof.
  intros H. apply lookup_lt_is_Some_2. apply lookup_lt_Some in H. lia.
Qed.

(** The counter is the number of generations since the best-ever individual last
    changed. *)
Lemma wait_counts g : forall s,
  (s0 :: sts) !! g = Some s ->
  exists c : nat,
    wait s = Z.of_nat c /\ (c <= g)%nat
    /\ (forall i a b, (g - c < i <= g)%nat ->
          (s0 :: sts) !! (i - 1)%nat = Some a -> (s0 :: sts) !! i = Some b -> stagnant a b)
    /\ (forall a b, (c < g)%nat ->
          (s0 :: sts) !! (g - c - 1)%nat = Some a -> (s0 :: sts) !! (g - c)%nat = Some b ->
          ~ stagnant a b).
Proof.
  induction g as [| g IH]; intros s Hs.
  - cbn in Hs. injection Hs as <-. exists O. rewrite Hwait0.
    split; [reflexivity |]. split; [lia |]. split; intros; lia.
  - destruct (trace_prev g s Hs) as [a Ha].
    destruct (trace_ok_step _ _ _ Htrace g a s Ha Hs) as (stop & Hstep & _).
    destruct (IH a Ha) as (c & Hc & Hle & Hstag & Hchg).
    destruct (stagnant_dec a s) as [Hst | Hnst].
    + exists (S c). rewrite (gen_step_stagnant _ _ _ Hstep Hst), Hc.
      split; [lia |]. split; [lia |]. split.
      * intros i x y Hi Hx Hy.
        destruct (decide (i = S g)) as [-> | Hne].
        -- replace (S g - 1)%nat with g in Hx by lia. congruence.
        -- apply (Hstag i x y); [lia | assumption..].
      * intros x y Hlt Hx Hy.
        replace (S g - S c - 1)%nat with (g - c - 1)%nat in Hx by lia.
        replace (S g - S c)%nat with (g - c)%nat in Hy by lia.
        apply (Hchg x y); [lia | assumption..].
    + exists O. rewrite (gen_step_changed _ _ _ Hstep Hnst).
      split; [reflexivity |]. split; [lia |]. split; [intros; lia |].
      intros x y _ Hx Hy.
      replace (S g - 0 - 1)%nat with g in Hx by lia.
      replace (S g - 0)%nat with (S g) in Hy by lia. congruence.
Qed.

(** Whenever the bits of the best-ever individual have been the same for the last [c]
    generations, the counter is at least [c]. *)
Lemma wait_lower_bound g s (c : nat) :
  (s0 :: sts) !! g = Some s -> (c <= g)%nat ->
  (forall i a b, (g - c < i <= g)%nat ->
     (s0 :: sts) !! (i - 1)%nat = Some a -> (s0 :: sts) !! i = Some b -> stagnant a b) ->
  Z.of_nat c <= wait s.
Proof.
  intros Hs Hc Hstag.
  destruct (wait_counts g s Hs) as (c' & Hw & Hle & _ & Hchg).
  rewrite Hw. destruct (decide (c <= c')%nat) as [| Hlt]; [lia |]. exfalso.
  assert (Hlt2 : (c' < g)%nat) by lia.
  assert (Hi1 : (g - c' < length (s0 :: sts))%nat)
    by (apply lookup_lt_Some in Hs; lia).
  assert (Hi0 : (g - c' - 1 < length (s0 :: sts))%nat) by lia.
  destruct (lookup_lt_is_Some_2 _ _ Hi1) as [b Hb].
  destruct (lookup_lt_is_Some_2 _ _ Hi0) as [a Ha].
  apply (Hchg a b Hlt2 Ha Hb). apply (Hstag (g - c')%nat a b); [lia | | exact Hb].
  exact Ha.
Qed.

End OneTrace.

End Traces.

(* ===================================================================== *)
(** ** The evaluation: infeasible chromosomes and the cache *)
(* ===================================================================== *)

Section Evaluation.

Context (sk : scoring) (est c : nat) (max_features : Z) (hparams : option hparams_t).
Hypothesis Hok : hparams_ok hparams.

Lemma evalFunction_sentinel individual caching w :
  chromosome_ok hparams individual ->
  np_sum (feature_segment hparams individual) = 0
  \/ max_features < np_sum (feature_segment hparams individual) ->
  exists w',
    _evalFunction sk individual est max_features hparams caching c w
    = inr (sentinel (np_sum (feature_segment hparams individual)), w')
    /\ cv_calls w' = cv_calls w /\ dicts w' = dicts w.
Proof.
  intros Hch Hinf.
  destruct (evalFunction_strip sk individual est max_features hparams caching c w
              Hok Hch) as (w1 & (D & C & _) & ->).
  rewrite evalFunction_infeasible by exact Hinf.
  exists w1. by repeat split.
Qed.

Lemma evalFunction_cached individual w cached :
  chromosome_ok hparams individual ->
  np_sum (feature_segment hparams individual) <> 0 ->
  np_sum (feature_segment hparams individual) <= max_features ->
  (dicts w !!! c) !! feature_segment hparams individual = Some cached ->
  exists w',
    _evalFunction sk individual est max_features hparams true c w
    = inr ((cached.1, np_sum (feature_segment hparams individual), cached.2), w')
    /\ cv_calls w' = cv_calls w /\ dicts w' = dicts w.
Proof.
  intros Hch H0 Hmf Hc.
  destruct (evalFunction_strip sk individual est max_features hparams true c w
              Hok Hch) as (w1 & (D & C & _) & ->).
  rewrite <- D in Hc.
  rewrite (evalFunction_hit _ _ _ _ _ _ cached H0 Hmf Hc).
  exists w1. by repeat split.
Qed.

Lemma scored_world_lookup key v w :
  (dicts (scored_world true c key v w) !!! c) !! key = Some v.
Proof.
  unfold scored_world. cbn [dicts]. rewrite lookup_total_insert_eq. apply lookup_insert_eq.
Qed.

Lemma evalFunction_again individual w fit1 w1 :
  chromosome_ok hparams individual ->
  _evalFunction sk individual est max_features hparams true c w = inr (fit1, w1) ->
  exists w2,
    _evalFunction sk individual est max_features hparams true c w1 = inr (fit1, w2)
    /\ cv_calls w2 = cv_calls w1 /\ dicts w2 = dicts w1.
Proof.
  intros Hch E1.
  set (feats := feature_segment hparams individual).
  destruct (evalFunction_strip sk individual est max_features hparams true c w
              Hok Hch) as (wa & (Da & Ca & _) & Ea).
  rewrite Ea in E1. fold feats in E1.
  destruct (decide (np_sum feats = 0 \/ max_features < np_sum feats)) as [Hinf | Hfeas].
  - rewrite evalFunction_infeasible in E1 by exact Hinf.
    injection E1 as Hf Hw. subst fit1 w1.
    by apply evalFunction_sentinel.
  - assert (np_sum feats <> 0 /\ np_sum feats <= max_features) as [H0 Hmf] by lia.
    destruct ((dicts wa !!! c) !! feats) as [cached |] eqn:Hc.
    + rewrite (evalFunction_hit _ _ _ _ _ _ cached H0 Hmf Hc) in E1.
      injection E1 as Hf Hw. subst fit1 w1. by apply evalFunction_cached.
    + rewrite (evalFunction_miss _ _ _ _ true _ _ H0 Hmf (fun _ => Hc)) in E1.
      injection E1 as Hf Hw. subst fit1 w1.
      apply (evalFunction_cached individual _
               (np_mean sk (cv_scores sk (ests wa !!! est) feats),
                np_std sk (cv_scores sk (ests wa !!! est) feats)) Hch H0 Hmf).
      apply scored_world_lookup.
Qed.

End Evaluation.

(** C1.  A chromosome whose feature segment has no set bit, or more set bits than
    [max_features], is never scored and never makes the evaluation raise: the evaluation
    returns the fitness [(-10000, count, 10000)], where [count] is the number of set bits
    of the feature segment, without calling [cross_val_score] and without touching the
    cache.  The hyperparameter dictionary, when there is one, is a usable one and the
    chromosome carries its hyperparameter segment. *)
Theorem C1_infeasible_sentinel sk individual est max_features hparams caching c w :
  hparams_ok hparams -> chromosome_ok hparams individual ->
  np_sum (feature_segment hparams individual) = 0
  \/ max_features < np_sum (feature_segment hparams individual) ->
  exists w',
    _evalFunction sk individual est max_features hparams caching c w
    = inr ((inject_Z (-10000), np_sum (feature_segment hparams individual),
            inject_Z 10000), w')
    /\ cv_calls w' = cv_calls w /\ dicts w' = dicts w.
Proof. intros Hok Hch Hinf. by apply evalFunction_sentinel. Qed.

(** C3.  With caching enabled, the evaluation of a feasible chromosome whose feature
    segment is a key of the cache returns the cached mean and dispersion, with the count
    of the feature bits, without calling [cross_val_score] and without writing the
    cache.  Hence evaluating a chromosome a second time returns the result of the first
    evaluation without a call of [cross_val_score]. *)
Theorem C3_cache_hit sk individual est max_features hparams c :
  hparams_ok hparams -> chromosome_ok hparams individual ->
  (forall w cached,
     np_sum (feature_segment hparams individual) <> 0 ->
     np_sum (feature_segment hparams individual) <= max_features ->
     (dicts w !!! c) !! feature_segment hparams individual = Some cached ->
     exists w',
       _evalFunction sk individual est max_features hparams true c w
       = inr ((cached.1, np_sum (feature_segment hparams individual), cached.2), w')
       /\ cv_calls w' = cv_calls w /\ dicts w' = dicts w)
  /\ (forall w fit1 w1,
        _evalFunction sk individual est max_features hparams true c w = inr (fit1, w1) ->
        exists w2,
          _evalFunction sk individual est max_features hparams true c w1 = inr (fit1, w2)
          /\ cv_calls w2 = cv_calls w1 /\ dicts w2 = dicts w1).
Proof.
  intros Hok Hch. split.
  - intros w cached H0 Hmf Hc. by apply evalFunction_cached.
  - intros w fit1 w1 E1. by eapply evalFunction_again.
Qed.

(** C7.  With caching enabled and hyperparameters configured, the key of the cache is the
    feature segment alone: once a feasible chromosome has been evaluated, its mean and
    dispersion are stored under its feature segment, and the evaluation of any chromosome
    with the same feature bits, whatever its hyperparameter bits, returns that stored
    mean and dispersion without a call of [cross_val_score].  When the first evaluation
    was a miss, the stored values are the scores obtained with the hyperparameter values
    of the first chromosome. *)
Theorem C7_cache_key_is_feature_segment sk hp ind1 ind2 est max_features c w :
  hparams_ok (Some hp) ->
  chromosome_ok (Some hp) ind1 -> chromosome_ok (Some hp) ind2 ->
  feature_segment (Some hp) ind2 = feature_segment (Some hp) ind1 ->
  np_sum (feature_segment (Some hp) ind1) <> 0 ->
  np_sum (feature_segment (Some hp) ind1) <= max_features ->
  exists mean std w1 w2,
    _evalFunction sk ind1 est max_features (Some hp) true c w
    = inr ((mean, np_sum (feature_segment (Some hp) ind1), std), w1)
    /\ (dicts w1 !!! c) !! feature_segment (Some hp) ind1 = Some (mean, std)
    /\ _evalFunction sk ind2 est max_features (Some hp) true c w1
       = inr ((mean, np_sum (feature_segment (Some hp) ind2), std), w2)
    /\ cv_calls w2 = cv_calls w1
    /\ ((dicts w !!! c) !! feature_segment (Some hp) ind1 = None ->
        let scores := cv_scores sk (assigned_attrs (Some hp) ind1 (ests w !!! est))
                        (feature_segment (Some hp) ind1) in
        mean = np_mean sk scores /\ std = np_std sk scores).
Proof.
  intros Hok Hch1 Hch2 Hsame H0 Hmf.
  set (feats := feature_segment (Some hp) ind1) in *.
  destruct (evalFunction_strip sk ind1 est max_features (Some hp) true c w Hok Hch1)
    as (wa & (Da & Ca & _ & _ & _ & Aa) & Ea).
  fold feats in Ea.
  assert (Hsecond : forall (v : Q * Q) w1,
            (dicts w1 !!! c) !! feats = Some v ->
            exists w2,
              _evalFunction sk ind2 est max_features (Some hp) true c w1
              = inr ((v.1, np_sum (feature_segment (Some hp) ind2), v.2), w2)
              /\ cv_calls w2 = cv_calls w1).
  { intros v w1 Hv.
    assert (H0' : np_sum (feature_segment (Some hp) ind2) <> 0) by (by rewrite Hsame).
    assert (Hmf' : np_sum (feature_segment (Some hp) ind2) <= max_features)
      by (by rewrite Hsame).
    assert (Hv' : (dicts w1 !!! c) !! feature_segment (Some hp) ind2 = Some v)
      by (by rewrite Hsame).
    destruct (evalFunction_cached sk est c max_features (Some hp) Hok ind2 w1 v
                Hch2 H0' Hmf' Hv') as (w2 & E2 & C2 & _).
    exists w2. by split. }
  destruct ((dicts wa !!! c) !! feats) as [cached |] eqn:Hc.
  - rewrite (evalFunction_hit _ _ _ _ _ _ cached H0 Hmf Hc) in Ea.
    destruct (Hsecond cached wa Hc) as (w2 & E2 & C2).
    exists cached.1, cached.2, wa, w2.
    split; [exact Ea |]. split; [by destruct cached |]. split; [exact E2 |].
    split; [exact C2 |]. intros Hnone. rewrite Da in Hc. congruence.
  - rewrite (evalFunction_miss _ _ _ _ true _ _ H0 Hmf (fun _ => Hc)) in Ea.
    set (scores := cv_scores sk (ests wa !!! est) feats) in *.
    set (w1 := scored_world true c feats (np_mean sk scores, np_std sk scores) wa) in *.
    assert (Hv : (dicts w1 !!! c) !! feats = Some (np_mean sk scores, np_std sk scores))
      by apply scored_world_lookup.
    destruct (Hsecond _ w1 Hv) as (w2 & E2 & C2).
    exists (np_mean sk scores), (np_std sk scores), w1, w2.
    split; [exact Ea |]. split; [exact Hv |]. split; [exact E2 |].
    split; [exact C2 |]. intros _. subst scores. rewrite Aa. by split.
Qed.

(* ===================================================================== *)
(** ** The run of [_eaFunction] with the toolbox of [_fit] *)
(* ===================================================================== *)

Section Run.

Context (sk : scoring) (self : GeneticSelectionCV_mod) (n_features : nat)
        (max_features_ : Z) (est : nat).

Let c := scores_cache self.
Let toolbox := make_toolbox sk self n_features max_features_ est.

Lemma run_initial_population k :
  hparam_bits self = n_hparam_bits (hparams self) ->
  1 <= max_features_ <= Z.of_nat n_features ->
  total (eval_frame est c) (initRepeat (tb_individual toolbox) k)
    (fun pop => length pop = k
                /\ Forall (fresh_chromosome (Z.of_nat n_features) max_features_
                             (hparams self)) pop).
Proof.
  intros Hhb Hmf. apply total_initRepeat; [apply _ |].
  subst toolbox. cbn [make_toolbox tb_individual]. rewrite Hhb.
  apply total_createIndividual; [apply _ | apply same_store_eval_frame | exact Hmf].
Qed.

Lemma run_vary_hparams hp offspring :
  total (eval_frame est c)
    (vary toolbox (crossover_proba self) (mutation_proba self) (Some hp) offspring)
    (rebuilt toolbox (crossover_proba self) (mutation_proba self) hp offspring).
Proof.
  apply total_vary_hparams; [apply _ | apply same_store_eval_frame | |].
  - apply make_toolbox_mate; [apply _ | apply same_store_eval_frame].
  - apply make_toolbox_mutate; [apply _ | apply same_store_eval_frame].
Qed.

Lemma run_trace L pop :
  hparams_ok (hparams self) -> (n_hparam_bits (hparams self) <= L)%nat ->
  0 < tournament_size self ->
  pop <> [] -> Forall (fun ind => length (genes ind) = L) pop ->
  total (eval_frame est c)
    (ea_trace pop toolbox (crossover_proba self) (mutation_proba self)
       (n_generations self) (n_gen_no_change self) (Some (mkHof 1 [])) (hparams self))
    (fun tr => exists s0 sts,
                 tr = s0 :: sts
                 /\ loop_inv L s0 /\ wait s0 = 0
                 /\ evaluated pop (population s0)
                 /\ trace_ok (n_gen_no_change self) (Z.to_nat (n_generations self)) s0 sts
                 /\ Forall (loop_inv L) sts).
Proof.
  intros Hok HL Hts Hne Hpop.
  apply total_ea_trace; try assumption; try apply _;
    try apply same_store_eval_frame.
  - apply make_toolbox_mate; [apply _ | apply same_store_eval_frame].
  - apply make_toolbox_mutate; [apply _ | apply same_store_eval_frame].
  - apply make_toolbox_select; [apply _ | apply same_store_eval_frame | exact Hts].
  - apply make_toolbox_evaluate; [by intros | exact Hok | exact HL].
Qed.

End Run.

Section TraceProperties.

Context (ngen_no_change : option Z) (remaining : nat) (s0 : ea_state)
        (sts : list ea_state).
Hypothesis Htrace : trace_ok ngen_no_change remaining s0 sts.

Lemma best_fitness_one st b : halloffame st = mkHof 1 [b] -> best_fitness st = fitness b.
Proof. unfold best_fitness. by intros ->. Qed.

Lemma trace_best_monotone g' : forall g s s',
  (g <= g')%nat -> (s0 :: sts) !! g = Some s -> (s0 :: sts) !! g' = Some s' ->
  fitness_le (best_fitness s) (best_fitness s') = true.
Proof.
  induction g' as [| g' IH]; intros g s s' Hle Hs Hs'.
  - assert (g = O) as -> by lia. assert (s = s') as -> by congruence.
    apply tuple_le_refl.
  - destruct (decide (g = S g')) as [-> | Hne].
    { assert (s = s') as -> by congruence. apply tuple_le_refl. }
    assert (Hlt : (g' < length (s0 :: sts))%nat)
      by (apply lookup_lt_Some in Hs'; lia).
    destruct (lookup_lt_is_Some_2 _ _ Hlt) as [a Ha].
    destruct (trace_ok_step _ _ _ _ Htrace g' a s' Ha Hs') as (stop & Hstep & _).
    destruct (gen_step_best _ _ _ _ Hstep) as (x & y & Hx & Hy & -> & _).
    unfold fitness_le.
    eapply tuple_le_trans; [apply (IH g s a); [lia | assumption..] |].
    rewrite (best_fitness_one _ _ Hx), (best_fitness_one _ _ Hy).
    apply best_of_le.
Qed.

Lemma gen_step_persist a b stop :
  gen_step ngen_no_change a b stop ->
  Forall (fun x => fitness_gt (fitness x) (best_fitness a) = false) (population b) ->
  halloffame b = halloffame a.
Proof.
  intros Hstep Hno.
  destruct (gen_step_best _ _ _ _ Hstep) as (x & y & Hx & Hy & -> & _).
  rewrite (best_fitness_one _ _ Hx) in Hno.
  rewrite Hx, Hy. by rewrite best_of_unchanged.
Qed.

End TraceProperties.

Section StopProperties.

Context (ngen_no_change : option Z) (remaining : nat) (s0 : ea_state)
        (sts : list ea_state).
Hypothesis Htrace : trace_ok ngen_no_change remaining s0 sts.
Hypothesis Hwait0 : wait s0 = 0.

Lemma gen_step_stop a b stop :
  gen_step ngen_no_change a b stop ->
  stop = match ngen_no_change with
         | Some k => k <=? wait b
         | None => false
         end.
Proof. intros (x & _ & _ & _ & _ & _ & _ & Hs). exact Hs. Qed.

(** The last generation of a run that did not use up its budget stopped the loop. *)
Lemma trace_last_step :
  (length sts < remaining)%nat ->
  exists a b, (s0 :: sts) !! (length sts - 1)%nat = Some a
              /\ (s0 :: sts) !! length sts = Some b
              /\ (0 < length sts)%nat
              /\ gen_step ngen_no_change a b true.
Proof.
  intros Hlt.
  destruct sts as [| s1 rest] eqn:E.
  { cbn in Htrace. simpl in Hlt. lia. }
  rewrite <- E in *.
  assert (H0 : (0 < length sts)%nat) by (rewrite E; simpl; lia).
  assert (Hi1 : (length sts < length (s0 :: sts))%nat) by (simpl; lia).
  assert (Hi0 : (length sts - 1 < length (s0 :: sts))%nat) by (simpl; lia).
  destruct (lookup_lt_is_Some_2 _ _ Hi1) as [b Hb].
  destruct (lookup_lt_is_Some_2 _ _ Hi0) as [a Ha].
  exists a, b. split; [exact Ha |]. split; [exact Hb |]. split; [exact H0 |].
  assert (Hb' : (s0 :: sts) !! S (length sts - 1) = Some b)
    by (replace (S (length sts - 1)) with (length sts) by lia; exact Hb).
  destruct (trace_ok_step _ _ _ _ Htrace _ a b Ha Hb') as (stop & Hstep & _ & Hf).
  destruct stop; [exact Hstep |].
  specialize (Hf eq_refl ltac:(lia)). lia.
Qed.

Lemma trace_no_limit : ngen_no_change = None -> length sts = remaining.
Proof.
  intros Hnone.
  pose proof (trace_ok_length _ _ _ _ Htrace) as Hle.
  destruct (decide (length sts = remaining)) as [| Hne]; [assumption |].
  destruct trace_last_step as (a & b & _ & _ & _ & Hstep); [lia |].
  apply gen_step_stop in Hstep. rewrite Hnone in Hstep. discriminate.
Qed.

Lemma trace_stagnation_stops k g :
  ngen_no_change = Some k ->
  (1 <= g <= length sts)%nat -> (Z.to_nat k <= g)%nat ->
  (forall i a b, (g - Z.to_nat k < i <= g)%nat ->
     (s0 :: sts) !! (i - 1)%nat = Some a -> (s0 :: sts) !! i = Some b -> stagnant a b) ->
  g = length sts.
Proof.
  intros Hk Hg Hkg Hstag.
  assert (Hi1 : (g < length (s0 :: sts))%nat) by (simpl; lia).
  assert (Hi0 : (g - 1 < length (s0 :: sts))%nat) by (simpl; lia).
  destruct (lookup_lt_is_Some_2 _ _ Hi1) as [b Hb].
  destruct (lookup_lt_is_Some_2 _ _ Hi0) as [a Ha].
  pose proof (wait_lower_bound _ _ _ _ Htrace Hwait0 g b (Z.to_nat k) Hb Hkg Hstag)
    as Hw.
  assert (Hb' : (s0 :: sts) !! S (g - 1) = Some b)
    by (replace (S (g - 1)) with g by lia; exact Hb).
  destruct (trace_ok_step _ _ _ _ Htrace _ a b Ha Hb') as (stop & Hstep & Ht & _).
  pose proof (gen_step_stop _ _ _ Hstep) as Hs. rewrite Hk in Hs.
  assert (stop = true) as -> by (rewrite Hs; apply Z.leb_le; lia).
  specialize (Ht eq_refl). lia.
Qed.

Lemma trace_early_stop k :
  ngen_no_change = Some k ->
  (length sts < remaining)%nat ->
  (Z.to_nat k <= length sts)%nat
  /\ forall i a b, (length sts - Z.to_nat k < i <= length sts)%nat ->
       (s0 :: sts) !! (i - 1)%nat = Some a -> (s0 :: sts) !! i = Some b -> stagnant a b.
Proof.
  intros Hk Hlt.
  destruct (trace_last_step Hlt) as (a & b & Ha & Hb & H0 & Hstep).
  apply gen_step_stop in Hstep. rewrite Hk in Hstep.
  symmetry in Hstep. apply Z.leb_le in Hstep.
  destruct (wait_counts _ _ _ _ Htrace Hwait0 _ b Hb) as (cnt & Hw & Hle & Hstag & _).
  split; [lia |].
  intros i x y Hi Hx Hy. apply (Hstag i x y); [lia | assumption..].
Qed.

End StopProperties.

(* ===================================================================== *)
(** ** The claims on the population, the loop and the variation *)
(* ===================================================================== *)

(** C2.  For [1 <= max_features <= n_features], the population initializer registered by
    [_fit] never raises, and every chromosome it produces has [n_hparam_bits hparams]
    hyperparameter bits followed by a feature segment of [n_features] bits of which at
    least 1 and at most [max_features] are set; its fitness is not evaluated yet. *)
Theorem C2_initial_population sk self n_features max_features_ est k w :
  hparam_bits self = n_hparam_bits (hparams self) ->
  1 <= max_features_ <= Z.of_nat n_features ->
  exists pop w',
    initRepeat (tb_individual (make_toolbox sk self n_features max_features_ est)) k w
    = inr (pop, w')
    /\ length pop = k
    /\ Forall (fun ind =>
                 fitness ind = None
                 /\ length (genes ind) = (n_hparam_bits (hparams self) + n_features)%nat
                 /\ length (take (n_hparam_bits (hparams self)) (genes ind))
                    = n_hparam_bits (hparams self)
                 /\ length (feature_segment (hparams self) (genes ind)) = n_features
                 /\ 1 <= np_sum (feature_segment (hparams self) (genes ind))
                    <= max_features_) pop.
Proof.
  intros Hhb Hmf.
  destruct (run_initial_population sk self n_features max_features_ est k Hhb Hmf w)
    as (pop & w' & E & _ & Hl & Hpop).
  exists pop, w'. split; [exact E |]. split; [exact Hl |].
  eapply Forall_impl; [exact Hpop |].
  intros ind (Hf & HL & Hfl & Hs). cbn beta.
  split; [exact Hf |]. split; [lia |]. split; [rewrite length_take; lia |].
  split; [lia | exact Hs].
Qed.

(** C4 as stated fails: for the comparison by the weighted sum, the best-ever fitness
    decreases.  From three copies of the chromosome [1000], of fitness (0.5, 1, 0) and
    weighted sum 0.4, one generation whose mutation negates every bit gives the
    chromosome [0111], of fitness (0.6, 3, 0): the hall of fame takes it, its score being
    greater, and its weighted sum is 0.3. *)
Lemma C4_weighted_sum_decreases :
  value flip_run w0
  = Some [(Some [true; false; false; false], Some ((1 # 2)%Q, 1, 0%Q), Some (2 # 5)%Q);
          (Some [false; true; true; true], Some ((3 # 5)%Q, 3, 0%Q), Some (3 # 10)%Q)]
  /\ (3 # 10 < 2 # 5)%Q.
Proof. split; [vm_compute; reflexivity | reflexivity]. Qed.

(** C4, amended.  Along a run of the loop with the toolbox of [_fit] and a hall of fame
    of size 1, the fitness of the best-ever individual never decreases for the order that
    the hall of fame uses, the lexicographic order of the weighted fitness values (and
    not the order of their sum), from any state of the run to any later one; and the
    hall of fame is left unchanged by a generation in which no individual of the new
    population has a fitness strictly greater than the best-ever one.  The scores are
    numbers. *)
Theorem C4_hall_of_fame_monotone sk self n_features max_features_ est L pop w :
  hparams_ok (hparams self) -> (n_hparam_bits (hparams self) <= L)%nat ->
  0 < tournament_size self ->
  pop <> [] -> Forall (fun ind => length (genes ind) = L) pop ->
  exists tr w',
    ea_trace pop (make_toolbox sk self n_features max_features_ est)
      (crossover_proba self) (mutation_proba self) (n_generations self)
      (n_gen_no_change self) (Some (mkHof 1 [])) (hparams self) w = inr (tr, w')
    /\ (forall g g' s s', (g <= g')%nat -> tr !! g = Some s -> tr !! g' = Some s' ->
          fitness_le (best_fitness s) (best_fitness s') = true)
    /\ (forall g s s', tr !! g = Some s -> tr !! S g = Some s' ->
          Forall (fun x => fitness_gt (fitness x) (best_fitness s) = false)
                 (population s') ->
          halloffame s' = halloffame s).
Proof.
  intros Hok HL Hts Hne Hpop.
  destruct (run_trace sk self n_features max_features_ est L pop Hok HL Hts Hne Hpop w)
    as (tr & w' & E & _ & s0 & sts & -> & _ & _ & _ & Htr & _).
  exists (s0 :: sts), w'. split; [exact E |]. split.
  - intros g g' s s' Hle Hs Hs'. by eapply trace_best_monotone.
  - intros g s s' Hs Hs' Hno.
    destruct (trace_ok_step _ _ _ _ Htr g s s' Hs Hs') as (stop & Hstep & _).
    by eapply gen_step_persist.
Qed.

(** C5.  A run of the loop with the toolbox of [_fit] never raises and runs at most
    [n_generations] generations.  Without a stagnation limit it runs exactly
    [n_generations] generations.  With the limit [k], a generation at the end of which the
    bits of the best-ever individual have been the same for the last [k] generations is
    the last one; and a run that stops before the budget is used up ends with [k] such
    generations. *)
Theorem C5_stagnation_stop sk self n_features max_features_ est L pop w :
  hparams_ok (hparams self) -> (n_hparam_bits (hparams self) <= L)%nat ->
  0 < tournament_size self ->
  pop <> [] -> Forall (fun ind => length (genes ind) = L) pop ->
  exists s0 sts w',
    ea_trace pop (make_toolbox sk self n_features max_features_ est)
      (crossover_proba self) (mutation_proba self) (n_generations self)
      (n_gen_no_change self) (Some (mkHof 1 [])) (hparams self) w = inr (s0 :: sts, w')
    /\ (length sts <= Z.to_nat (n_generations self))%nat
    /\ (n_gen_no_change self = None -> length sts = Z.to_nat (n_generations self))
    /\ (forall k, n_gen_no_change self = Some k ->
          (forall g, (1 <= g <= length sts)%nat -> (Z.to_nat k <= g)%nat ->
             (forall i a b, (g - Z.to_nat k < i <= g)%nat ->
                (s0 :: sts) !! (i - 1)%nat = Some a -> (s0 :: sts) !! i = Some b ->
                stagnant a b) ->
             g = length sts)
          /\ ((length sts < Z.to_nat (n_generations self))%nat ->
              (Z.to_nat k <= length sts)%nat
              /\ forall i a b, (length sts - Z.to_nat k < i <= length sts)%nat ->
                   (s0 :: sts) !! (i - 1)%nat = Some a -> (s0 :: sts) !! i = Some b ->
                   stagnant a b)).
Proof.
  intros Hok HL Hts Hne Hpop.
  destruct (run_trace sk self n_features max_features_ est L pop Hok HL Hts Hne Hpop w)
    as (tr & w' & E & _ & s0 & sts & -> & _ & Hw0 & _ & Htr & _).
  exists s0, sts, w'. split; [exact E |].
  split; [by eapply trace_ok_length |].
  split; [intros Hnone; by eapply trace_no_limit |].
  intros k Hk. split.
  - intros g Hg Hkg Hstag. by eapply trace_stagnation_stops.
  - intros Hlt. by eapply trace_early_stop.
Qed.

(** C6.  With hyperparameters configured, the variation of offspring of
    [length names * bitwidth + n_features] bits never raises and keeps their number.  There
    is one varied population per hyperparameter, the result of [varAnd] on the segments
    of [bitwidth] bits at the offset of that hyperparameter, and one for the feature
    segment, the result of [varAnd] on what follows the hyperparameter segments.  Every
    new chromosome has [length names * bitwidth + n_features] bits; its [j]-th segment of
    [bitwidth] bits is the [j]-th varied segment, its feature segment is the varied
    feature segment of [n_features] bits, and it is their concatenation in this order. *)
Theorem C6_segmentwise_variation sk self n_features max_features_ est hp offspring w :
  Forall (fun ind => length (genes ind)
                     = (length (names hp) * bitwidth hp + n_features)%nat) offspring ->
  let toolbox := make_toolbox sk self n_features max_features_ est in
  let cxpb := crossover_proba self in
  let mutpb := mutation_proba self in
  exists result w' (segs : list (list individual)) (gf : list individual),
    vary toolbox cxpb mutpb (Some hp) offspring w = inr (result, w')
    /\ length result = length offspring
    /\ length segs = length (names hp)
    /\ (forall j seg, segs !! j = Some seg ->
          varied toolbox cxpb mutpb
            (segment_pop (j * bitwidth hp) (bitwidth hp) offspring) seg)
    /\ varied toolbox cxpb mutpb
         (feature_pop (length (names hp) * bitwidth hp) offspring) gf
    /\ forall i new, result !! i = Some new ->
         fitness new = None
         /\ length (genes new) = (length (names hp) * bitwidth hp + n_features)%nat
         /\ (forall j seg, segs !! j = Some seg ->
               exists h, seg !! i = Some h
                         /\ length (genes h) = bitwidth hp
                         /\ hparam_segment (bitwidth hp) j (genes new) = genes h)
         /\ (exists f, gf !! i = Some f
                       /\ length (genes f) = n_features
                       /\ feature_segment (Some hp) (genes new) = genes f)
         /\ genes new
            = concat (map (fun seg => from_option genes [] (seg !! i)) segs)
              ++ from_option genes [] (gf !! i).
Proof.
  intros Hoff toolbox cxpb mutpb.
  destruct (run_vary_hparams sk self n_features max_features_ est hp offspring w)
    as (result & w' & E & _ & Hre).
  destruct (rebuilt_shape _ _ _ hp n_features offspring result Hoff Hre)
    as (segs & gf & Hlen & Hsegs & Hgf & Hrl & Hres).
  exists result, w', segs, gf. by repeat (split; [assumption |]).
Qed.

(* ===================================================================== *)
(** ** [_fit] *)
(* ===================================================================== *)

Section Fit.

Context (sk : scoring) (self : GeneticSelectionCV_mod) (n_features : nat).

Lemma decode_best_params_total hp bits hnames : forall j i bp w,
  (0 < bitwidth hp)%nat ->
  (j + length hnames <= length (range hp))%nat ->
  (i + length hnames * bitwidth hp <= length bits)%nat ->
  exists bp', decode_best_params hp bits j i hnames bp w = inr (bp', w).
Proof.
  induction hnames as [| hparam rest IH]; intros j i bp w Hbw Hr Hlen.
  - exists bp. reflexivity.
  - simpl in Hr, Hlen. cbn [decode_best_params].
    assert (Hs : slice bits i (i + bitwidth hp) <> [])
      by (apply slice_nonempty; lia).
    rewrite (bind_eq _ _ _ _ _ (int_base2_nonempty _ w Hs)).
    assert (Hj : (j < length (range hp))%nat) by lia.
    destruct (lookup_lt_is_Some_2 (range hp) j Hj) as [pr Hpr].
    assert (Hra : range_at hp j w = inr (pr, w)) by (unfold range_at; by rewrite Hpr).
    rewrite (bind_eq _ _ _ _ _ Hra).
    rewrite (bind_eq _ _ _ _ _ (phenotype_defined _ _ _ _ w Hbw)).
    apply IH; [exact Hbw | lia | lia].
Qed.

Lemma final_attributes_total L b w :
  hparams_ok (hparams self) ->
  hparam_bits self = n_hparam_bits (hparams self) ->
  length (genes b) = (n_hparam_bits (hparams self) + L)%nat ->
  exists fin,
    final_attributes self (mkHof 1 [b]) w = inr (fin, w)
    /\ fin.1 = feature_segment (hparams self) (genes b)
    /\ length fin.1 = L.
Proof.
  intros Hok Hhb Hb. unfold final_attributes. cbn [hof_head items].
  change (bind (ret b) ?k) with (k b). cbn beta.
  rewrite Hhb. destruct (hparams self) as [hp |] eqn:Ehp.
  - destruct Hok as [Hbw Hr]. cbn [n_hparam_bits] in *.
    destruct (decode_best_params_total hp
                (take (length (names hp) * bitwidth hp) (genes b)) (names hp)
                0 0 ∅ w Hbw ltac:(lia) ltac:(rewrite length_take; lia)) as [bp Ebp].
    rewrite (bind_eq _ _ _ _ _ Ebp).
    eexists. split; [reflexivity |]. cbn [fst]. unfold feature_segment.
    cbn [n_hparam_bits]. split; [reflexivity |]. rewrite length_drop. lia.
  - cbn [n_hparam_bits] in *. eexists. split; [reflexivity |].
    cbn [fst]. unfold feature_segment. cbn [n_hparam_bits].
    split; [by rewrite drop_0 | lia].
Qed.

(** The final decoding reports floats only: no value is rounded. *)
Lemma decode_best_params_floats hp bits hnames : forall j i bp w bp' w',
  (forall name v, bp !! name = Some v -> exists p, v = PFloat p) ->
  decode_best_params hp bits j i hnames bp w = inr (bp', w') ->
  forall name v, bp' !! name = Some v -> exists p, v = PFloat p.
Proof.
  induction hnames as [| hparam rest IH]; intros j i bp w bp' w' Hbp E.
  - cbn in E. injection E as <- _. exact Hbp.
  - cbn [decode_best_params] in E.
    apply bind_inr in E as (dec_val & w1 & _ & E).
    apply bind_inr in E as (pr & w2 & _ & E).
    apply bind_inr in E as (p & w3 & _ & E).
    eapply IH; [| exact E].
    intros name v Hv. destruct (decide (hparam = name)) as [-> | Hne].
    + rewrite lookup_insert_eq in Hv. injection Hv as <-. eauto.
    + rewrite lookup_insert_ne in Hv by exact Hne. eauto.
Qed.

Lemma final_attributes_floats hp hof w fin w' :
  hparams self = Some hp ->
  final_attributes self hof w = inr (fin, w') ->
  forall name v, fin.2 !! name = Some v -> exists p, v = PFloat p.
Proof.
  intros Hhp E. unfold final_attributes in E. rewrite Hhp in E.
  apply bind_inr in E as (best & w1 & _ & E).
  apply bind_inr in E as (bp & w2 & Ebp & E).
  injection E as <- _. cbn [snd].
  eapply decode_best_params_floats; [| exact Ebp].
  intros name v Hv. rewrite lookup_empty in Hv. discriminate.
Qed.

Lemma check_max_features_ok w :
  match max_features self with
  | Some mf => 1 <= mf <= Z.of_nat n_features
  | None => (1 <= n_features)%nat
  end ->
  exists mf, check_max_features self n_features w = inr (mf, w)
             /\ 1 <= mf <= Z.of_nat n_features.
Proof.
  unfold check_max_features. destruct (max_features self) as [mf |]; intros H.
  - exists mf. split; [| exact H].
    destruct (Z.ltb_spec mf 1), (Z.ltb_spec (Z.of_nat n_features) mf);
      try lia; reflexivity.
  - exists (Z.of_nat n_features). split; [reflexivity | lia].
Qed.

Lemma eaFunction_total max_features_ est L pop w :
  hparams_ok (hparams self) -> (n_hparam_bits (hparams self) <= L)%nat ->
  0 < tournament_size self ->
  pop <> [] -> Forall (fun ind => length (genes ind) = L) pop ->
  exists st w',
    _eaFunction pop (make_toolbox sk self n_features max_features_ est)
      (crossover_proba self) (mutation_proba self) (n_generations self)
      (n_gen_no_change self) (Some (mkHof 1 [])) (hparams self) w = inr (st, w')
    /\ eval_frame est (scores_cache self) w w'
    /\ loop_inv L st.
Proof.
  intros Hok HL Hts Hne Hpop.
  destruct (run_trace sk self n_features max_features_ est L pop Hok HL Hts Hne Hpop w)
    as (tr & w' & E & F & s0 & sts & -> & Hinv0 & _ & _ & _ & Hinv).
  unfold _eaFunction. rewrite (bind_eq _ _ _ _ _ E).
  destruct (last (s0 :: sts)) as [st |] eqn:El.
  - exists st, w'. split; [reflexivity |]. split; [exact F |].
    apply last_Some_elem_of in El.
    apply elem_of_cons in El as [-> | Hin]; [exact Hinv0 |].
    rewrite Forall_forall in Hinv. by apply Hinv.
  - apply last_None in El. discriminate.
Qed.

(** [_fit] returns on a configuration it accepts; in the store it only allocates its two
    clones of the estimator and adds entries to the cache of the selector. *)
Lemma fit_spec w :
  fit_ok self n_features ->
  exists f w',
    _fit sk self n_features w = inr (f, w')
    /\ fit_frame self w w'
    /\ length (support_ f) = n_features.
Proof.
  intros (Hmf & Hjobs & Hok & Hhb & Hnpop & Hts).
  unfold _fit.
  destruct (check_max_features_ok w Hmf) as (mf & Emf & Hmfr).
  rewrite (bind_eq _ _ _ _ _ Emf).
  set (l := next_loc w).
  set (w1 := mkWorld (<[l := ests w !!! estimator self]> (ests w)) (dicts w) (S l)
                     (cv_calls w) (rand w)).
  assert (Ecl : clone (estimator self) w = inr (l, w1)) by reflexivity.
  rewrite (bind_eq _ _ _ _ _ Ecl).
  destruct (Z.eqb_spec (n_jobs self) 0) as [| _]; [done |].
  set (L := (n_hparam_bits (hparams self) + n_features)%nat).
  destruct (run_initial_population sk self n_features mf l
              (Z.to_nat (n_population self)) Hhb Hmfr w1)
    as (pop & w2 & Epop & F12 & Hpl & Hpop).
  rewrite (bind_eq _ _ _ _ _ Epop).
  assert (HpopL : Forall (fun ind => length (genes ind) = L) pop).
  { eapply Forall_impl; [exact Hpop |]. intros ind (_ & HlenZ & _). subst L. lia. }
  assert (Hne : pop <> []) by (intros ->; simpl in Hpl; lia).
  destruct (eaFunction_total mf l L pop w2 Hok ltac:(subst L; lia) Hts Hne HpopL)
    as (st & w3 & Eea & F23 & (_ & _ & b & Hhof & Hb)).
  rewrite (bind_eq _ _ _ _ _ Eea). rewrite Hhof.
  destruct (final_attributes_total n_features b w3 Hok Hhb Hb) as (fin & Efin & _ & Hfl).
  rewrite (bind_eq _ _ _ _ _ Efin).
  eexists _, _. split; [reflexivity |]. cbn [support_].
  split; [| exact Hfl].
  destruct F12 as (E12 & D12 & C12 & N12). destruct F23 as (E23 & D23 & C23 & N23).
  assert (Hn3 : next_loc w3 = S l) by (rewrite N23, N12; reflexivity).
  repeat split; cbn [ests dicts next_loc].
  - intros x Hx. fold l in Hx.
    rewrite lookup_insert_ne by lia.
    rewrite E23 by lia. rewrite E12 by lia.
    subst w1. cbn [ests]. rewrite lookup_insert_ne by lia. reflexivity.
  - intros d Hd. rewrite D23 by exact Hd. rewrite D12 by exact Hd. reflexivity.
  - intros key v Hk. apply C23, C12. exact Hk.
  - rewrite Hn3. subst l. lia.
Qed.


End Fit.

(* ===================================================================== *)
(** ** The estimator of a run and the cache of a selector *)
(* ===================================================================== *)

Section Estimator.

Context (sk : scoring) (est c : nat) (max_features : Z) (hparams : option hparams_t).
Hypothesis Hok : hparams_ok hparams.


End Estimator.

(** C8 (the code at the failing input).  With [max_depth] in [1, 10] on 4 bits and the
    bits [0001], the phenotype is [1 + 1 * (9 / 15) = 1.6]: the evaluation assigns the
    integer 2 to the estimator, and the final decoding of the same chromosome reports
    1.6, not rounded.  A whole run of [fit] reports [max_depth = 3.4]. *)
Theorem C8_final_decode_unrounded :
  value depth_evaluated w0 = Some (Some (PInt 2))
  /\ value depth_reported w0 = Some ([true], Some (PFloat (8 # 5)))
  /\ value fit_depth w0 = Some ([true], [("max_depth"%string, PFloat (17 # 5))]).
Proof. repeat split; vm_compute; reflexivity. Qed.



(** C10 as stated fails: on a selector that has been fitted once, the second fit starts
    with the entry that the first one wrote in the cache, and reads it: it makes no call
    of [cross_val_score]. *)
Lemma C10_cache_survives_fit :
  value two_fits w0 = Some ([([true], ((1 # 3)%Q, 0%Q))], 1%nat, 1%nat).
Proof. vm_compute. reflexivity. Qed.

(** C10, amended.  The cache is created empty by [__init__] and belongs to the selector:
    [_fit] hands it to the evaluations as it is and never clears it.  Every entry present
    when a call of [fit] starts, such as the entries written by an earlier call on the
    same selector, is present with the same value when the call returns. *)
Theorem C10_cache_lives_with_selector sk :
  (forall estimator max_features n_jobs n_population crossover_proba mutation_proba
          n_generations crossover_independent_proba mutation_independent_proba
          tournament_size n_gen_no_change hparams caching w,
     exists self w',
       __init__ estimator max_features n_jobs n_population crossover_proba
         mutation_proba n_generations crossover_independent_proba
         mutation_independent_proba tournament_size n_gen_no_change hparams caching w
       = inr (self, w')
       /\ dicts w' !!! scores_cache self = ∅
       /\ hparam_bits self = n_hparam_bits (Gscv.hparams self))
  /\ (forall self n_features w,
        fit_ok self n_features ->
        exists f w',
          fit sk self n_features w = inr (f, w')
          /\ forall key v,
               (dicts w !!! scores_cache self) !! key = Some v ->
               (dicts w' !!! scores_cache self) !! key = Some v).
Proof.
  split.
  - intros. eexists _, _. split; [reflexivity |].
    cbn [scores_cache dicts hparam_bits Gscv.hparams].
    split; [apply lookup_total_insert_eq | reflexivity].
  - intros self n_features w Hfit.
    destruct (fit_spec sk self n_features w Hfit) as (f & w' & E & (_ & _ & F & _) & _).
    exists f, w'. split; [exact E | exact F].
Qed.

(* ===================================================================== *)
(** ** The statements at concrete configurations *)
(* ===================================================================== *)

Lemma C1_witness :
  hparams_ok (Some hp_C)
  /\ chromosome_ok (Some hp_C) [true; false; true; true; true]
  /\ exists w',
       _evalFunction sk_C [true; false; true; true; true] 0 2 (Some hp_C) true 1 w0
       = inr ((inject_Z (-10000),
               np_sum (feature_segment (Some hp_C) [true; false; true; true; true]),
               inject_Z 10000), w')
       /\ cv_calls w' = cv_calls w0 /\ dicts w' = dicts w0.
Proof.
  assert (H1 : hparams_ok (Some hp_C)) by (split; simpl; lia).
  assert (H2 : chromosome_ok (Some hp_C) [true; false; true; true; true])
    by (unfold chromosome_ok; simpl; lia).
  split; [exact H1 |]. split; [exact H2 |].
  apply (C1_infeasible_sentinel sk_C [true; false; true; true; true] 0 2 (Some hp_C)
           true 1 w0 H1 H2).
  right. vm_compute. reflexivity.
Defined.

Lemma C2_witness :
  exists pop w',
    initRepeat (tb_individual (make_toolbox sk_C (C_selector 1) 3 2 0)) 2 w0
    = inr (pop, w')
    /\ length pop = 2%nat
    /\ Forall (fun ind =>
                 fitness ind = None
                 /\ length (genes ind) = (n_hparam_bits (Some hp_C) + 3)%nat
                 /\ length (take (n_hparam_bits (Some hp_C)) (genes ind))
                    = n_hparam_bits (Some hp_C)
                 /\ length (feature_segment (Some hp_C) (genes ind)) = 3%nat
                 /\ 1 <= np_sum (feature_segment (Some hp_C) (genes ind)) <= 2) pop.
Proof.
  apply (C2_initial_population sk_C (C_selector 1) 3 2 0 2 w0).
  - reflexivity.
  - simpl. lia.
Defined.

Lemma C3_witness :
  exists w2,
    _evalFunction sk_C [true; true; true] 0 2 (Some hp_C) true 1
      (scored_world true 1 [true] (3, 0)%Q w0)
    = inr ((3%Q, 1, 0%Q), w2)
    /\ cv_calls w2 = 1%nat.
Proof.
  assert (H1 : hparams_ok (Some hp_C)) by (split; simpl; lia).
  assert (H2 : chromosome_ok (Some hp_C) [true; true; true])
    by (unfold chromosome_ok; simpl; lia).
  destruct (C3_cache_hit sk_C [true; true; true] 0 2 (Some hp_C) 1 H1 H2) as [Hhit _].
  destruct (Hhit (scored_world true 1 [true] (3, 0)%Q w0) (3, 0)%Q)
    as (w2 & E & Hc & _).
  - vm_compute. discriminate.
  - vm_compute. discriminate.
  - vm_compute. reflexivity.
  - exists w2. split; [exact E | exact Hc].
Defined.

Lemma C4_witness :
  exists tr w',
    ea_trace pop_C (make_toolbox sk_C (C_selector 1) 1 1 0)
      (1 # 2) (1 # 5) 3 (Some 2) (Some (mkHof 1 [])) (Some hp_C) w0 = inr (tr, w')
    /\ (forall g g' s s', (g <= g')%nat -> tr !! g = Some s -> tr !! g' = Some s' ->
          fitness_le (best_fitness s) (best_fitness s') = true)
    /\ (forall g s s', tr !! g = Some s -> tr !! S g = Some s' ->
          Forall (fun x => fitness_gt (fitness x) (best_fitness s) = false)
                 (population s') ->
          halloffame s' = halloffame s).
Proof.
  apply (C4_hall_of_fame_monotone sk_C (C_selector 1) 1 1 0 3 pop_C w0).
  - split; simpl; lia.
  - simpl. lia.
  - simpl. lia.
  - discriminate.
  - repeat constructor.
Defined.

Lemma C5_witness :
  exists s0 sts w',
    ea_trace pop_C (make_toolbox sk_C (C_selector 1) 1 1 0)
      (1 # 2) (1 # 5) 3 (Some 2) (Some (mkHof 1 [])) (Some hp_C) w0
    = inr (s0 :: sts, w')
    /\ (length sts <= 3)%nat.
Proof.
  destruct (C5_stagnation_stop sk_C (C_selector 1) 1 1 0 3 pop_C w0)
    as (s0 & sts & w' & E & Hle & _).
  - split; simpl; lia.
  - simpl. lia.
  - simpl. lia.
  - discriminate.
  - repeat constructor.
  - exists s0, sts, w'. split; [exact E | exact Hle].
Defined.

Lemma C6_witness :
  exists result w',
    vary (make_toolbox sk_C (C_selector 1) 1 1 0) (1 # 2) (1 # 5) (Some hp_C) pop_C w0
    = inr (result, w')
    /\ length result = 3%nat
    /\ forall i new, result !! i = Some new -> length (genes new) = 3%nat.
Proof.
  destruct (C6_segmentwise_variation sk_C (C_selector 1) 1 1 0 hp_C pop_C w0)
    as (result & w' & segs & gf & E & Hl & _ & _ & _ & Hres).
  - repeat constructor.
  - exists result, w'. split; [exact E |]. split; [exact Hl |].
    intros i new Hnew. destruct (Hres i new Hnew) as (_ & Hlen & _). exact Hlen.
Defined.

Lemma C7_witness :
  exists mean std w1 w2,
    _evalFunction sk_C [true; true; true] 0 2 (Some hp_C) true 1 w0
    = inr ((mean, 1, std), w1)
    /\ _evalFunction sk_C [false; true; true] 0 2 (Some hp_C) true 1 w1
       = inr ((mean, 1, std), w2)
    /\ cv_calls w2 = cv_calls w1.
Proof.
  destruct (C7_cache_key_is_feature_segment sk_C hp_C [true; true; true]
              [false; true; true] 0 2 1 w0)
    as (mean & std & w1 & w2 & E1 & _ & E2 & Hc & _).
  - split; simpl; lia.
  - unfold chromosome_ok. simpl. lia.
  - unfold chromosome_ok. simpl. lia.
  - reflexivity.
  - vm_compute. discriminate.
  - vm_compute. discriminate.
  - exists mean, std, w1, w2. split; [exact E1 |]. split; [exact E2 | exact Hc].
Defined.


Lemma C10_witness :
  fit_ok (plain_selector 1) 1
  /\ (dicts w_cached !!! 1%nat) !! [true] = Some ((1 # 3)%Q, 0%Q)
  /\ exists f w',
       fit sk0 (plain_selector 1) 1 w_cached = inr (f, w')
       /\ (dicts w' !!! 1%nat) !! [true] = Some ((1 # 3)%Q, 0%Q).
Proof.
  assert (H : fit_ok (plain_selector 1) 1).
  { unfold fit_ok. simpl. repeat split; try lia; discriminate. }
  assert (Hentry : (dicts w_cached !!! 1%nat) !! [true] = Some ((1 # 3)%Q, 0%Q))
    by (vm_compute; reflexivity).
  split; [exact H |]. split; [exact Hentry |].
  destruct (C10_cache_lives_with_selector sk0) as [_ Hfit].
  destruct (Hfit (plain_selector 1) 1%nat w_cached H) as (f & w' & E & Hkeep).
  exists f, w'. split; [exact E |]. apply Hkeep. exact Hentry.
Defined.

(* ===================================================================== *)
(** ** Invariants carried through a run *)
(* ===================================================================== *)

Section Posts.

Context (I : world -> Prop).

#[export] Instance keeps_preorder : PreOrder (keeps I).
Proof.
  split.
  - intros w Hw. exact Hw.
  - intros w1 w2 w3 H12 H23 Hw. apply H23, H12, Hw.
Qed.

Lemma post_ret {A} (a : A) (Q : A -> Prop) : Q a -> post I (ret a) Q.
Proof. intros HQ w a' w' HI E. injection E as <- <-. by split. Qed.

Lemma post_bind {A B} (m : M A) (k : A -> M B) (P : A -> Prop) (Q : B -> Prop) :
  post I m P -> (forall a, P a -> post I (k a) Q) -> post I (bind m k) Q.
Proof.
  intros Hm Hk w b w2 HI E. apply bind_inr in E as (a & w1 & E1 & E2).
  destruct (Hm w a w1 HI E1) as [HI1 HP]. exact (Hk a HP w1 b w2 HI1 E2).
Qed.

Lemma post_weaken {A} (m : M A) (P Q : A -> Prop) :
  post I m P -> (forall a, P a -> Q a) -> post I m Q.
Proof. intros Hm HPQ w a w' HI E. destruct (Hm w a w' HI E). split; auto. Qed.

Lemma post_conj {A} (m : M A) (P Q : A -> Prop) :
  post I m P -> post I m Q -> post I m (fun a => P a /\ Q a).
Proof.
  intros HP HQ w a w' HI E.
  destruct (HP w a w' HI E) as [HI' Ha], (HQ w a w' HI E) as [_ Hb]. by repeat split.
Qed.

(** A computation has one result: what a total statement says of it holds of the result
    at hand. *)
Lemma post_of_total {A} (m : M A) (Q : A -> Prop) : total (keeps I) m Q -> post I m Q.
Proof.
  intros Ht w a w' HI E. destruct (Ht w) as (a1 & w1 & E1 & HK & HQ).
  rewrite E1 in E. injection E as <- <-. split; [by apply HK | exact HQ].
Qed.

Lemma total_keeps {A} R (m : M A) (P Q : A -> Prop) :
  total R m P -> post I m Q -> total (keeps I) m P.
Proof.
  intros Ht Hp w. destruct (Ht w) as (a & w' & E & _ & HP).
  exists a, w'. split; [exact E |]. split; [| exact HP].
  intros HI. by destruct (Hp w a w' HI E).
Qed.

Lemma triple_intro {A} R (m : M A) (P Q : A -> Prop) :
  total R m P -> post I m Q -> triple I m (fun a => P a /\ Q a).
Proof.
  intros Ht Hp w HI. destruct (Ht w) as (a & w' & E & _ & HP).
  destruct (Hp w a w' HI E) as [HI' HQ]. exists a, w'. by repeat split.
Qed.

End Posts.

(** *** What a variation keeps *)

Lemma kept_mono input input' output :
  (forall x, x ∈ input -> x ∈ input') -> kept input output -> kept input' output.
Proof.
  intros Hsub Hk. eapply Forall_impl; [exact Hk |].
  intros b [Hb | Hb]; [by left | right; by apply Hsub].
Qed.

Lemma kept_refl l : kept l l.
Proof. apply Forall_forall. intros x Hx. by right. Qed.

Lemma kept_trans a b c : kept a b -> kept b c -> kept a c.
Proof.
  intros Hab Hbc. eapply Forall_impl; [exact Hbc |].
  intros x [Hx | Hx]; [by left |].
  unfold kept in Hab. rewrite Forall_forall in Hab. by apply Hab.
Qed.

Lemma kept_Forall (J : individual -> Prop) input output :
  (forall ind, fitness ind = None -> J ind) ->
  Forall J input -> kept input output -> Forall J output.
Proof.
  intros Hnone HJ Hk. eapply Forall_impl; [exact Hk |].
  intros x [Hx | Hx]; [by apply Hnone |].
  rewrite Forall_forall in HJ. by apply HJ.
Qed.

Lemma varAnd_mate_kept tb cxpb n : forall offspring w r w',
  (length offspring <= n)%nat ->
  varAnd_mate tb cxpb offspring w = inr (r, w') -> kept offspring r.
Proof.
  induction n as [| n IH]; intros offspring w r w' Hn E.
  - destruct offspring; [| simpl in Hn; lia].
    cbn in E. injection E as <- _. constructor.
  - destruct offspring as [| a [| b rest]].
    + cbn in E. injection E as <- _. constructor.
    + cbn in E. injection E as <- _. apply kept_refl.
    + cbn [varAnd_mate] in E.
      apply bind_inr in E as (q & w1 & _ & E).
      assert (Hrest : forall rest' wa wb,
                 varAnd_mate tb cxpb rest wa = inr (rest', wb) ->
                 kept (a :: b :: rest) rest').
      { intros rest' wa wb Er. eapply kept_mono; [| eapply (IH rest); [| exact Er]].
        - intros x Hx. by do 2 apply list_elem_of_further.
        - simpl in Hn. lia. }
      destruct (Qltb q cxpb).
      * apply bind_inr in E as (ab & w2 & _ & E).
        apply bind_inr in E as (rest' & w3 & Er & E).
        injection E as <- _.
        repeat (constructor; [by left |]). by eapply Hrest.
      * apply bind_inr in E as (rest' & w3 & Er & E).
        injection E as <- _.
        constructor; [right; apply list_elem_of_here |].
        constructor; [right; apply list_elem_of_further, list_elem_of_here |].
        by eapply Hrest.
Qed.

Lemma varAnd_mutate_kept tb mutpb : forall offspring w r w',
  varAnd_mutate tb mutpb offspring w = inr (r, w') -> kept offspring r.
Proof.
  induction offspring as [| a rest IH]; intros w r w' E.
  - cbn in E. injection E as <- _. constructor.
  - cbn [varAnd_mutate] in E.
    apply bind_inr in E as (q & w1 & _ & E).
    assert (Hrest : forall rest' wa wb,
               varAnd_mutate tb mutpb rest wa = inr (rest', wb) ->
               kept (a :: rest) rest').
    { intros rest' wa wb Er. eapply kept_mono; [| by eapply IH].
      intros x Hx. by apply list_elem_of_further. }
    destruct (Qltb q mutpb).
    + apply bind_inr in E as (a' & w2 & _ & E).
      apply bind_inr in E as (rest' & w3 & Er & E).
      injection E as <- _. constructor; [by left | by eapply Hrest].
    + apply bind_inr in E as (rest' & w3 & Er & E).
      injection E as <- _.
      constructor; [right; apply list_elem_of_here | by eapply Hrest].
Qed.

Lemma varAnd_kept tb cxpb mutpb population w r w' :
  varAnd population tb cxpb mutpb w = inr (r, w') -> kept population r.
Proof.
  intros E. unfold varAnd in E. apply bind_inr in E as (mid & w1 & E1 & E2).
  eapply kept_trans.
  - by eapply (varAnd_mate_kept tb cxpb (length population)).
  - by eapply varAnd_mutate_kept.
Qed.

(** After the variation of lines 75-87 an individual that has a fitness is one of the
    selected individuals, unchanged; with hyperparameters no individual has one. *)
Lemma vary_kept tb cxpb mutpb hparams offspring w r w' :
  vary tb cxpb mutpb hparams offspring w = inr (r, w') ->
  kept offspring r
  /\ (is_Some hparams -> Forall (fun ind => fitness ind = None) r).
Proof.
  intros E. destruct hparams as [hp |]; cbn [vary] in E.
  - apply bind_inr in E as (segs & w1 & _ & E).
    apply bind_inr in E as (gf & w2 & _ & E).
    injection E as <- _.
    assert (Hnone : Forall (fun ind => fitness ind = None)
              (map (fun ind => Individual_new (concat (map genes ind)))
                   (zip_star (segs.1 ++ [gf])))).
    { apply Forall_forall. intros x Hx.
      apply list_elem_of_fmap in Hx as (y & -> & _). reflexivity. }
    split; [| by intros _].
    eapply Forall_impl; [exact Hnone |]. intros x Hx. by left.
  - split; [by eapply varAnd_kept |]. intros [x Hx]. discriminate.
Qed.

Lemma invalid_count_le pop : (invalid_count pop <= length pop)%nat.
Proof. apply length_filter. Qed.

Lemma invalid_count_none pop :
  Forall (fun ind => fitness ind = None) pop -> invalid_count pop = length pop.
Proof.
  unfold invalid_count. induction 1 as [| x l Hx _ IH]; [reflexivity |].
  rewrite filter_cons_True; [| by rewrite Hx]. simpl. by rewrite IH.
Qed.

(** *** The loop, for an invariant of the store and a property of the individuals *)

Section GenericRun.

Context (I : world -> Prop) (J : individual -> Prop) (tb : Toolbox) (L : nat).
Hypothesis I_rand : forall w w', same_store w w' -> keeps I w w'.
Hypothesis J_none : forall ind, fitness ind = None -> J ind.
Hypothesis Hmate : mate_ok (keeps I) tb.
Hypothesis Hmut : mutate_ok (keeps I) tb.
Hypothesis Hsel : select_ok (keeps I) tb.
Hypothesis Heval_ok : evaluate_ok (keeps I) L tb.
Hypothesis Heval : forall ind, length (genes ind) = L ->
  post I (tb_evaluate tb ind) (fun fit => J (mkInd (genes ind) (Some fit))).

Lemma evaluate_invalid_inv pop :
  Forall (fun ind => length (genes ind) = L) pop -> Forall J pop ->
  post I (evaluate_invalid tb pop)
    (fun r => Forall J r.1 /\ r.2 = invalid_count pop).
Proof.
  induction pop as [| ind rest IH]; intros Hlen HJ.
  - apply post_ret. by split.
  - apply Forall_cons in Hlen as [Hl Hlen]. apply Forall_cons in HJ as [Hj HJ].
    cbn [evaluate_invalid]. unfold invalid_count.
    destruct (valid (fitness ind)) eqn:Ev.
    + rewrite filter_cons_False; [| by rewrite Ev].
      eapply post_bind; [exact (IH Hlen HJ) |].
      intros r [Hr1 Hr2]. apply post_ret. cbn [fst snd]. split; [by constructor | exact Hr2].
    + rewrite filter_cons_True; [| exact Ev].
      eapply post_bind; [exact (Heval ind Hl) |].
      intros fit Hfit. eapply post_bind; [exact (IH Hlen HJ) |].
      intros r [Hr1 Hr2]. apply post_ret. cbn [fst snd].
      split; [by constructor | simpl; by rewrite Hr2].
Qed.

Lemma generation_inv cxpb mutpb ngen_no_change hparams gen st :
  (n_hparam_bits hparams <= L)%nat -> loop_inv L st -> state_inv J st ->
  post I (generation tb cxpb mutpb ngen_no_change hparams 1 gen st)
    (fun r => state_inv J r.1 /\ gen_log hparams gen st r.1).
Proof.
  intros HL (Hne & Hlen & b & Hhof & Hb) [HJp HJh] w r w' HI E.
  unfold generation in E.
  apply bind_inr in E as (sel & w1 & Esel & E).
  assert (HP : Forall (fun ind => length (genes ind) = L /\ J ind) (population st)).
  { apply Forall_and. by split. }
  destruct (post_of_total I _ _
              (Hsel (population st) (length (population st) - 1)%nat _ Hne HP)
              w sel w1 HI Esel) as (HI1 & Hsl & Hsel').
  apply Forall_and in Hsel' as [HselL HselJ].
  apply bind_inr in E as (off & w2 & Evar & E).
  destruct (post_of_total I _ _
              (total_vary (keeps I) I_rand tb cxpb mutpb Hmate Hmut hparams L sel
                 HL HselL) w1 off w2 HI1 Evar) as (HI2 & Hol & HoL).
  destruct (vary_kept _ _ _ _ _ _ _ _ Evar) as [Hk Hnone].
  assert (HoJ : Forall J off) by (by eapply kept_Forall).
  apply bind_inr in E as (ev & w3 & Eev & E).
  destruct (evaluate_invalid_inv off HoL HoJ w2 ev w3 HI2 Eev) as (HI3 & HevJ & Hn).
  rewrite Hhof in E. cbn [hof_head items] in E.
  change (bind (ret b) ?k) with (k b) in E. cbn beta in E.
  rewrite Hhof in HJh. cbn [items] in HJh. apply Forall_cons in HJh as [HJb _].
  rewrite hof_update_one in E.
  change (bind (ret ?h) ?k) with (k h) in E. cbn beta in E.
  cbn [hof_head items] in E.
  change (bind (ret ?h) ?k) with (k h) in E. cbn beta in E.
  injection E as <- <-. split; [exact HI3 |]. cbn [fst].
  assert (HJnew : Forall J (ev.1 ++ [b])).
  { apply Forall_app. split; [exact HevJ | by constructor]. }
  split.
  - split; cbn [population halloffame items]; [exact HJnew |].
    constructor; [| constructor]. by apply best_of_pick.
  - exists ev.2. cbn [logbook]. split; [reflexivity |].
    pose proof (invalid_count_le off) as Hle.
    split; [lia |]. intros Hhp. rewrite Hn, <- Hsl, <- Hol.
    apply invalid_count_none. by apply Hnone.
Qed.

Lemma ea_loop_inv cxpb mutpb ngen_no_change hparams : forall remaining gen st,
  (n_hparam_bits hparams <= L)%nat -> loop_inv L st -> state_inv J st ->
  post I (ea_loop tb cxpb mutpb ngen_no_change hparams 1 remaining gen st)
    (fun sts => Forall (state_inv J) sts /\ trace_log hparams gen st sts).
Proof.
  induction remaining as [| remaining IH]; intros gen st HL Hinv HJ.
  - apply post_ret. by split.
  - cbn [ea_loop]. eapply post_bind.
    + apply post_conj.
      * exact (generation_inv cxpb mutpb ngen_no_change hparams gen st HL Hinv HJ).
      * apply post_of_total.
        exact (total_generation (keeps I) I_rand tb cxpb mutpb L Hmate Hmut Hsel
                 Heval_ok ngen_no_change hparams gen st HL Hinv).
    + intros [st' stop] [[HJ' Hlog] [_ Hinv']]. cbn [fst snd] in *.
      destruct stop.
      * apply post_ret. split; [constructor; [exact HJ' | constructor] |]. by split.
      * eapply post_bind; [exact (IH (S gen) st' HL Hinv' HJ') |].
        intros rest [HJr Hlr]. apply post_ret. split; [by constructor |]. by split.
Qed.

Lemma ea_init_inv pop :
  pop <> [] -> Forall (fun ind => length (genes ind) = L) pop -> Forall J pop ->
  post I (ea_init pop tb (Some (mkHof 1 [])))
    (fun r => state_inv J r.1 /\ init_state pop r.1).
Proof.
  intros Hne Hlen HJ w r w' HI E. unfold ea_init in E.
  apply bind_inr in E as (ev & w1 & Eev & E).
  destruct (evaluate_invalid_inv pop Hlen HJ w ev w1 HI Eev) as (HI1 & HevJ & Hn).
  destruct (post_of_total I _ _
              (total_evaluate_invalid (keeps I) tb L Heval_ok pop Hlen)
              w ev w1 HI Eev) as (_ & Hev).
  destruct ev as [[| first rest] nev]; cbn [fst snd] in *.
  { apply evaluated_length in Hev. destruct pop; [done | discriminate]. }
  rewrite hof_update_empty in E.
  change (bind (ret ?h) ?k) with (k h) in E. cbn beta in E.
  injection E as <- <-. split; [exact HI1 |]. cbn [fst].
  apply Forall_cons in HevJ as [HJf HJr].
  split.
  - split; cbn [population halloffame items]; [by constructor |].
    constructor; [| constructor]. by apply best_of_pick.
  - split; [exact Hev |]. split; [reflexivity |]. split; [by rewrite Hn |].
    by exists first, rest.
Qed.

Lemma ea_trace_inv pop cxpb mutpb ngen ngen_no_change hparams :
  (n_hparam_bits hparams <= L)%nat ->
  pop <> [] -> Forall (fun ind => length (genes ind) = L) pop -> Forall J pop ->
  triple I (ea_trace pop tb cxpb mutpb ngen ngen_no_change (Some (mkHof 1 [])) hparams)
    (fun tr => exists s0 sts,
       tr = s0 :: sts
       /\ loop_inv L s0
       /\ init_state pop s0
       /\ trace_ok ngen_no_change (Z.to_nat ngen) s0 sts
       /\ Forall (loop_inv L) sts
       /\ Forall (state_inv J) (s0 :: sts)
       /\ trace_log hparams 1 s0 sts).
Proof.
  intros HL Hne Hlen HJ.
  assert (Hpost : post I
            (ea_trace pop tb cxpb mutpb ngen ngen_no_change (Some (mkHof 1 [])) hparams)
            (fun tr => exists s0 sts,
               tr = s0 :: sts /\ init_state pop s0
               /\ Forall (state_inv J) (s0 :: sts) /\ trace_log hparams 1 s0 sts)).
  { unfold ea_trace. eapply post_bind.
    - apply post_conj; [exact (ea_init_inv pop Hne Hlen HJ) |].
      apply post_of_total.
      exact (total_ea_init (keeps I) tb L Heval_ok pop Hne Hlen).
    - intros [s0 k] [[HJ0 Hi0] (Hk & Hinv0 & _)]. cbn [fst snd] in *. subst k.
      eapply post_bind;
        [exact (ea_loop_inv cxpb mutpb ngen_no_change hparams _ 1%nat s0 HL Hinv0 HJ0) |].
      intros sts [HJs Hlog]. apply post_ret. exists s0, sts.
      split; [reflexivity |]. split; [exact Hi0 |]. split; [by constructor | exact Hlog]. }
  pose proof (total_ea_trace (keeps I) I_rand tb cxpb mutpb L Hmate Hmut Hsel Heval_ok
                pop ngen ngen_no_change hparams HL Hne Hlen) as Ht.
  intros w HI. destruct (triple_intro I _ _ _ _ Ht Hpost w HI)
    as (tr & w' & E & HI' & (s0 & sts & -> & Hinv0 & _ & _ & Htr & Hinv)
        & (s0' & sts' & Eq & Hi0 & HJs & Hlog)).
  injection Eq as <- <-.
  exists (s0 :: sts), w'. split; [exact E |]. split; [exact HI' |].
  exists s0, sts. split; [reflexivity |].
  repeat (split; [assumption |]). exact Hlog.
Qed.

End GenericRun.

(* ===================================================================== *)
(** ** One evaluation: its cost and its value *)
(* ===================================================================== *)

Section EvaluationCost.

Context (sk : scoring) (est c : nat) (max_features : Z) (hparams : option hparams_t).
Hypothesis Hok : hparams_ok hparams.

Lemma feasible_dec feats :
  (np_sum feats =? 0) || (max_features <? np_sum feats) = false
  <-> feasible max_features feats.
Proof.
  unfold feasible.
  destruct (Z.eqb_spec (np_sum feats) 0), (Z.ltb_spec max_features (np_sum feats));
    cbn; split; intros; try lia; try discriminate; done.
Qed.

(** The calls of [cross_val_score] and the entries of the cache, for one evaluation. *)
Lemma evalFunction_calls individual caching w :
  chromosome_ok hparams individual ->
  exists fit w',
    _evalFunction sk individual est max_features hparams caching c w = inr (fit, w')
    /\ cv_calls w'
       = (if needs_scoring max_features hparams caching c w individual
          then S (cv_calls w) else cv_calls w)
    /\ dicts w'
       = (if needs_scoring max_features hparams caching c w individual && caching
          then <[c := <[feature_segment hparams individual := (fit.1.1, fit.2)]>
                        (dicts w !!! c)]> (dicts w)
          else dicts w).
Proof.
  intros Hch.
  destruct (evalFunction_strip sk individual est max_features hparams caching c w
              Hok Hch) as (w1 & (D & C & _) & ->).
  unfold needs_scoring. cbv zeta.
  set (feats := feature_segment hparams individual).
  destruct ((np_sum feats =? 0) || (max_features <? np_sum feats)) eqn:Einf.
  - assert (Hinf : np_sum feats = 0 \/ max_features < np_sum feats).
    { apply orb_true_iff in Einf as [H | H]; [left | right]; lia. }
    rewrite evalFunction_infeasible by exact Hinf.
    eexists _, _. split; [reflexivity |]. cbn [negb andb]. by split.
  - apply feasible_dec in Einf as [H0 Hmf]. cbn [negb andb].
    destruct caching; cbn [negb orb].
    + destruct ((dicts w1 !!! c) !! feats) as [cached |] eqn:Hc.
      * rewrite (evalFunction_hit _ _ _ _ _ _ cached H0 Hmf Hc).
        eexists _, _. split; [reflexivity |]. rewrite D in Hc. rewrite Hc.
        rewrite bool_decide_eq_false_2 by discriminate. cbn [andb]. by split.
      * rewrite (evalFunction_miss _ _ _ _ true _ _ H0 Hmf (fun _ => Hc)).
        cbv zeta. eexists _, _. split; [reflexivity |]. rewrite D in Hc. rewrite Hc.
        rewrite bool_decide_eq_true_2 by reflexivity. cbn [andb].
        unfold scored_world. cbn [cv_calls dicts fst snd].
        rewrite C, D. by split.
    + rewrite (evalFunction_miss _ _ _ _ false _ _ H0 Hmf) by discriminate.
      cbv zeta. eexists _, _. split; [reflexivity |].
      unfold scored_world. cbn [cv_calls dicts andb]. rewrite C, D. by split.
Qed.

End EvaluationCost.

Section EvaluationValue.

Context (sk : scoring) (est c : nat) (max_features : Z) (hparams : option hparams_t).
Hypothesis Hok : hparams_ok hparams.

Lemma assign_hparams_outside hp individual hnames : forall j i attrs k,
  k ∉ hnames -> assign_hparams hp individual j i hnames attrs !! k = attrs !! k.
Proof.
  induction hnames as [| h rest IH]; intros j i attrs k Hk; [reflexivity |].
  apply not_elem_of_cons in Hk as [Hne Hk]. cbn [assign_hparams].
  rewrite IH by exact Hk. by rewrite lookup_insert_ne.
Qed.

Lemma assign_hparams_agree hp individual hnames : forall j i a1 a2,
  agree_outside hnames a1 a2 ->
  assign_hparams hp individual j i hnames a1 = assign_hparams hp individual j i hnames a2.
Proof.
  induction hnames as [| h rest IH]; intros j i a1 a2 Hag.
  - cbn. apply map_eq. intros k. apply Hag. apply not_elem_of_nil.
  - cbn [assign_hparams]. apply IH. intros k Hk.
    destruct (decide (h = k)) as [-> | Hne].
    + by rewrite !lookup_insert_eq.
    + rewrite !lookup_insert_ne by exact Hne. apply Hag.
      apply not_elem_of_cons. split; [congruence | exact Hk].
Qed.

Lemma assigned_attrs_agree individual a1 a2 :
  agree_outside (hparam_names hparams) a1 a2 ->
  assigned_attrs hparams individual a1 = assigned_attrs hparams individual a2.
Proof.
  destruct hparams as [hp |]; cbn [assigned_attrs hparam_names]; intros Hag.
  - by apply assign_hparams_agree.
  - apply map_eq. intros k. apply Hag. apply not_elem_of_nil.
Qed.

Lemma assigned_attrs_outside individual attrs :
  agree_outside (hparam_names hparams) (assigned_attrs hparams individual attrs) attrs.
Proof.
  destruct hparams as [hp |]; cbn [assigned_attrs hparam_names]; intros k Hk.
  - by apply assign_hparams_outside.
  - reflexivity.
Qed.

(** Without caching, or without hyperparameters and with a cache whose entries are the
    scores of their keys, the fitness is a function of the bits of the chromosome. *)
Lemma evalFunction_pure_value attrs individual caching w :
  hparams = None \/ caching = false ->
  chromosome_ok hparams individual ->
  pure_store sk attrs hparams caching est c w ->
  exists w',
    _evalFunction sk individual est max_features hparams caching c w
    = inr (pure_fitness sk attrs max_features hparams individual, w')
    /\ pure_store sk attrs hparams caching est c w'.
Proof.
  intros Hcase Hch [Hag Hcache].
  destruct (evalFunction_strip sk individual est max_features hparams caching c w
              Hok Hch) as (w1 & (D & _ & _ & _ & _ & A) & ->).
  assert (HA : ests w1 !!! est = assigned_attrs hparams individual attrs).
  { rewrite A. by apply assigned_attrs_agree. }
  assert (Hag1 : agree_outside (hparam_names hparams) (ests w1 !!! est) attrs).
  { rewrite HA. apply assigned_attrs_outside. }
  unfold pure_fitness. cbv zeta.
  set (feats := feature_segment hparams individual).
  destruct ((np_sum feats =? 0) || (max_features <? np_sum feats)) eqn:Einf.
  - assert (Hinf : np_sum feats = 0 \/ max_features < np_sum feats).
    { apply orb_true_iff in Einf as [H | H]; [left | right]; lia. }
    rewrite evalFunction_infeasible by exact Hinf.
    eexists. split; [reflexivity |]. split; [exact Hag1 |]. by rewrite D.
  - assert (np_sum feats <> 0 /\ np_sum feats <= max_features) as [H0 Hmf].
    { apply orb_false_iff in Einf as [H1 H2]. lia. }
    destruct caching.
    + destruct Hcase as [Hnone | ?]; [| discriminate].
      assert (Hattrs : assigned_attrs hparams individual attrs = attrs)
        by (by rewrite Hnone).
      destruct ((dicts w1 !!! c) !! feats) as [cached |] eqn:Hc.
      * rewrite (evalFunction_hit _ _ _ _ _ _ cached H0 Hmf Hc).
        eexists. split.
        -- rewrite D in Hc. rewrite (Hcache eq_refl _ _ Hc), Hattrs. reflexivity.
        -- split; [exact Hag1 |]. by rewrite D.
      * rewrite (evalFunction_miss _ _ _ _ true _ _ H0 Hmf (fun _ => Hc)).
        cbv zeta. rewrite HA. eexists. split; [reflexivity |].
        unfold scored_world. split; cbn [ests dicts]; [exact Hag1 |].
        intros _ key v. rewrite lookup_total_insert_eq.
        destruct (decide (feats = key)) as [<- | Hne].
        -- rewrite lookup_insert_eq. intros [= <-]. by rewrite Hattrs.
        -- rewrite lookup_insert_ne by exact Hne. rewrite D. by apply Hcache.
    + rewrite (evalFunction_miss _ _ _ _ false _ _ H0 Hmf) by discriminate.
      cbv zeta. rewrite HA. eexists. split; [reflexivity |].
      unfold scored_world. split; cbn [ests dicts]; [exact Hag1 | discriminate].
Qed.

Lemma evalFunction_pure_post attrs individual caching :
  hparams = None \/ caching = false ->
  chromosome_ok hparams individual ->
  post (pure_store sk attrs hparams caching est c)
    (_evalFunction sk individual est max_features hparams caching c)
    (fun fit => pure_individual sk attrs max_features hparams
                  (mkInd individual (Some fit))).
Proof.
  intros Hcase Hch w fit w' HI E.
  destruct (evalFunction_pure_value attrs individual caching w Hcase Hch HI) as (w1 & E1 & HI1).
  rewrite E1 in E. injection E as <- <-. split; [exact HI1 |].
  intros f [= <-]. reflexivity.
Qed.

(** With scores above the score of the sentinel, a fitness tells whether the mask of its
    chromosome is feasible. *)
Lemma evalFunction_sound individual caching :
  scores_above_sentinel sk ->
  chromosome_ok hparams individual ->
  post (cache_above_sentinel c)
    (_evalFunction sk individual est max_features hparams caching c)
    (fun fit => sound_individual max_features hparams (mkInd individual (Some fit))).
Proof.
  intros Habove Hch w fit w' HI E.
  destruct (evalFunction_strip sk individual est max_features hparams caching c w
              Hok Hch) as (w1 & (D & _) & E1).
  rewrite E1 in E. clear E1.
  assert (HI1 : cache_above_sentinel c w1) by (unfold cache_above_sentinel; by rewrite D).
  unfold sound_individual. cbn [genes fitness].
  set (feats := feature_segment hparams individual) in *.
  destruct (decide (np_sum feats = 0 \/ max_features < np_sum feats)) as [Hinf | Hfeas].
  - rewrite evalFunction_infeasible in E by exact Hinf. injection E as <- <-.
    split; [exact HI1 |]. intros m cnt s0 [= <- <- <-].
    split; [reflexivity |]. split; [| done].
    intros [H0 Hmf]. lia.
  - assert (np_sum feats <> 0 /\ np_sum feats <= max_features) as [H0 Hmf] by lia.
    assert (Hhit : forall cached, (dicts w1 !!! c) !! feats = Some cached ->
              _evalFunction sk feats est max_features None true c w1 = inr (fit, w') ->
              cache_above_sentinel c w'
              /\ forall m cnt s0, Some fit = Some (m, cnt, s0) ->
                   cnt = np_sum feats
                   /\ (feasible max_features feats -> (inject_Z (-10000) < m)%Q)
                   /\ (~ feasible max_features feats -> m = inject_Z (-10000))).
    { intros cached Hc E'. rewrite (evalFunction_hit _ _ _ _ _ _ cached H0 Hmf Hc) in E'.
      injection E' as <- <-. split; [exact HI1 |].
      intros m cnt s0 [= <- <- <-]. split; [reflexivity |].
      split; [intros _; by eapply HI1 |]. intros Hn. destruct Hn. by split. }
    assert (Hmiss : forall cch, (cch = true -> (dicts w1 !!! c) !! feats = None) ->
              _evalFunction sk feats est max_features None cch c w1 = inr (fit, w') ->
              cache_above_sentinel c w'
              /\ forall m cnt s0, Some fit = Some (m, cnt, s0) ->
                   cnt = np_sum feats
                   /\ (feasible max_features feats -> (inject_Z (-10000) < m)%Q)
                   /\ (~ feasible max_features feats -> m = inject_Z (-10000))).
    { intros cch Hc E'. rewrite (evalFunction_miss _ _ _ _ cch _ _ H0 Hmf Hc) in E'.
      cbv zeta in E'. injection E' as <- <-. split.
      - unfold cache_above_sentinel, scored_world. cbn [dicts].
        destruct cch; [| exact HI1].
        intros key v. rewrite lookup_total_insert_eq.
        destruct (decide (feats = key)) as [<- | Hne].
        + rewrite lookup_insert_eq. intros [= <-]. apply Habove.
        + rewrite lookup_insert_ne by exact Hne. apply HI1.
      - intros m cnt s0 [= <- <- <-]. split; [reflexivity |].
        split; [intros _; apply Habove |]. intros Hn. destruct Hn. by split. }
    destruct caching.
    + destruct ((dicts w1 !!! c) !! feats) as [cached |] eqn:Hc.
      * by eapply Hhit.
      * eapply Hmiss; [| exact E]. by intros _.
    + eapply Hmiss; [| exact E]. discriminate.
Qed.

End EvaluationValue.

(* ===================================================================== *)
(** ** The run with the toolbox of [_fit], with an invariant *)
(* ===================================================================== *)

Section ToolboxRun.

Context (sk : scoring) (self : GeneticSelectionCV_mod) (n_features : nat)
        (max_features_ : Z) (est L : nat).
Context (I : world -> Prop) (J : individual -> Prop).
Hypothesis I_rand : forall w w', same_store w w' -> keeps I w w'.
Hypothesis J_none : forall ind, fitness ind = None -> J ind.
Hypothesis Hok : hparams_ok (hparams self).
Hypothesis HL : (n_hparam_bits (hparams self) <= L)%nat.
Hypothesis Hts : 0 < tournament_size self.
Hypothesis Heval : forall individual, chromosome_ok (hparams self) individual ->
  post I (_evalFunction sk individual est max_features_ (hparams self) (caching self)
            (scores_cache self))
    (fun fit => J (mkInd individual (Some fit))).

Lemma toolbox_trace_inv pop :
  pop <> [] -> Forall (fun ind => length (genes ind) = L) pop -> Forall J pop ->
  triple I
    (ea_trace pop (make_toolbox sk self n_features max_features_ est)
       (crossover_proba self) (mutation_proba self) (n_generations self)
       (n_gen_no_change self) (Some (mkHof 1 [])) (hparams self))
    (fun tr => exists s0 sts,
       tr = s0 :: sts
       /\ loop_inv L s0
       /\ init_state pop s0
       /\ trace_ok (n_gen_no_change self) (Z.to_nat (n_generations self)) s0 sts
       /\ Forall (loop_inv L) sts
       /\ Forall (state_inv J) (s0 :: sts)
       /\ trace_log (hparams self) 1 s0 sts).
Proof.
  intros Hne Hlen HJ.
  assert (Hch : forall ind, length (genes ind) = L ->
            chromosome_ok (hparams self) (genes ind)).
  { intros ind Hl. unfold chromosome_ok. lia. }
  apply (ea_trace_inv I J (make_toolbox sk self n_features max_features_ est) L
           I_rand J_none).
  - exact (make_toolbox_mate (keeps I) I_rand sk self n_features max_features_ est).
  - exact (make_toolbox_mutate (keeps I) I_rand sk self n_features max_features_ est).
  - exact (make_toolbox_select (keeps I) I_rand sk self n_features max_features_ est Hts).
  - intros ind Hl.
    eapply (total_keeps I (eval_frame est (scores_cache self))).
    + by apply (make_toolbox_evaluate (eval_frame est (scores_cache self)) sk self
                  n_features max_features_ est (fun _ _ H => H) L Hok HL ind Hl).
    + exact (Heval (genes ind) (Hch ind Hl)).
  - intros ind Hl. exact (Heval (genes ind) (Hch ind Hl)).
  - exact HL.
  - exact Hne.
  - exact Hlen.
  - exact HJ.
Qed.

End ToolboxRun.

(* ===================================================================== *)
(** ** The states of a run *)
(* ===================================================================== *)

Section TraceInvariants.

Lemma valid_true_Some (f : option (Q * Z * Q)) : valid f = true -> exists v, f = Some v.
Proof. destruct f as [v |]; [eauto | discriminate]. Qed.


Lemma fitness_le_trans f g h :
  fitness_le f g = true -> fitness_le g h = true -> fitness_le f h = true.
Proof. apply tuple_le_trans. Qed.

Lemma init_state_elitist pop s0 : init_state pop s0 -> elitist s0.
Proof.
  intros (Hev & _ & _ & first & rest & Hp & Hh). split.
  - by eapply evaluated_valid.
  - exists (best_of first rest). split; [exact Hh |]. rewrite Hp.
    apply (best_of_pick (fun x => x ∈ first :: rest)).
    + apply list_elem_of_here.
    + apply Forall_forall. intros x Hx. by apply list_elem_of_further.
Qed.

Lemma gen_step_population ngen_no_change a b stop :
  gen_step ngen_no_change a b stop ->
  exists x, halloffame a = mkHof 1 [x]
            /\ population b = removelast (population b) ++ [x].
Proof.
  intros (x & Ha & _ & _ & Hlast & _). exists x. split; [exact Ha |].
  apply last_Some in Hlast as [l' Hl']. rewrite Hl'. by rewrite removelast_last.
Qed.

Lemma gen_step_elitist ngen_no_change a b stop :
  gen_step ngen_no_change a b stop -> elitist a -> elitist b.
Proof.
  intros Hstep [Hva (x & Hx & Hin)].
  destruct (gen_step_population _ _ _ _ Hstep) as (x' & Hx' & Hpop).
  rewrite Hx in Hx'. injection Hx' as <-.
  destruct Hstep as (x' & Ha & Hb & _ & _ & Hvb & _).
  rewrite Hx in Ha. injection Ha as <-.
  assert (Hxv : valid (fitness x) = true).
  { rewrite Forall_forall in Hva. by apply Hva. }
  split.
  - rewrite Hpop. apply Forall_app. split; [exact Hvb | by constructor].
  - eexists. split; [exact Hb |].
    apply (best_of_pick (fun y => y ∈ population b)).
    + rewrite Hpop. apply elem_of_app. right. apply list_elem_of_here.
    + by apply Forall_forall.
Qed.

Section OneRun.

Context (ngen_no_change : option Z) (hparams : option hparams_t) (remaining : nat)
        (pop : list individual) (s0 : ea_state) (sts : list ea_state).
Hypothesis Hinit : init_state pop s0.
Hypothesis Htr : trace_ok ngen_no_change remaining s0 sts.

Lemma trace_before g s :
  (s0 :: sts) !! S g = Some s -> exists a, (s0 :: sts) !! g = Some a.
Proof.
  intros Hs. apply lookup_lt_is_Some_2.
  apply lookup_lt_Some in Hs. lia.
Qed.

Lemma trace_elitist : forall g s,
  (s0 :: sts) !! g = Some s ->
  elitist s /\ length (population s) = length pop.
Proof.
  induction g as [| g IH]; intros s Hs.
  - injection Hs as <-. split; [by eapply init_state_elitist |].
    destruct Hinit as (Hev & _). by apply evaluated_length.
  - destruct (trace_before g s Hs) as [a Ha].
    destruct (IH a Ha) as [Hel Hlen].
    destruct (trace_ok_step _ _ _ _ Htr g a s Ha Hs) as (stop & Hstep & _).
    split; [by eapply gen_step_elitist |].
    destruct Hstep as (x & _ & _ & Hl & _). by rewrite Hl.
Qed.

Lemma trace_log_step : forall l gen st k a b,
  trace_log hparams gen st l ->
  (st :: l) !! k = Some a -> (st :: l) !! S k = Some b ->
  gen_log hparams (gen + k) a b.
Proof.
  induction l as [| st' rest IH]; intros gen st k a b Hlog Ha Hb.
  - destruct k; discriminate.
  - destruct Hlog as [Hg Hrest]. destruct k as [| k].
    + injection Ha as <-. injection Hb as <-. by rewrite Nat.add_0_r.
    + replace (gen + S k)%nat with (S gen + k)%nat by lia.
      by eapply (IH (S gen) st').
Qed.

Hypothesis Hlog : trace_log hparams 1 s0 sts.

Lemma trace_logbook : forall g s,
  (s0 :: sts) !! g = Some s ->
  log_ok hparams (length pop) (invalid_count pop) g s.
Proof.
  induction g as [| g IH]; intros s Hs.
  - injection Hs as <-. destruct Hinit as (_ & _ & Hl & _).
    exists []. split; [exact Hl |]. split; [reflexivity | constructor].
  - destruct (trace_before g s Hs) as [a Ha].
    destruct (IH a Ha) as (later & Hl & Hnum & Hrec).
    destruct (trace_elitist g a Ha) as [_ Hlen].
    destruct (trace_log_step sts 1 s0 g a s Hlog Ha Hs) as (n & Hls & Hn & Hhp).
    exists (later ++ [(S g, n)]). split; [| split].
    + rewrite Hls, Hl. reflexivity.
    + rewrite map_app, Hnum. cbn [map fst]. by rewrite seq_S.
    + apply Forall_app. split; [exact Hrec |].
      constructor; [| constructor]. cbn [snd]. rewrite <- Hlen. by split.
Qed.

End OneRun.


End TraceInvariants.

Section PureRun.

Context (F : list bool -> Q * Z * Q).
Context (ngen_no_change : option Z) (remaining : nat)
        (pop : list individual) (s0 : ea_state) (sts : list ea_state).
Hypothesis Hinit : init_state pop s0.
Hypothesis Htr : trace_ok ngen_no_change remaining s0 sts.
Hypothesis Hpure :
  Forall (state_inv (fun ind => forall f, fitness ind = Some f -> f = F (genes ind)))
         (s0 :: sts).

Lemma trace_pure_population g s x :
  (s0 :: sts) !! g = Some s -> x ∈ population s ->
  fitness x = Some (F (genes x)).
Proof.
  intros Hs Hx.
  destruct (trace_elitist _ _ _ _ _ Hinit Htr g s Hs) as [[Hv _] _].
  rewrite Forall_forall in Hv. destruct (valid_true_Some _ (Hv x Hx)) as [f Hf].
  rewrite Forall_forall in Hpure.
  destruct (Hpure s (list_elem_of_lookup_2 _ _ _ Hs)) as [Hp _].
  rewrite Forall_forall in Hp. by rewrite Hf, (Hp x Hx f Hf).
Qed.

Lemma trace_pure_best g s x :
  (s0 :: sts) !! g = Some s -> x ∈ items (halloffame s) ->
  fitness x = Some (F (genes x)).
Proof.
  intros Hs Hx.
  destruct (trace_elitist _ _ _ _ _ Hinit Htr g s Hs) as [[_ (b & Hb & Hin)] _].
  rewrite Hb in Hx. cbn [items] in Hx. apply list_elem_of_singleton in Hx as ->.
  by eapply trace_pure_population.
Qed.



End PureRun.

Lemma pure_store_rand sk attrs hparams caching est c w w' :
  same_store w w' ->
  keeps (pure_store sk attrs hparams caching est c) w w'.
Proof.
  intros (E & D & _) [H1 H2]. split.
  - by rewrite E.
  - by rewrite D.
Qed.

Lemma cache_above_sentinel_rand c w w' :
  same_store w w' -> keeps (cache_above_sentinel c) w w'.
Proof.
  intros (_ & D & _) H. unfold cache_above_sentinel. by rewrite D.
Qed.

(* ===================================================================== *)
(** ** Properties of the runs of the loop *)
(* ===================================================================== *)

Section RunProperties.

Context (sk : scoring) (self : GeneticSelectionCV_mod) (n_features : nat)
        (max_features_ : Z) (est L : nat) (pop : list individual).
Hypothesis Hok : hparams_ok (hparams self).
Hypothesis HL : (n_hparam_bits (hparams self) <= L)%nat.
Hypothesis Hts : 0 < tournament_size self.
Hypothesis Hne : pop <> [].
Hypothesis Hpop : Forall (fun ind => length (genes ind) = L) pop.

Lemma run_states w :
  exists s0 sts w',
    ea_trace pop (make_toolbox sk self n_features max_features_ est)
      (crossover_proba self) (mutation_proba self) (n_generations self)
      (n_gen_no_change self) (Some (mkHof 1 [])) (hparams self) w = inr (s0 :: sts, w')
    /\ init_state pop s0
    /\ trace_ok (n_gen_no_change self) (Z.to_nat (n_generations self)) s0 sts
    /\ trace_log (hparams self) 1 s0 sts.
Proof.
  destruct (toolbox_trace_inv sk self n_features max_features_ est L
              (fun _ => True) (fun _ => True)
              ltac:(done) ltac:(done) Hok HL Hts ltac:(done) pop Hne Hpop
              ltac:(by apply Forall_true) w Logic.I)
    as (tr & w' & E & _ & s0 & sts & -> & _ & Hi & Htr & _ & _ & Hlog).
  by exists s0, sts, w'.
Qed.

Lemma run_pure_states attrs w :
  hparams self = None \/ caching self = false ->
  pure_store sk attrs (hparams self) (caching self) est (scores_cache self) w ->
  Forall (pure_individual sk attrs max_features_ (hparams self)) pop ->
  exists s0 sts w',
    ea_trace pop (make_toolbox sk self n_features max_features_ est)
      (crossover_proba self) (mutation_proba self) (n_generations self)
      (n_gen_no_change self) (Some (mkHof 1 [])) (hparams self) w = inr (s0 :: sts, w')
    /\ pure_store sk attrs (hparams self) (caching self) est (scores_cache self) w'
    /\ init_state pop s0
    /\ trace_ok (n_gen_no_change self) (Z.to_nat (n_generations self)) s0 sts
    /\ Forall (state_inv (pure_individual sk attrs max_features_ (hparams self)))
              (s0 :: sts).
Proof.
  intros Hcase HI HJ.
  destruct (toolbox_trace_inv sk self n_features max_features_ est L
              (pure_store sk attrs (hparams self) (caching self) est (scores_cache self))
              (pure_individual sk attrs max_features_ (hparams self))
              (pure_store_rand _ _ _ _ _ _)
              ltac:(intros ind Hn f Hf; congruence) Hok HL Hts
              (fun individual Hch =>
                 evalFunction_pure_post sk est (scores_cache self) max_features_
                   (hparams self) Hok attrs individual (caching self) Hcase Hch)
              pop Hne Hpop HJ w HI)
    as (tr & w' & E & HI' & s0 & sts & -> & _ & Hi & Htr & _ & Hst & _).
  by exists s0, sts, w'.
Qed.

End RunProperties.

(* ===================================================================== *)
(** ** The run of [_fit], with an invariant *)
(* ===================================================================== *)

Section FitRun.

Context (sk : scoring) (self : GeneticSelectionCV_mod) (n_features : nat).
Context (I : nat -> world -> Prop) (J : Z -> individual -> Prop).
Hypothesis I_rand : forall est w w', same_store w w' -> keeps (I est) w w'.
Hypothesis J_none : forall mf ind, fitness ind = None -> J mf ind.
Hypothesis Heval : forall mf est individual,
  chromosome_ok (hparams self) individual ->
  post (I est)
    (_evalFunction sk individual est mf (hparams self) (caching self) (scores_cache self))
    (fun fit => J mf (mkInd individual (Some fit))).

Lemma fit_inv w :
  fit_ok self n_features ->
  I (next_loc w)
    (mkWorld (<[next_loc w := ests w !!! estimator self]> (ests w)) (dicts w)
       (S (next_loc w)) (cv_calls w) (rand w)) ->
  exists f w' mf pop s0 sts b,
    fit sk self n_features w = inr (f, w')
    /\ 1 <= mf <= Z.of_nat n_features
    /\ fit_run self n_features (J mf) f mf pop s0 sts b
    /\ exists w3, I (next_loc w) w3 /\ dicts w' = dicts w3 /\ cv_calls w' = cv_calls w3.
Proof.
  intros (Hmf & Hjobs & Hok & Hhb & Hnpop & Hts) HI1.
  unfold fit, _fit.
  destruct (check_max_features_ok self n_features w Hmf) as (mf & Emf & Hmfr).
  assert (Hmfd : mf = default (Z.of_nat n_features) (max_features self)).
  { unfold check_max_features in Emf. destruct (max_features self) as [m |].
    - destruct ((m <? 1) || (Z.of_nat n_features <? m)); [discriminate |].
      by injection Emf as <-.
    - by injection Emf as <-. }
  rewrite (bind_eq _ _ _ _ _ Emf).
  set (l := next_loc w) in *.
  set (w1 := mkWorld (<[l := ests w !!! estimator self]> (ests w)) (dicts w) (S l)
                     (cv_calls w) (rand w)) in *.
  assert (Ecl : clone (estimator self) w = inr (l, w1)) by reflexivity.
  rewrite (bind_eq _ _ _ _ _ Ecl).
  destruct (Z.eqb_spec (n_jobs self) 0) as [| _]; [done |].
  set (L := (n_hparam_bits (hparams self) + n_features)%nat).
  assert (Hinit : total (keeps (I l))
            (initRepeat (tb_individual (make_toolbox sk self n_features mf l))
               (Z.to_nat (n_population self)))
            (fun pop => length pop = Z.to_nat (n_population self)
                        /\ Forall (fresh_chromosome (Z.of_nat n_features) mf
                                     (hparams self)) pop)).
  { apply total_initRepeat; [apply _ |].
    cbn [make_toolbox tb_individual]. rewrite Hhb.
    apply total_createIndividual; [apply _ | apply I_rand | exact Hmfr]. }
  destruct (Hinit w1) as (pop & w2 & Epop & K12 & Hpl & Hpop).
  rewrite (bind_eq _ _ _ _ _ Epop).
  assert (HI2 : I l w2) by (by apply K12).
  assert (HpopL : Forall (fun ind => length (genes ind) = L) pop).
  { eapply Forall_impl; [exact Hpop |]. intros ind (_ & HlenZ & _). subst L. lia. }
  assert (HpopJ : Forall (J mf) pop).
  { eapply Forall_impl; [exact Hpop |]. intros ind (Hnone & _). by apply J_none. }
  assert (Hne : pop <> []) by (intros ->; simpl in Hpl; lia).
  destruct (toolbox_trace_inv sk self n_features mf l L (I l) (J mf) (I_rand l)
              (J_none mf) Hok ltac:(subst L; lia) Hts (Heval mf l) pop Hne HpopL HpopJ
              w2 HI2)
    as (tr & w3 & Etr & HI3 & s0 & sts & -> & Hinv0 & Hi0 & Htr & Hinv & HJs & _).
  destruct (last (s0 :: sts)) as [st |] eqn:El; [| apply last_None in El; discriminate].
  assert (Eea : _eaFunction pop (make_toolbox sk self n_features mf l)
                  (crossover_proba self) (mutation_proba self) (n_generations self)
                  (n_gen_no_change self) (Some (mkHof 1 [])) (hparams self) w2
                = inr (st, w3)).
  { unfold _eaFunction. rewrite (bind_eq _ _ _ _ _ Etr). by rewrite El. }
  rewrite (bind_eq _ _ _ _ _ Eea).
  assert (Hst : loop_inv L st).
  { apply last_Some_elem_of in El.
    apply elem_of_cons in El as [-> | Hin]; [exact Hinv0 |].
    rewrite Forall_forall in Hinv. by apply Hinv. }
  destruct Hst as (_ & _ & b & Hhof & Hb).
  rewrite Hhof.
  destruct (final_attributes_total self n_features b w3 Hok Hhb Hb)
    as (fin & Efin & Hfin & Hfl).
  rewrite (bind_eq _ _ _ _ _ Efin).
  eexists _, _, mf, pop, s0, sts, b. split; [reflexivity |].
  split; [exact Hmfr |].
  unfold fit_run. cbn [support_ n_features_ best_params_].
  split; [| by exists w3].
  split; [exact Hmfd |]. split; [exact Hpl |]. split; [exact Hpop |].
  split; [exact Hi0 |]. split; [exact Htr |]. split; [exact HJs |].
  split; [by exists st |]. split; [exact Hb |]. split; [exact Hfin |].
  split; [reflexivity |].
  exists w3. rewrite Efin. by destruct fin.
Qed.

End FitRun.


(* ===================================================================== *)
(** ** The names reported by the final decoding *)
(* ===================================================================== *)

Section ReportedNames.

Context (hp : hparams_t).

Lemma decode_best_params_keys bits hnames : forall j i bp w bp' w' name,
  decode_best_params hp bits j i hnames bp w = inr (bp', w') ->
  name ∈ hnames \/ is_Some (bp !! name) -> is_Some (bp' !! name).
Proof.
  induction hnames as [| h rest IH]; intros j i bp w bp' w' name E Hin.
  - cbn in E. injection E as <- _. destruct Hin as [Hin | Hin]; [| exact Hin].
    by apply elem_of_nil in Hin.
  - cbn [decode_best_params] in E.
    apply bind_inr in E as (dec_val & w1 & _ & E).
    apply bind_inr in E as (pr & w2 & _ & E).
    apply bind_inr in E as (p & w3 & _ & E).
    eapply IH; [exact E |].
    destruct (decide (h = name)) as [-> | Hne].
    + right. rewrite lookup_insert_eq. eauto.
    + rewrite lookup_insert_ne by exact Hne.
      destruct Hin as [Hin | Hin]; [| by right].
      apply elem_of_cons in Hin as [-> | Hin]; [done | by left].
Qed.

Lemma decode_best_params_dom bits hnames : forall j i bp w bp' w' name,
  decode_best_params hp bits j i hnames bp w = inr (bp', w') ->
  is_Some (bp' !! name) -> name ∈ hnames \/ is_Some (bp !! name).
Proof.
  induction hnames as [| h rest IH]; intros j i bp w bp' w' name E Hin.
  - cbn in E. injection E as <- _. by right.
  - cbn [decode_best_params] in E.
    apply bind_inr in E as (dec_val & w1 & _ & E).
    apply bind_inr in E as (pr & w2 & _ & E).
    apply bind_inr in E as (p & w3 & _ & E).
    destruct (IH _ _ _ _ _ _ name E Hin) as [Hr | Hb].
    + left. by apply list_elem_of_further.
    + destruct (decide (h = name)) as [-> | Hne].
      * left. apply list_elem_of_here.
      * rewrite lookup_insert_ne in Hb by exact Hne. by right.
Qed.

End ReportedNames.

(** The order of the fitness values is decided first by the scores. *)
Lemma fitness_le_score m1 c1 s1 m2 c2 s2 :
  fitness_le (Some (m1, c1, s1)) (Some (m2, c2, s2)) = true -> (m1 <= m2)%Q.
Proof.
  unfold fitness_le, wvalues, weights. cbn [zip_with tuple_le].
  destruct (Qeq_bool (fmul m1 1) (fmul m2 1)) eqn:Eq.
  - intros _. apply Qeq_bool_iff in Eq. unfold fmul in Eq.
    rewrite !Qred_correct in Eq. lra.
  - intros Hle. apply Qle_bool_iff in Hle. unfold fmul in Hle.
    rewrite !Qred_correct in Hle. lra.
Qed.

(* ===================================================================== *)
(** ** Further properties of the module *)
(* ===================================================================== *)

(** X1.  [_evalFunction] calls [cross_val_score] once when the feature mask of the
    chromosome is feasible and, with caching, is not a key of the cache; otherwise it
    does not call it.  In the first case with caching the cache receives one entry, the
    returned mean and dispersion under the mask as key; in every other case the
    dictionaries are left as they are. *)
Theorem X1_evaluation_cost sk est c max_features hparams individual caching w :
  hparams_ok hparams ->
  chromosome_ok hparams individual ->
  exists fit w',
    _evalFunction sk individual est max_features hparams caching c w = inr (fit, w')
    /\ cv_calls w'
       = (if needs_scoring max_features hparams caching c w individual
          then S (cv_calls w) else cv_calls w)
    /\ dicts w'
       = (if needs_scoring max_features hparams caching c w individual && caching
          then <[c := <[feature_segment hparams individual := (fit.1.1, fit.2)]>
                        (dicts w !!! c)]> (dicts w)
          else dicts w).
Proof. intros Hok Hch. by apply evalFunction_calls. Qed.

(** X2.  Without caching, or without hyperparameters and with a cache whose entries are
    the scores of their keys, the fitness that [_evalFunction] returns is a function of
    the bits of the chromosome: the attributes of the estimator that are not
    hyperparameters being [attrs], it is the sentinel for an infeasible mask and the
    mean and dispersion of the scores of the mask under the hyperparameter values of the
    chromosome otherwise, whatever values the previous evaluations have left on the
    estimator; and the store is again one of this kind. *)
Theorem X2_fitness_is_function_of_bits sk est c max_features hparams attrs individual
    caching w :
  hparams_ok hparams ->
  hparams = None \/ caching = false ->
  chromosome_ok hparams individual ->
  pure_store sk attrs hparams caching est c w ->
  exists w',
    _evalFunction sk individual est max_features hparams caching c w
    = inr (pure_fitness sk attrs max_features hparams individual, w')
    /\ pure_store sk attrs hparams caching est c w'.
Proof. intros Hok Hcase Hch HI. by apply evalFunction_pure_value. Qed.

(** X5.  Along a run of the loop with the toolbox of [_fit] and a hall of fame of
    size 1, every population has as many individuals as the initial one, all of them
    evaluated, and the best-ever individual is one of them; and the last individual of
    the population at the end of a generation is the best-ever individual of the
    generation before (line 96). *)
Theorem X5_population_and_elitism sk self n_features max_features_ est L pop w :
  hparams_ok (hparams self) -> (n_hparam_bits (hparams self) <= L)%nat ->
  0 < tournament_size self ->
  pop <> [] -> Forall (fun ind => length (genes ind) = L) pop ->
  exists tr w',
    ea_trace pop (make_toolbox sk self n_features max_features_ est)
      (crossover_proba self) (mutation_proba self) (n_generations self)
      (n_gen_no_change self) (Some (mkHof 1 [])) (hparams self) w = inr (tr, w')
    /\ (forall g s, tr !! g = Some s ->
          length (population s) = length pop
          /\ Forall (fun ind => valid (fitness ind) = true) (population s)
          /\ exists b, halloffame s = mkHof 1 [b] /\ b ∈ population s)
    /\ (forall g s s', tr !! g = Some s -> tr !! S g = Some s' ->
          last (population s') = head (items (halloffame s))).
Proof.
  intros Hok HL Hts Hne Hpop.
  destruct (run_states sk self n_features max_features_ est L pop Hok HL Hts Hne Hpop w)
    as (s0 & sts & w' & E & Hinit & Htr & _).
  exists (s0 :: sts), w'. split; [exact E |]. split.
  - intros g s Hs.
    destruct (trace_elitist _ _ _ _ _ Hinit Htr g s Hs) as [[Hv Hb] Hlen].
    by repeat split.
  - intros g s s' Hs Hs'.
    destruct (trace_ok_step _ _ _ _ Htr g s s' Hs Hs') as (stop & Hstep & _).
    destruct Hstep as (b & Hh & _ & _ & Hlast & _). by rewrite Hh, Hlast.
Qed.

(** X6.  Along such a run the logbook at the end of generation [g] holds the record of
    generation 0, whose number of evaluations is the number of individuals of the
    initial population without a fitness, then one record per generation, numbered
    from 1 to [g]; the number of evaluations of a generation is at most the size of the
    population minus one, and it is this number when hyperparameters are configured:
    the offspring are then rebuilt as new individuals (line 85) and all evaluated. *)
Theorem X6_logbook_records sk self n_features max_features_ est L pop w :
  hparams_ok (hparams self) -> (n_hparam_bits (hparams self) <= L)%nat ->
  0 < tournament_size self ->
  pop <> [] -> Forall (fun ind => length (genes ind) = L) pop ->
  exists tr w',
    ea_trace pop (make_toolbox sk self n_features max_features_ est)
      (crossover_proba self) (mutation_proba self) (n_generations self)
      (n_gen_no_change self) (Some (mkHof 1 [])) (hparams self) w = inr (tr, w')
    /\ forall g s, tr !! g = Some s ->
         exists later,
           logbook s = (O, invalid_count pop) :: later
           /\ map fst later = seq 1 g
           /\ Forall (fun rec => (rec.2 <= length pop - 1)%nat
                                 /\ (is_Some (hparams self) ->
                                     rec.2 = (length pop - 1)%nat)) later.
Proof.
  intros Hok HL Hts Hne Hpop.
  destruct (run_states sk self n_features max_features_ est L pop Hok HL Hts Hne Hpop w)
    as (s0 & sts & w' & E & Hinit & Htr & Hlog).
  exists (s0 :: sts), w'. split; [exact E |].
  intros g s Hs. exact (trace_logbook _ _ _ _ _ _ Hinit Htr Hlog g s Hs).
Qed.

(** X7.  Without caching, or without hyperparameters and with a cache whose entries are
    the scores of their keys, every individual of every population of a run, and of the
    hall of fame, carries the fitness of its own bits: crossover and mutation never
    leave the fitness of the parent on a chromosome, and the value does not depend on
    the order in which the chromosomes were evaluated. *)
Theorem X7_fitness_matches_bits sk self n_features max_features_ est L pop attrs w :
  hparams_ok (hparams self) -> (n_hparam_bits (hparams self) <= L)%nat ->
  0 < tournament_size self ->
  pop <> [] -> Forall (fun ind => length (genes ind) = L) pop ->
  Forall (fun ind => fitness ind = None) pop ->
  hparams self = None \/ caching self = false ->
  pure_store sk attrs (hparams self) (caching self) est (scores_cache self) w ->
  exists tr w',
    ea_trace pop (make_toolbox sk self n_features max_features_ est)
      (crossover_proba self) (mutation_proba self) (n_generations self)
      (n_gen_no_change self) (Some (mkHof 1 [])) (hparams self) w = inr (tr, w')
    /\ forall g s x, tr !! g = Some s ->
         x ∈ population s \/ x ∈ items (halloffame s) ->
         fitness x = Some (pure_fitness sk attrs max_features_ (hparams self) (genes x)).
Proof.
  intros Hok HL Hts Hne Hpop Hnone Hcase HI.
  assert (HJ : Forall (pure_individual sk attrs max_features_ (hparams self)) pop).
  { eapply Forall_impl; [exact Hnone |]. intros ind Hn f Hf. congruence. }
  destruct (run_pure_states sk self n_features max_features_ est L pop Hok HL Hts Hne
              Hpop attrs w Hcase HI HJ)
    as (s0 & sts & w' & E & _ & Hinit & Htr & Hpure).
  exists (s0 :: sts), w'. split; [exact E |].
  intros g s x Hs [Hx | Hx].
  - exact (trace_pure_population _ _ _ _ _ _ Hinit Htr Hpure g s x Hs Hx).
  - exact (trace_pure_best _ _ _ _ _ _ Hinit Htr Hpure g s x Hs Hx).
Qed.


(** With scores above the score of the sentinel, the best-ever individual at the end of
    a run started from feasible chromosomes is feasible. *)
Lemma run_best_feasible mf hparams ngen_no_change remaining n pop s0 sts st b :
  pop <> [] ->
  Forall (fresh_chromosome n mf hparams) pop ->
  init_state pop s0 ->
  trace_ok ngen_no_change remaining s0 sts ->
  Forall (state_inv (sound_individual mf hparams)) (s0 :: sts) ->
  last (s0 :: sts) = Some st ->
  halloffame st = mkHof 1 [b] ->
  feasible mf (feature_segment hparams (genes b)).
Proof.
  intros Hne Hfresh Hinit Htr Hsound Hlast Hhof.
  assert (Hst : (s0 :: sts) !! length sts = Some st).
  { rewrite last_lookup in Hlast. exact Hlast. }
  destruct (trace_elitist _ _ _ _ _ Hinit Htr _ _ Hst) as [[Hv (b' & Hb' & Hin)] _].
  rewrite Hhof in Hb'. injection Hb' as <-.
  rewrite Forall_forall in Hv. destruct (valid_true_Some _ (Hv b Hin)) as [[[m cnt] s] Hf].
  pose proof Hsound as Hsound'. rewrite Forall_forall in Hsound'.
  destruct (Hsound' st (list_elem_of_lookup_2 _ _ _ Hst)) as [_ Hjb].
  rewrite Hhof in Hjb. cbn [items] in Hjb. apply Forall_cons in Hjb as [Hjb _].
  destruct (Hjb m cnt s Hf) as (_ & _ & Hinf).
  pose proof (trace_best_monotone _ _ _ _ Htr (length sts) O s0 st ltac:(lia)
                eq_refl Hst) as Hmono.
  rewrite (best_fitness_one st b Hhof) in Hmono.
  destruct Hinit as (Hev & _ & _ & first & rest & Hp & Hh).
  rewrite (best_fitness_one s0 _ Hh) in Hmono.
  destruct pop as [| p1 pop']; [done |].
  apply Forall_cons in Hfresh as [(_ & _ & _ & Hp1) _].
  rewrite Hp in Hev. apply Forall2_cons in Hev as [(Hg & Hvf & _) _].
  destruct (valid_true_Some _ Hvf) as [[[m1 c1] s1] Hf1].
  apply Forall_cons in Hsound as [[Hj0 _] _]. rewrite Hp in Hj0.
  apply Forall_cons in Hj0 as [Hj1 _].
  destruct (Hj1 m1 c1 s1 Hf1) as (_ & Hfeas1 & _).
  assert (Hm1 : (inject_Z (-10000) < m1)%Q).
  { apply Hfeas1. rewrite Hg. split; lia. }
  assert (Hle : fitness_le (fitness first) (fitness b) = true).
  { eapply fitness_le_trans; [apply (best_of_le rest first) | exact Hmono]. }
  rewrite Hf1, Hf in Hle. apply fitness_le_score in Hle.
  destruct ((np_sum (feature_segment hparams (genes b)) =? 0)
            || (mf <? np_sum (feature_segment hparams (genes b)))) eqn:E.
  - assert (Hn : ~ feasible mf (feature_segment hparams (genes b))).
    { intros Hfe. apply feasible_dec in Hfe. congruence. }
    rewrite (Hinf Hn) in Hle. lra.
  - by apply feasible_dec.
Qed.

(** X9.  When the means of the cross-validation scores, and those held in the cache,
    are above -10000, the score of the sentinel, the mask that [fit] reports selects at
    least one feature and at most [max_features], and [n_features_] is the number of
    features it selects. *)
Theorem X9_selected_features_within_bound sk self n_features w :
  fit_ok self n_features ->
  scores_above_sentinel sk ->
  cache_above_sentinel (scores_cache self) w ->
  exists f w',
    fit sk self n_features w = inr (f, w')
    /\ 1 <= n_features_ f <= default (Z.of_nat n_features) (max_features self)
    /\ n_features_ f = np_sum (support_ f)
    /\ length (support_ f) = n_features.
Proof.
  intros Hfit Habove Hcache.
  pose proof Hfit as (_ & _ & Hok & _ & Hnpop & _).
  destruct (fit_inv sk self n_features
              (fun _ => cache_above_sentinel (scores_cache self))
              (fun mf => sound_individual mf (hparams self))
              (fun _ => cache_above_sentinel_rand _)
              ltac:(intros mf ind Hn m cnt s Hf; congruence)
              (fun mf est individual Hch =>
                 evalFunction_sound sk est (scores_cache self) mf (hparams self) Hok
                   individual (caching self) Habove Hch)
              w Hfit Hcache)
    as (f & w' & mf & pop & s0 & sts & b & E & Hmf
        & (Hmfd & Hpl & Hfresh & Hinit & Htr & Hsound & (st & Hlast & Hhof) & Hb
           & Hsup & Hnf & _) & _).
  assert (Hne : pop <> []) by (intros ->; simpl in Hpl; lia).
  destruct (run_best_feasible _ _ _ _ _ _ _ _ _ _ Hne Hfresh Hinit Htr Hsound Hlast Hhof)
    as [H0 Hle].
  assert (Hpos : 0 <= np_sum (feature_segment (hparams self) (genes b))).
  { generalize (feature_segment (hparams self) (genes b)).
    induction l as [| [|] l IH]; simpl; lia. }
  exists f, w'. split; [exact E |]. rewrite Hnf, Hsup, <- Hmfd.
  split; [lia |]. split; [reflexivity |].
  unfold feature_segment. rewrite length_drop. lia.
Qed.

(** X10.  With hyperparameters, and means of the scores above -10000, [fit] reports in
    [best_params_] exactly the configured names, each with a float. *)
Theorem X10_best_params_names sk self n_features hp w :
  fit_ok self n_features ->
  scores_above_sentinel sk ->
  cache_above_sentinel (scores_cache self) w ->
  hparams self = Some hp ->
  exists f w',
    fit sk self n_features w = inr (f, w')
    /\ (forall name, is_Some (best_params_ f !! name) <-> name ∈ names hp)
    /\ forall name v, best_params_ f !! name = Some v -> exists p, v = PFloat p.
Proof.
  intros Hfit Habove Hcache Hhp.
  pose proof Hfit as (_ & _ & Hok & _).
  destruct (fit_inv sk self n_features
              (fun _ => cache_above_sentinel (scores_cache self))
              (fun mf => sound_individual mf (hparams self))
              (fun _ => cache_above_sentinel_rand _)
              ltac:(intros mf ind Hn m cnt s Hf; congruence)
              (fun mf est individual Hch =>
                 evalFunction_sound sk est (scores_cache self) mf (hparams self) Hok
                   individual (caching self) Habove Hch)
              w Hfit Hcache)
    as (f & w' & mf & pop & s0 & sts & b & E & _
        & (_ & _ & _ & _ & _ & _ & _ & _ & _ & _ & wf & Efin) & _).
  exists f, w'. split; [exact E |].
  unfold final_attributes in Efin. cbn [hof_head items] in Efin.
  change (bind (ret b) ?k) with (k b) in Efin. cbn beta in Efin.
  rewrite Hhp in Efin.
  apply bind_inr in Efin as (bp & w1 & Edec & Eret).
  injection Eret as _ <- _.
  split.
  - intros name. split.
    + intros Hs.
      destruct (decode_best_params_dom hp _ _ _ _ _ _ _ _ name Edec Hs) as [Hin | [v Hv]];
        [exact Hin |].
      rewrite lookup_empty in Hv. discriminate.
    + intros Hin. eapply decode_best_params_keys; [exact Edec | by left].
  - intros name v Hv.
    eapply decode_best_params_floats; [| exact Edec | exact Hv].
    intros name' v' Hv'. rewrite lookup_empty in Hv'. discriminate.
Qed.

(** X11.  On a configuration that is otherwise usable, [fit] raises [ValueError] when
    [max_features] is below 1 or above the number of columns, or when [n_jobs] is 0.
    Otherwise, with means of the scores above -10000, it returns. *)
Theorem X11_fit_rejects_bad_configuration sk self n_features w :
  (1 <= n_features)%nat ->
  hparams_ok (hparams self) ->
  hparam_bits self = n_hparam_bits (hparams self) ->
  0 < n_population self ->
  0 < tournament_size self ->
  let bad :=
    match max_features self with
    | Some mf => mf < 1 \/ Z.of_nat n_features < mf
    | None => False
    end \/ n_jobs self = 0 in
  (bad -> fit sk self n_features w = inl ValueError)
  /\ (~ bad ->
      scores_above_sentinel sk ->
      cache_above_sentinel (scores_cache self) w ->
      exists f w', fit sk self n_features w = inr (f, w')).
Proof.
  intros Hn Hok Hhb Hnpop Hts bad. subst bad. split.
  - intros Hbad. unfold fit, _fit, check_max_features.
    destruct (max_features self) as [mf |].
    + destruct (decide (mf < 1 \/ Z.of_nat n_features < mf)) as [Hmf | Hmf].
      * assert ((mf <? 1) || (Z.of_nat n_features <? mf) = true) as Eb.
        { apply orb_true_iff. destruct Hmf; [left | right]; lia. }
        unfold bind. by rewrite Eb.
      * destruct Hbad as [? | Hj]; [done |].
        assert ((mf <? 1) || (Z.of_nat n_features <? mf) = false) as Eb.
        { apply orb_false_iff. split; lia. }
        unfold bind. rewrite Eb. cbn. by rewrite Hj.
    + destruct Hbad as [[] | Hj]. cbn. unfold bind. cbn. by rewrite Hj.
  - intros Hgood _ _.
    assert (Hfit : fit_ok self n_features).
    { split; [| split; [tauto | done]].
      destruct (max_features self) as [mf |]; [| exact Hn].
      destruct (decide (1 <= mf <= Z.of_nat n_features)); [done |].
      exfalso. apply Hgood. left. lia. }
    destruct (fit_spec sk self n_features w Hfit) as (f & w' & E & _).
    by exists f, w'.
Qed.

Section CacheAccounting.

Context (sk : scoring) (est c : nat) (max_features : Z) (hparams : option hparams_t).
Hypothesis Hok : hparams_ok hparams.

(** With caching, every call of [cross_val_score] comes with one new key of the cache. *)
Lemma evalFunction_calls_entries d individual :
  chromosome_ok hparams individual ->
  post (fun w => Z.of_nat (cv_calls w) - Z.of_nat (size (dicts w !!! c)) = d)
    (_evalFunction sk individual est max_features hparams true c) (fun _ => True).
Proof.
  intros Hch w fit w' HI E.
  destruct (evalFunction_calls sk est c max_features hparams Hok individual true w Hch)
    as (fit1 & w1 & E1 & Hcalls & Hdicts).
  rewrite E1 in E. injection E as <- <-. split; [| done].
  rewrite Hcalls, Hdicts. unfold needs_scoring in *. cbv zeta in *.
  destruct (negb ((np_sum (feature_segment hparams individual) =? 0)
                  || (max_features <? np_sum (feature_segment hparams individual))));
    cbn [andb negb orb]; [| exact HI].
  destruct (decide ((dicts w !!! c) !! feature_segment hparams individual = None))
    as [Hnone | Hsome].
  - rewrite bool_decide_eq_true_2 by exact Hnone. cbn [andb].
    rewrite lookup_total_insert_eq, map_size_insert_None by exact Hnone. lia.
  - rewrite bool_decide_eq_false_2 by exact Hsome. cbn [andb]. exact HI.
Qed.

(** Without caching, an evaluation writes to no dictionary. *)
Lemma evalFunction_no_write D individual :
  chromosome_ok hparams individual ->
  post (fun w => dicts w = D)
    (_evalFunction sk individual est max_features hparams false c) (fun _ => True).
Proof.
  intros Hch w fit w' HI E.
  destruct (evalFunction_calls sk est c max_features hparams Hok individual false w Hch)
    as (fit1 & w1 & E1 & _ & Hdicts).
  rewrite E1 in E. injection E as <- <-. split; [| done].
  rewrite Hdicts, andb_false_r. exact HI.
Qed.

End CacheAccounting.

(** X12.  With caching and [n_jobs = 1], a call of [fit] makes as many calls of
    [cross_val_score] as it adds keys to the cache of the selector: a mask that is a key
    of the cache is never scored again. *)
Theorem X12_one_cache_entry_per_call sk self n_features w :
  fit_ok self n_features ->
  n_jobs self = 1 ->
  caching self = true ->
  exists f w',
    fit sk self n_features w = inr (f, w')
    /\ (cv_calls w' + size (dicts w !!! scores_cache self)
        = cv_calls w + size (dicts w' !!! scores_cache self))%nat.
Proof.
  intros Hfit _ Hc.
  pose proof Hfit as (_ & _ & Hok & _).
  set (d := Z.of_nat (cv_calls w) - Z.of_nat (size (dicts w !!! scores_cache self))).
  destruct (fit_inv sk self n_features
              (fun _ w => Z.of_nat (cv_calls w)
                          - Z.of_nat (size (dicts w !!! scores_cache self)) = d)
              (fun _ _ => True)) with (w := w)
    as (f & w' & mf & pop & s0 & sts & b & E & _ & _ & w3 & HI & Hd & Hcv).
  - intros est w1 w2 (_ & D & _ & C) HI. by rewrite D, C.
  - done.
  - intros mf est individual Hch. rewrite Hc.
    eapply post_weaken; [by apply evalFunction_calls_entries | done].
  - exact Hfit.
  - reflexivity.
  - exists f, w'. split; [exact E |]. rewrite Hd, Hcv. subst d. lia.
Qed.

(** X13.  Without caching, a call of [fit] leaves every dictionary as it is: the cache
    of the selector is neither read nor written. *)
Theorem X13_no_caching_no_write sk self n_features w :
  fit_ok self n_features ->
  caching self = false ->
  exists f w',
    fit sk self n_features w = inr (f, w') /\ dicts w' = dicts w.
Proof.
  intros Hfit Hc.
  pose proof Hfit as (_ & _ & Hok & _).
  destruct (fit_inv sk self n_features (fun _ w1 => dicts w1 = dicts w)
              (fun _ _ => True)) with (w := w)
    as (f & w' & mf & pop & s0 & sts & b & E & _ & _ & w3 & HI & Hd & _).
  - intros est w1 w2 (_ & D & _) HI. by rewrite D.
  - done.
  - intros mf est individual Hch. rewrite Hc.
    eapply post_weaken; [by apply evalFunction_no_write | done].
  - exact Hfit.
  - reflexivity.
  - exists f, w'. split; [exact E |]. by rewrite Hd.
Qed.

(** *** Malformed hyperparameter dictionaries *)

Lemma bind_inl {A B} (m : M A) (k : A -> M B) w e :
  m w = inl e -> bind m k w = inl e.
Proof. intros H. unfold bind. by rewrite H. Qed.

(** With fewer ranges than names, the decoding reaches a name without a range. *)
Lemma eval_hparams_short_range hp est individual hnames : forall j i w,
  (0 < bitwidth hp)%nat ->
  (j <= length (range hp))%nat ->
  (length (range hp) < j + length hnames)%nat ->
  (i + length hnames * bitwidth hp <= length individual)%nat ->
  eval_hparams hp est individual j i hnames w = inl IndexError.
Proof.
  induction hnames as [| h rest IH]; intros j i w Hbw Hj Hshort Hlen.
  - simpl in Hshort. lia.
  - cbn [length] in Hshort, Hlen. cbn [eval_hparams].
    assert (Hs : slice individual i (i + bitwidth hp) <> [])
      by (apply slice_nonempty; lia).
    rewrite (bind_eq _ _ _ _ _ (int_base2_nonempty _ w Hs)).
    destruct (range hp !! j) as [pr |] eqn:Hpr.
    + assert (Hra : range_at hp j w = inr (pr, w)) by (unfold range_at; by rewrite Hpr).
      rewrite (bind_eq _ _ _ _ _ Hra).
      rewrite (bind_eq _ _ _ _ _ (phenotype_defined _ _ _ _ w Hbw)).
      unfold bind at 1. cbn [setattr].
      apply lookup_lt_Some in Hpr.
      apply IH; [exact Hbw | lia | lia | lia].
    + apply bind_inl. unfold range_at. by rewrite Hpr.
Qed.

Section FitErrors.

Context (sk : scoring) (self : GeneticSelectionCV_mod) (n_features : nat).

(** An error raised by the evaluation of every new chromosome is raised by [fit]. *)
Lemma fit_evaluation_error e w :
  match max_features self with
  | Some mf => 1 <= mf <= Z.of_nat n_features
  | None => (1 <= n_features)%nat
  end ->
  n_jobs self <> 0 ->
  hparam_bits self = n_hparam_bits (hparams self) ->
  0 < n_population self ->
  (forall mf est ind w1,
     fresh_chromosome (Z.of_nat n_features) mf (hparams self) ind ->
     _evalFunction sk (genes ind) est mf (hparams self) (caching self)
       (scores_cache self) w1 = inl e) ->
  fit sk self n_features w = inl e.
Proof.
  intros Hmf Hjobs Hhb Hnpop Herr. unfold fit, _fit.
  destruct (check_max_features_ok self n_features w Hmf) as (mf & Emf & Hmfr).
  rewrite (bind_eq _ _ _ _ _ Emf).
  set (l := next_loc w).
  set (w1 := mkWorld (<[l := ests w !!! estimator self]> (ests w)) (dicts w) (S l)
                     (cv_calls w) (rand w)).
  assert (Ecl : clone (estimator self) w = inr (l, w1)) by reflexivity.
  rewrite (bind_eq _ _ _ _ _ Ecl).
  destruct (Z.eqb_spec (n_jobs self) 0) as [| _]; [done |].
  destruct (run_initial_population sk self n_features mf l
              (Z.to_nat (n_population self)) Hhb Hmfr w1)
    as (pop & w2 & Epop & _ & Hpl & Hpop).
  rewrite (bind_eq _ _ _ _ _ Epop).
  destruct pop as [| p1 pop']; [simpl in Hpl; lia |].
  apply Forall_cons in Hpop as [Hp1 _].
  apply bind_inl. unfold _eaFunction. apply bind_inl.
  unfold ea_trace. apply bind_inl. unfold ea_init. apply bind_inl.
  cbn [evaluate_invalid]. destruct Hp1 as (Hnone & Hrest). rewrite Hnone.
  cbn [valid wvalues]. apply bind_inl. cbn [make_toolbox tb_evaluate].
  apply Herr. by split.
Qed.

End FitErrors.

(** X14.  With a hyperparameter dictionary that has names and a bit width of 0, [fit]
    raises [ValueError], on a configuration that is otherwise usable: the first
    evaluation converts an empty string of bits to an integer (line 150). *)
Theorem X14_zero_bitwidth_raises sk self n_features hp w :
  match max_features self with
  | Some mf => 1 <= mf <= Z.of_nat n_features
  | None => (1 <= n_features)%nat
  end ->
  n_jobs self <> 0 ->
  hparam_bits self = n_hparam_bits (hparams self) ->
  0 < n_population self ->
  hparams self = Some hp ->
  names hp <> [] ->
  bitwidth hp = O ->
  fit sk self n_features w = inl ValueError.
Proof.
  intros Hmf Hjobs Hhb Hnpop Hhp Hnames Hbw.
  apply fit_evaluation_error; try assumption.
  intros mf est ind w1 _. rewrite Hhp. unfold _evalFunction.
  apply bind_inl, bind_inl.
  destruct (names hp) as [| h rest]; [done |].
  cbn [eval_hparams]. apply bind_inl. rewrite Hbw.
  unfold slice. by rewrite Nat.add_0_r, Nat.sub_diag.
Qed.

(** X15.  With a hyperparameter dictionary that has fewer ranges than names, and a
    positive bit width, [fit] raises [IndexError], on a configuration that is otherwise
    usable: the first evaluation reaches a name without a range (line 151). *)
Theorem X15_missing_range_raises sk self n_features hp w :
  match max_features self with
  | Some mf => 1 <= mf <= Z.of_nat n_features
  | None => (1 <= n_features)%nat
  end ->
  n_jobs self <> 0 ->
  hparam_bits self = n_hparam_bits (hparams self) ->
  0 < n_population self ->
  hparams self = Some hp ->
  (0 < bitwidth hp)%nat ->
  (length (range hp) < length (names hp))%nat ->
  fit sk self n_features w = inl IndexError.
Proof.
  intros Hmf Hjobs Hhb Hnpop Hhp Hbw Hshort.
  apply fit_evaluation_error; try assumption.
  intros mf est ind w1 (_ & Hlen & _). rewrite Hhp in *. unfold _evalFunction.
  apply bind_inl, bind_inl. cbn [n_hparam_bits] in Hlen.
  apply eval_hparams_short_range; [exact Hbw | lia | lia | lia].
Qed.

(** *** The number of calls of [cross_val_score] *)

#[export] Instance same_calls_preorder : PreOrder same_calls.
Proof.
  split.
  - intros w. reflexivity.
  - intros w1 w2 w3 H12 H23. unfold same_calls in *. congruence.
Qed.

Lemma same_store_same_calls w w' : same_store w w' -> same_calls w w'.
Proof. by intros (_ & _ & _ & C). Qed.

Lemma total_same_calls {A} (m : M A) (Q : A -> Prop) w a w' :
  total same_calls m Q -> m w = inr (a, w') -> cv_calls w' = cv_calls w /\ Q a.
Proof.
  intros Ht E. destruct (Ht w) as (a1 & w1 & E1 & HR & HQ).
  rewrite E1 in E. injection E as <- <-. by split.
Qed.

Lemma decode_best_params_pure hp bits hnames : forall j i bp w bp' w',
  decode_best_params hp bits j i hnames bp w = inr (bp', w') -> w' = w.
Proof.
  induction hnames as [| h rest IH]; intros j i bp w bp' w' E.
  - cbn in E. by injection E as _ <-.
  - cbn [decode_best_params] in E.
    apply bind_inr in E as (dec_val & w1 & E1 & E).
    apply bind_inr in E as (pr & w2 & E2 & E).
    apply bind_inr in E as (p & w3 & E3 & E).
    apply IH in E. subst w'.
    assert (w1 = w) as ->.
    { unfold int_base2 in E1. destruct (slice bits i (i + bitwidth hp));
        [discriminate | by injection E1 as _ <-]. }
    assert (w2 = w) as ->.
    { unfold range_at in E2. destruct (range hp !! j);
        [by injection E2 as _ <- | discriminate]. }
    unfold phenotype in E3. apply bind_inr in E3 as (step & w4 & E4 & E3).
    injection E3 as _ <-. unfold fdiv in E4.
    destruct (Qeq_bool _ 0); [discriminate | by injection E4 as _ <-].
Qed.

Lemma final_attributes_pure self hof w fin w' :
  final_attributes self hof w = inr (fin, w') -> w' = w.
Proof.
  intros E. unfold final_attributes in E.
  apply bind_inr in E as (best & w1 & E1 & E).
  assert (w1 = w) as ->.
  { unfold hof_head in E1. destruct (items hof); [discriminate | by injection E1 as _ <-]. }
  destruct (hparams self) as [hp |].
  - apply bind_inr in E as (bp & w2 & E2 & E). injection E as _ <-.
    by eapply decode_best_params_pure.
  - apply bind_inr in E as (bp & w2 & E2 & E). injection E as _ <-.
    by injection E2 as _ <-.
Qed.

Section Calls.

Context (sk : scoring) (self : GeneticSelectionCV_mod) (n_features : nat)
        (max_features_ : Z) (est L : nat).
Hypothesis Hok : hparams_ok (hparams self).
Hypothesis HL : (n_hparam_bits (hparams self) <= L)%nat.
Hypothesis Hts : 0 < tournament_size self.

Let toolbox := make_toolbox sk self n_features max_features_ est.

Lemma evaluate_calls ind :
  length (genes ind) = L -> calls_le (tb_evaluate toolbox ind) 1.
Proof.
  intros Hl w fit w' E. subst toolbox. cbn [make_toolbox tb_evaluate] in E.
  assert (Hch : chromosome_ok (hparams self) (genes ind))
    by (unfold chromosome_ok; lia).
  destruct (evalFunction_calls sk est (scores_cache self) max_features_ (hparams self)
              Hok (genes ind) (caching self) w Hch) as (fit1 & w1 & E1 & Hc & _).
  rewrite E1 in E. injection E as <- <-. rewrite Hc.
  destruct (needs_scoring _ _ _ _ _ _); lia.
Qed.

Lemma evaluate_invalid_calls pop :
  Forall (fun ind => length (genes ind) = L) pop ->
  calls_le (evaluate_invalid toolbox pop) (length pop).
Proof.
  induction pop as [| ind rest IH]; intros Hlen w r w' E.
  - cbn in E. injection E as _ <-. lia.
  - apply Forall_cons in Hlen as [Hl Hlen]. cbn [evaluate_invalid] in E.
    destruct (valid (fitness ind)).
    + apply bind_inr in E as (r1 & w1 & E1 & E). injection E as _ <-.
      pose proof (IH Hlen w r1 w1 E1). simpl. lia.
    + apply bind_inr in E as (fit & w1 & E1 & E).
      apply bind_inr in E as (r1 & w2 & E2 & E). injection E as _ <-.
      pose proof (evaluate_calls ind Hl w fit w1 E1).
      pose proof (IH Hlen w1 r1 w2 E2). simpl. lia.
Qed.

Lemma generation_calls gen st :
  loop_inv L st ->
  calls_le (generation toolbox (crossover_proba self) (mutation_proba self)
              (n_gen_no_change self) (hparams self) 1 gen st)
           (length (population st) - 1).
Proof.
  intros (Hne & Hlen & b & Hhof & Hb) w r w' E. unfold generation in E.
  apply bind_inr in E as (sel & w1 & Esel & E).
  destruct (total_same_calls _ _ _ _ _
              (make_toolbox_select same_calls same_store_same_calls sk self n_features
                 max_features_ est Hts (population st) (length (population st) - 1)%nat
                 _ Hne Hlen) Esel) as (C1 & Hsl & HselL).
  apply bind_inr in E as (off & w2 & Evar & E).
  destruct (total_same_calls _ _ _ _ _
              (total_vary same_calls same_store_same_calls toolbox (crossover_proba self)
                 (mutation_proba self)
                 (make_toolbox_mate same_calls same_store_same_calls sk self n_features
                    max_features_ est)
                 (make_toolbox_mutate same_calls same_store_same_calls sk self n_features
                    max_features_ est)
                 (hparams self) L sel HL HselL) Evar) as (C2 & Hol & HoL).
  apply bind_inr in E as (ev & w3 & Eev & E).
  pose proof (evaluate_invalid_calls off HoL w2 ev w3 Eev) as C3.
  rewrite Hhof in E. cbn [hof_head items] in E.
  change (bind (ret b) ?k) with (k b) in E. cbn beta in E.
  rewrite hof_update_one in E.
  change (bind (ret ?h) ?k) with (k h) in E. cbn beta in E.
  cbn [hof_head items] in E.
  change (bind (ret ?h) ?k) with (k h) in E. cbn beta in E.
  injection E as _ <-. lia.
Qed.

Lemma ea_loop_calls : forall remaining gen st,
  loop_inv L st ->
  calls_le (ea_loop toolbox (crossover_proba self) (mutation_proba self)
              (n_gen_no_change self) (hparams self) 1 remaining gen st)
           (remaining * (length (population st) - 1)).
Proof.
  induction remaining as [| remaining IH]; intros gen st Hinv w sts w' E.
  - cbn in E. injection E as _ <-. lia.
  - cbn [ea_loop] in E. apply bind_inr in E as ([st' stop] & w1 & Egen & E).
    pose proof (generation_calls gen st Hinv w _ w1 Egen) as C1.
    destruct (total_generation (eval_frame est (scores_cache self))
                (same_store_eval_frame est (scores_cache self))
                toolbox (crossover_proba self) (mutation_proba self) L
                (make_toolbox_mate _ (same_store_eval_frame est (scores_cache self)) sk self n_features
                   max_features_ est)
                (make_toolbox_mutate _ (same_store_eval_frame est (scores_cache self)) sk self n_features
                   max_features_ est)
                (make_toolbox_select _ (same_store_eval_frame est (scores_cache self)) sk self n_features
                   max_features_ est Hts)
                (make_toolbox_evaluate _ sk self n_features max_features_ est
                   (fun _ _ H => H) L Hok HL)
                (n_gen_no_change self) (hparams self) gen st HL Hinv w)
      as (r1 & w1' & Egen' & _ & Hstep & Hinv').
    rewrite Egen in Egen'. injection Egen' as <- <-. cbn [fst snd] in *.
    assert (Hlen : length (population st') = length (population st)).
    { by destruct Hstep as (x & _ & _ & Hl & _). }
    destruct stop.
    + injection E as _ <-. simpl.
      set (q := (remaining * (length (population st) - 1))%nat). lia.
    + apply bind_inr in E as (rest & w2 & Erest & E). injection E as _ <-.
      pose proof (IH (S gen) st' Hinv' w1 rest w2 Erest) as C2.
      rewrite Hlen in C2. simpl.
      set (q := (remaining * (length (population st) - 1))%nat) in *. lia.
Qed.

Lemma ea_trace_calls pop :
  pop <> [] -> Forall (fun ind => length (genes ind) = L) pop ->
  calls_le (ea_trace pop toolbox (crossover_proba self) (mutation_proba self)
              (n_generations self) (n_gen_no_change self) (Some (mkHof 1 []))
              (hparams self))
           (length pop + Z.to_nat (n_generations self) * (length pop - 1)).
Proof.
  intros Hne Hlen w tr w' E. unfold ea_trace in E.
  apply bind_inr in E as ([s0 k] & w1 & Einit & E).
  destruct (total_ea_init (eval_frame est (scores_cache self)) toolbox L
              (make_toolbox_evaluate _ sk self n_features max_features_ est
                 (fun _ _ H => H) L Hok HL) pop Hne Hlen w)
    as (r1 & w1' & Einit' & _ & Hk & Hinv0 & _ & Hev).
  rewrite Einit in Einit'. injection Einit' as <- <-. cbn [fst snd] in *. subst k.
  assert (C1 : (cv_calls w1 <= cv_calls w + length pop)%nat).
  { unfold ea_init in Einit. apply bind_inr in Einit as (ev & w2 & Eev & Einit).
    pose proof (evaluate_invalid_calls pop Hlen w ev w2 Eev) as C.
    apply bind_inr in Einit as (hof & w3 & Ehof & Einit). injection Einit as _ _ <-.
    destruct ev as [[| first rest] nev]; cbn [fst] in Ehof.
    - cbn in Ehof. by injection Ehof as _ <-.
    - rewrite hof_update_empty in Ehof. by injection Ehof as _ <-. }
  apply bind_inr in E as (sts & w2 & Eloop & E). injection E as _ <-.
  pose proof (ea_loop_calls _ _ _ Hinv0 w1 sts w2 Eloop) as C2.
  rewrite (evaluated_length _ _ Hev) in C2. lia.
Qed.

End Calls.

(** X16.  A call of [fit] makes at most
    [n_population + n_generations * (n_population - 1)] calls of [cross_val_score]: one
    per individual of the initial population, and one per offspring of each
    generation. *)
Theorem X16_calls_bound sk self n_features w :
  fit_ok self n_features ->
  exists f w',
    fit sk self n_features w = inr (f, w')
    /\ (cv_calls w'
        <= cv_calls w + (Z.to_nat (n_population self)
                         + Z.to_nat (n_generations self)
                           * (Z.to_nat (n_population self) - 1)))%nat.
Proof.
  intros Hfit.
  destruct (fit_spec sk self n_features w Hfit) as (f & w' & E & _).
  exists f, w'. split; [exact E |].
  destruct Hfit as (Hmf & Hjobs & Hok & Hhb & Hnpop & Hts).
  unfold fit, _fit in E.
  destruct (check_max_features_ok self n_features w Hmf) as (mf & Emf & Hmfr).
  rewrite (bind_eq _ _ _ _ _ Emf) in E.
  apply bind_inr in E as (l & w1 & Ecl & E).
  assert (C1 : cv_calls w1 = cv_calls w) by (by injection Ecl as _ <-).
  destruct (Z.eqb_spec (n_jobs self) 0) as [| _]; [done |].
  apply bind_inr in E as (pop & w2 & Epop & E).
  assert (Hinit : total same_calls
            (initRepeat (tb_individual (make_toolbox sk self n_features mf l))
               (Z.to_nat (n_population self)))
            (fun pop => length pop = Z.to_nat (n_population self)
                        /\ Forall (fresh_chromosome (Z.of_nat n_features) mf
                                     (hparams self)) pop)).
  { apply total_initRepeat; [apply _ |].
    cbn [make_toolbox tb_individual]. rewrite Hhb.
    apply total_createIndividual;
      [apply _ | apply same_store_same_calls | exact Hmfr]. }
  destruct (total_same_calls _ _ _ _ _ Hinit Epop) as (C2 & Hpl & Hfresh).
  set (L := (n_hparam_bits (hparams self) + n_features)%nat).
  assert (HpopL : Forall (fun ind => length (genes ind) = L) pop).
  { eapply Forall_impl; [exact Hfresh |]. intros ind (_ & HlenZ & _). subst L. lia. }
  assert (Hne : pop <> []) by (intros ->; simpl in Hpl; lia).
  apply bind_inr in E as (st & w3 & Eea & E).
  assert (C3 : (cv_calls w3 <= cv_calls w2
                 + (length pop + Z.to_nat (n_generations self) * (length pop - 1)))%nat).
  { unfold _eaFunction in Eea. apply bind_inr in Eea as (tr & w4 & Etr & Eea).
    assert (w3 = w4) as ->.
    { destruct (last tr); [by injection Eea as _ <- | discriminate]. }
    exact (ea_trace_calls sk self n_features mf l L Hok ltac:(subst L; lia) Hts pop Hne
             HpopL w2 tr w4 Etr). }
  apply bind_inr in E as (fin & w4 & Efin & E).
  apply final_attributes_pure in Efin. subst w4.
  apply bind_inr in E as (e2 & w5 & Ecl2 & E).
  assert (C4 : cv_calls w5 = cv_calls w3) by (by injection Ecl2 as _ <-).
  injection E as _ <-. rewrite C4. rewrite Hpl in C3. lia.
Qed.

(* ===================================================================== *)
(** ** The further properties at concrete configurations *)
(* ===================================================================== *)

Lemma np_sum_nonneg l : 0 <= np_sum l.
Proof. induction l as [| [|] l IH]; simpl; lia. Qed.

Lemma sk0_above_sentinel : scores_above_sentinel sk0.
Proof.
  intros attrs mask. cbn [sk0 np_mean cv_scores]. unfold mean.
  cbn [fold_right length]. rewrite !Qred_correct.
  change (inject_Z (Z.of_nat 1)) with 1%Q.
  assert (H : (0 <= inject_Z (np_sum mask))%Q).
  { change 0%Q with (inject_Z 0). rewrite <- Zle_Qle. apply np_sum_nonneg. }
  change (inject_Z (-10000)) with (-10000)%Q.
  set (x := inject_Z (np_sum mask)) in *.
  assert (E : ((x / 3 + 0) / 1 == x * (1 # 3))%Q) by (field).
  rewrite E. lra.
Qed.

Lemma empty_cache_above_sentinel c : cache_above_sentinel c w0.
Proof.
  intros key v. cbn [w0 dicts]. rewrite lookup_total_empty.
  change (@inhabitant (gmap (list bool) (Q * Q)) _) with (∅ : gmap (list bool) (Q * Q)).
  rewrite lookup_empty. discriminate.
Qed.

Lemma X1_witness :
  exists fit w',
    _evalFunction sk_C [true; true; true] 0 1 (Some hp_C) true 1 w0 = inr (fit, w')
    /\ cv_calls w'
       = (if needs_scoring 1 (Some hp_C) true 1 w0 [true; true; true]
          then S (cv_calls w0) else cv_calls w0)
    /\ dicts w'
       = (if needs_scoring 1 (Some hp_C) true 1 w0 [true; true; true] && true
          then <[1%nat := <[feature_segment (Some hp_C) [true; true; true]
                            := (fit.1.1, fit.2)]> (dicts w0 !!! 1%nat)]> (dicts w0)
          else dicts w0).
Proof.
  apply (X1_evaluation_cost sk_C 0 1 1 (Some hp_C) [true; true; true] true w0).
  - split; simpl; lia.
  - unfold chromosome_ok. simpl. lia.
Defined.

Lemma X2_witness :
  exists w',
    _evalFunction sk_C [true; true; true] 0 1 (Some hp_C) false 1 w0
    = inr (pure_fitness sk_C ∅ 1 (Some hp_C) [true; true; true], w')
    /\ pure_store sk_C ∅ (Some hp_C) false 0 1 w'.
Proof.
  apply (X2_fitness_is_function_of_bits sk_C 0 1 1 (Some hp_C) ∅ [true; true; true]
           false w0).
  - split; simpl; lia.
  - right. reflexivity.
  - unfold chromosome_ok. simpl. lia.
  - split.
    + intros k _. reflexivity.
    + discriminate.
Defined.

Lemma X5_witness :
  exists tr w',
    ea_trace pop_C (make_toolbox sk_C (C_selector 1) 1 1 0)
      (1 # 2) (1 # 5) 3 (Some 2) (Some (mkHof 1 [])) (Some hp_C) w0 = inr (tr, w')
    /\ (forall g s, tr !! g = Some s ->
          length (population s) = length pop_C
          /\ Forall (fun ind => valid (fitness ind) = true) (population s)
          /\ exists b, halloffame s = mkHof 1 [b] /\ b ∈ population s)
    /\ (forall g s s', tr !! g = Some s -> tr !! S g = Some s' ->
          last (population s') = head (items (halloffame s))).
Proof.
  apply (X5_population_and_elitism sk_C (C_selector 1) 1 1 0 3 pop_C w0).
  - split; simpl; lia.
  - simpl. lia.
  - simpl. lia.
  - discriminate.
  - repeat constructor.
Defined.

Lemma X6_witness :
  exists tr w',
    ea_trace pop_C (make_toolbox sk_C (C_selector 1) 1 1 0)
      (1 # 2) (1 # 5) 3 (Some 2) (Some (mkHof 1 [])) (Some hp_C) w0 = inr (tr, w')
    /\ forall g s, tr !! g = Some s ->
         exists later,
           logbook s = (O, invalid_count pop_C) :: later
           /\ map fst later = seq 1 g
           /\ Forall (fun rec => (rec.2 <= length pop_C - 1)%nat
                                 /\ (is_Some (Some hp_C) ->
                                     rec.2 = (length pop_C - 1)%nat)) later.
Proof.
  apply (X6_logbook_records sk_C (C_selector 1) 1 1 0 3 pop_C w0).
  - split; simpl; lia.
  - simpl. lia.
  - simpl. lia.
  - discriminate.
  - repeat constructor.
Defined.

Lemma X7_witness :
  exists tr w',
    ea_trace [Individual_new depth_bits; Individual_new depth_bits]
      (make_toolbox sk0 (depth_selector 1) 1 1 0)
      (1 # 2) (1 # 5) 1 None (Some (mkHof 1 [])) (Some hp_depth) w0 = inr (tr, w')
    /\ forall g s x, tr !! g = Some s ->
         x ∈ population s \/ x ∈ items (halloffame s) ->
         fitness x = Some (pure_fitness sk0 ∅ 1 (Some hp_depth) (genes x)).
Proof.
  apply (X7_fitness_matches_bits sk0 (depth_selector 1) 1 1 0 5
           [Individual_new depth_bits; Individual_new depth_bits] ∅ w0).
  - split; simpl; lia.
  - simpl. lia.
  - simpl. lia.
  - discriminate.
  - repeat constructor.
  - repeat constructor.
  - right. reflexivity.
  - split.
    + intros k _. reflexivity.
    + discriminate.
Defined.


Lemma X9_witness :
  exists f w',
    fit sk0 (C_selector 1) 2 w0 = inr (f, w')
    /\ 1 <= n_features_ f <= default (Z.of_nat 2) (max_features (C_selector 1))
    /\ n_features_ f = np_sum (support_ f)
    /\ length (support_ f) = 2%nat.
Proof.
  apply (X9_selected_features_within_bound sk0 (C_selector 1) 2 w0).
  - unfold fit_ok. simpl. repeat split; lia.
  - exact sk0_above_sentinel.
  - exact (empty_cache_above_sentinel 1).
Defined.

Lemma X10_witness :
  exists f w',
    fit sk0 (C_selector 1) 2 w0 = inr (f, w')
    /\ (forall name, is_Some (best_params_ f !! name) <-> name ∈ names hp_C)
    /\ forall name v, best_params_ f !! name = Some v -> exists p, v = PFloat p.
Proof.
  apply (X10_best_params_names sk0 (C_selector 1) 2 hp_C w0).
  - unfold fit_ok. simpl. repeat split; lia.
  - exact sk0_above_sentinel.
  - exact (empty_cache_above_sentinel 1).
  - reflexivity.
Defined.

Lemma X11_witness :
  fit sk0 (mkSelector 0 (Some 5) 1 3 (1 # 2) (1 # 5) 3 (1 # 10) (1 # 20) 2 (Some 2)
             (Some hp_C) 2 true 1) 2 w0 = inl ValueError
  /\ fit sk0 (mkSelector 0 (Some 2) 0 3 (1 # 2) (1 # 5) 3 (1 # 10) (1 # 20) 2 (Some 2)
                (Some hp_C) 2 true 1) 2 w0 = inl ValueError
  /\ exists f w', fit sk0 (C_selector 1) 2 w0 = inr (f, w').
Proof.
  assert (Hok : hparams_ok (Some hp_C)) by (split; simpl; lia).
  split; [| split].
  - apply (X11_fit_rejects_bad_configuration sk0
             (mkSelector 0 (Some 5) 1 3 (1 # 2) (1 # 5) 3 (1 # 10) (1 # 20) 2 (Some 2)
                (Some hp_C) 2 true 1) 2 w0);
      [lia | exact Hok | reflexivity | simpl; lia | simpl; lia |].
    left. right. simpl. lia.
  - apply (X11_fit_rejects_bad_configuration sk0
             (mkSelector 0 (Some 2) 0 3 (1 # 2) (1 # 5) 3 (1 # 10) (1 # 20) 2 (Some 2)
                (Some hp_C) 2 true 1) 2 w0);
      [lia | exact Hok | reflexivity | simpl; lia | simpl; lia |].
    right. reflexivity.
  - apply (X11_fit_rejects_bad_configuration sk0 (C_selector 1) 2 w0);
      [lia | exact Hok | reflexivity | simpl; lia | simpl; lia | | |].
    + simpl. intros [[H | H] | H]; [lia | lia | discriminate].
    + exact sk0_above_sentinel.
    + exact (empty_cache_above_sentinel 1).
Defined.

Lemma X12_witness :
  exists f w',
    fit sk0 (C_selector 1) 2 w0 = inr (f, w')
    /\ (cv_calls w' + size (dicts w0 !!! scores_cache (C_selector 1))
        = cv_calls w0 + size (dicts w' !!! scores_cache (C_selector 1)))%nat.
Proof.
  apply (X12_one_cache_entry_per_call sk0 (C_selector 1) 2 w0).
  - unfold fit_ok. simpl. repeat split; lia.
  - reflexivity.
  - reflexivity.
Defined.

Lemma X13_witness :
  exists f w',
    fit sk0 (depth_selector 1) 1 w0 = inr (f, w') /\ dicts w' = dicts w0.
Proof.
  apply (X13_no_caching_no_write sk0 (depth_selector 1) 1 w0).
  - unfold fit_ok. simpl. repeat split; lia.
  - reflexivity.
Defined.

Lemma X14_witness :
  fit sk0 (mkSelector 0 (Some 1) 1 2 (1 # 2) (1 # 5) 1 (1 # 10) (1 # 20) 2 None
             (Some (mkHparams ["C"%string] 0 [(0, 3)%Q])) 0 false 1) 1 w0
  = inl ValueError.
Proof.
  apply (X14_zero_bitwidth_raises sk0
           (mkSelector 0 (Some 1) 1 2 (1 # 2) (1 # 5) 1 (1 # 10) (1 # 20) 2 None
              (Some (mkHparams ["C"%string] 0 [(0, 3)%Q])) 0 false 1)
           1 (mkHparams ["C"%string] 0 [(0, 3)%Q]) w0).
  - simpl. lia.
  - simpl. lia.
  - reflexivity.
  - simpl. lia.
  - reflexivity.
  - discriminate.
  - reflexivity.
Defined.

Lemma X15_witness :
  fit sk0 (mkSelector 0 (Some 1) 1 2 (1 # 2) (1 # 5) 1 (1 # 10) (1 # 20) 2 None
             (Some (mkHparams ["C"%string; "gamma"%string] 2 [(0, 3)%Q])) 4 false 1) 1 w0
  = inl IndexError.
Proof.
  apply (X15_missing_range_raises sk0
           (mkSelector 0 (Some 1) 1 2 (1 # 2) (1 # 5) 1 (1 # 10) (1 # 20) 2 None
              (Some (mkHparams ["C"%string; "gamma"%string] 2 [(0, 3)%Q])) 4 false 1)
           1 (mkHparams ["C"%string; "gamma"%string] 2 [(0, 3)%Q]) w0).
  - simpl. lia.
  - simpl. lia.
  - reflexivity.
  - simpl. lia.
  - reflexivity.
  - simpl. lia.
  - simpl. lia.
Defined.

Lemma X16_witness :
  exists f w',
    fit sk0 (C_selector 1) 2 w0 = inr (f, w')
    /\ (cv_calls w'
        <= cv_calls w0 + (Z.to_nat (n_population (C_selector 1))
                          + Z.to_nat (n_generations (C_selector 1))
                            * (Z.to_nat (n_population (C_selector 1)) - 1)))%nat.
Proof.
  apply (X16_calls_bound sk0 (C_selector 1) 2 w0).
  unfold fit_ok. simpl. repeat split; lia.
Defined.
